(** * Study-Guide-Generator: text post-processing and upload handling

    A shallow embedding of the regular-expression based post-processing of
    [client/pages/Index.tsx] (cleanContent, parseOutline, extractKeyPoints and
    the flashcards branch of formatContent) and of the upload filter,
    truncation and model-fallback loop of the server route, followed by the
    properties the specification states about them.

    JavaScript strings are sequences of UTF-16 code units; a code unit is an
    [N].  Regular expressions are kept as syntax trees that mirror the
    literals of the source, and are run by a backtracking matcher written in
    continuation-passing style after the ECMAScript pattern semantics.  Where
    a literal is quoted in a comment, a star followed by a closing parenthesis
    is written with a space between the two. *)

From Stdlib Require Import String Ascii List NArith ZArith Bool Arith Lia.
Import Datatypes ListNotations.

Set Implicit Arguments.
Set Warnings "-abstract-large-number".

(* ------------------------------------------------------------------ *)
(** ** Strings as lists of code units *)

Module JS.

Definition char := N.
Definition jstring := list char.

(** An ASCII literal of the source, as code units. *)
Definition str (s : string) : jstring :=
  map N_of_ascii (list_ascii_of_string s).
Arguments str s%_string.

Definition NL : char := 10%N.
Definition CR : char := 13%N.

Local Open Scope N_scope.

Definition in_range (lo hi c : char) : bool := (lo <=? c) && (c <=? hi).

(** WhiteSpace and LineTerminator code points: the set of [\s] and of
    [String.prototype.trim]. *)
Definition is_space (c : char) : bool :=
  in_range 9 13 c || (c =? 32) || (c =? 160) || (c =? 5760)
  || in_range 8192 8202 c || (c =? 8232) || (c =? 8233)
  || (c =? 8239) || (c =? 8287) || (c =? 12288) || (c =? 65279).

(** LineTerminator: what [.] refuses and what [^] looks at under /m. *)
Definition is_line_terminator (c : char) : bool :=
  (c =? 10) || (c =? 13) || (c =? 8232) || (c =? 8233).

Definition is_digit (c : char) : bool := in_range 48 57 c.

(** Word characters of [\b]: A-Z a-z 0-9 and underscore. *)
Definition is_word (c : char) : bool :=
  in_range 65 90 c || in_range 97 122 c || is_digit c || (c =? 95).

(** Canonicalize of the /i flag (non-unicode mode).  Every pattern of this
    program is ASCII, and a code unit of 128 or more never canonicalizes to
    an ASCII one, so only the ASCII letters need their upper case here. *)
Definition canon (c : char) : char :=
  if in_range 97 122 c then c - 32 else c.

Definition lower (c : char) : char :=
  if in_range 65 90 c then c + 32 else c.

Local Close Scope N_scope.

Fixpoint jeqb (a b : jstring) : bool :=
  match a, b with
  | [], [] => true
  | x :: a', y :: b' => (x =? y)%N && jeqb a' b'
  | _, _ => false
  end.

(** [String.prototype.trim]. *)
Fixpoint trim_start (s : jstring) : jstring :=
  match s with
  | c :: tl => if is_space c then trim_start tl else s
  | [] => []
  end.

Definition trim_end (s : jstring) : jstring := rev (trim_start (rev s)).

Definition trim (s : jstring) : jstring := trim_end (trim_start s).

(** [s.slice(i)] and [s.substring(i)] for a non-negative [i]. *)
Definition slice_from (i : nat) (s : jstring) : jstring := skipn i s.

(** [s.substring(0, n)]. *)
Definition substring0 (n : nat) (s : jstring) : jstring := firstn n s.

(** [pieces.join(sep)]. *)
Fixpoint join (sep : jstring) (l : list jstring) : jstring :=
  match l with
  | [] => []
  | [a] => a
  | a :: tl => a ++ sep ++ join sep tl
  end.

(** Truthiness of a string: non-empty. *)
Definition truthy (s : jstring) : bool :=
  match s with [] => false | _ => true end.

End JS.
Import JS.

(* ------------------------------------------------------------------ *)
(** ** Regular expressions *)

Module Regex.

(** Members of a bracket class. *)
Inductive citem : Type :=
| CChar (c : char)
| CRange (lo hi : char)
| CSpace      (* \s *)
| CNotSpace   (* \S *)
| CDigit.     (* \d *)

Inductive regex : Type :=
| Eps
| Chr (c : char)                          (* a literal character *)
| Dot                                     (* . *)
| Cls (neg : bool) (items : list citem)   (* [...] and [^...] *)
| Seq (r1 r2 : regex)
| Alt (r1 r2 : regex)
| Rep (r : regex) (lo : nat) (hi : option nat) (greedy : bool)
| Grp (i : nat) (r : regex)               (* capturing group number i *)
| Look (r : regex)                        (* (?=r) *)
| Bol                                     (* ^ *)
| Eol                                     (* $ *)
| WordB.                                  (* \b *)

Record flags := { icase : bool; multiline : bool }.

Definition no_flags := {| icase := false; multiline := false |}.
Definition flag_i := {| icase := true; multiline := false |}.
Definition flag_m := {| icase := false; multiline := true |}.

(** The state of a match: the character before the current position (for
    [^] and [\b]), the input still to read, the current index, and the
    captures made so far (latest first). *)
Record mstate := {
  prev : option char;
  rest : jstring;
  pos : nat;
  caps : list (nat * jstring)
}.

Definition cont := mstate -> option mstate.

Definition advance (x : mstate) (c : char) (tl : jstring) : mstate :=
  {| prev := Some c; rest := tl; pos := S (pos x); caps := caps x |}.

Definition set_cap (i : nat) (s : jstring) (x : mstate) : mstate :=
  {| prev := prev x; rest := rest x; pos := pos x; caps := (i, s) :: caps x |}.

Fixpoint get_cap (i : nat) (cs : list (nat * jstring)) : option jstring :=
  match cs with
  | [] => None
  | (j, s) :: tl => if Nat.eqb i j then Some s else get_cap i tl
  end.

Definition char_eq (f : flags) (a b : char) : bool :=
  if icase f then (canon a =? canon b)%N else (a =? b)%N.

Definition item_match (f : flags) (it : citem) (c : char) : bool :=
  match it with
  | CChar a => char_eq f a c
  | CRange lo hi =>
      if icase f
      then in_range lo hi c || in_range lo hi (canon c) || in_range lo hi (lower c)
      else in_range lo hi c
  | CSpace => is_space c
  | CNotSpace => negb (is_space c)
  | CDigit => is_digit c
  end.

Definition cls_match (f : flags) (neg : bool) (items : list citem) (c : char) : bool :=
  xorb neg (existsb (fun it => item_match f it c) items).

Definition at_bol (f : flags) (x : mstate) : bool :=
  match prev x with
  | None => true
  | Some c => multiline f && is_line_terminator c
  end.

Definition at_eol (f : flags) (x : mstate) : bool :=
  match rest x with
  | [] => true
  | c :: _ => multiline f && is_line_terminator c
  end.

Definition word_before (x : mstate) : bool :=
  match prev x with Some c => is_word c | None => false end.

Definition word_after (x : mstate) : bool :=
  match rest x with c :: _ => is_word c | [] => false end.

Definition hi_zero (hi : option nat) : bool :=
  match hi with Some 0 => true | _ => false end.

Definition hi_pred (hi : option nat) : option nat :=
  match hi with Some n => Some (Nat.pred n) | None => None end.

Definition or_else (a : option mstate) (b : unit -> option mstate) : option mstate :=
  match a with Some z => Some z | None => b tt end.

(** RepeatMatcher once the lower bound is used up.  An iteration that
    consumes nothing is refused; as a match only moves forward, that is an
    iteration which leaves the remaining input no shorter.  [fuel] bounds
    the remaining input, so the innermost [None] is never reached and any
    larger fuel gives the same answer (lemma [rep_star_fuel] below). *)
Fixpoint rep_star (mr : mstate -> cont -> option mstate) (greedy : bool)
    (fuel : nat) (hi : option nat) (x : mstate) (k : cont) {struct fuel}
    : option mstate :=
  if hi_zero hi then k x else
  let d := fun y =>
    if length (rest x) <=? length (rest y) then None
    else match fuel with
         | 0 => None
         | S fuel' => rep_star mr greedy fuel' (hi_pred hi) y k
         end in
  if greedy then or_else (mr x d) (fun _ => k x)
  else or_else (k x) (fun _ => mr x d).

(** RepeatMatcher: [lo] compulsory iterations, then [rep_star].  No
    quantified sub-pattern of this program contains a capturing group, so
    there are no captures to reset on entering an iteration. *)
Fixpoint rep_min (mr : mstate -> cont -> option mstate) (greedy : bool)
    (lo : nat) (hi : option nat) (x : mstate) (k : cont) {struct lo}
    : option mstate :=
  if hi_zero hi then k x else
  match lo with
  | 0 => rep_star mr greedy (length (rest x)) hi x k
  | S lo' => mr x (fun y => rep_min mr greedy lo' (hi_pred hi) y k)
  end.

(** The matcher of a pattern: [m f r x k] matches [r] at state [x] and
    hands each way of matching, in priority order, to the continuation [k]
    until one succeeds. *)
Fixpoint m (f : flags) (r : regex) (x : mstate) (k : cont) {struct r}
    : option mstate :=
  match r with
  | Eps => k x
  | Chr c =>
      match rest x with
      | d :: tl => if char_eq f c d then k (advance x d tl) else None
      | [] => None
      end
  | Dot =>
      match rest x with
      | d :: tl => if is_line_terminator d then None else k (advance x d tl)
      | [] => None
      end
  | Cls neg items =>
      match rest x with
      | d :: tl => if cls_match f neg items d then k (advance x d tl) else None
      | [] => None
      end
  | Seq r1 r2 => m f r1 x (fun y => m f r2 y k)
  | Alt r1 r2 => or_else (m f r1 x k) (fun _ => m f r2 x k)
  | Rep r1 lo hi greedy => rep_min (m f r1) greedy lo hi x k
  | Grp i r1 =>
      m f r1 x (fun y => k (set_cap i (firstn (pos y - pos x) (rest x)) y))
  | Look r1 =>
      match m f r1 x Some with
      | Some y => k {| prev := prev x; rest := rest x; pos := pos x; caps := caps y |}
      | None => None
      end
  | Bol => if at_bol f x then k x else None
  | Eol => if at_eol f x then k x else None
  | WordB => if xorb (word_before x) (word_after x) then k x else None
  end.

(** A successful match: where it starts, where it ends, what follows it,
    and its captures. *)
Record rmatch := {
  m_index : nat;
  m_end : nat;
  m_text : jstring;       (* m[0] *)
  m_after : jstring;      (* the input after the match *)
  m_caps : list (nat * jstring)
}.

Definition group (i : nat) (mt : rmatch) : option jstring := get_cap i (m_caps mt).

(** One attempt at exactly the current position. *)
Definition match_at (f : flags) (r : regex) (p : option char) (s : jstring)
    (i : nat) : option rmatch :=
  match m f r {| prev := p; rest := s; pos := i; caps := [] |} Some with
  | Some y => Some {| m_index := i; m_end := pos y;
                      m_text := firstn (pos y - i) s;
                      m_after := rest y; m_caps := caps y |}
  | None => None
  end.

(** The leftmost match at or after the current position: what
    RegExpBuiltinExec finds when it steps lastIndex forward. *)
Fixpoint scan (f : flags) (r : regex) (p : option char) (s : jstring) (i : nat)
    : option rmatch :=
  match match_at f r p s i with
  | Some mt => Some mt
  | None =>
      match s with
      | [] => None
      | c :: tl => scan f r (Some c) tl (S i)
      end
  end.

(** [rx.exec(s)] for a regex without the g flag, and [s.match(rx)]. *)
Definition exec (f : flags) (r : regex) (s : jstring) : option rmatch :=
  scan f r None s 0.

(** [rx.test(s)]. *)
Definition test (f : flags) (r : regex) (s : jstring) : bool :=
  match exec f r s with Some _ => true | None => false end.

(** [s.search(rx)]. *)
Definition search (f : flags) (r : regex) (s : jstring) : Z :=
  match exec f r s with Some mt => Z.of_nat (m_index mt) | None => (-1)%Z end.

(** [s.replace(rx, rep)] for a regex without the g flag and a replacement
    free of dollar patterns. *)
Definition replace (f : flags) (r : regex) (rep : jstring) (s : jstring) : jstring :=
  match exec f r s with
  | Some mt => firstn (m_index mt) s ++ rep ++ m_after mt
  | None => s
  end.

(** [s.replace(rx, rep)] for a regex with the g flag: every match, left to
    right, none overlapping; after an empty match the search resumes one
    character further.  [skip] counts the characters of the current match
    still to be dropped. *)
Fixpoint replace_all_go (f : flags) (r : regex) (rep : jstring) (skip : nat)
    (p : option char) (s : jstring) (i : nat) : jstring :=
  match skip with
  | S sk =>
      match s with
      | c :: tl => replace_all_go f r rep sk (Some c) tl (S i)
      | [] => []
      end
  | 0 =>
      match match_at f r p s i with
      | Some mt =>
          rep ++
          match s with
          | c :: tl =>
              match m_end mt - i with
              | 0 => c :: replace_all_go f r rep 0 (Some c) tl (S i)
              | S n => replace_all_go f r rep n (Some c) tl (S i)
              end
          | [] => []
          end
      | None =>
          match s with
          | c :: tl => c :: replace_all_go f r rep 0 (Some c) tl (S i)
          | [] => []
          end
      end
  end.

Definition replace_all (f : flags) (r : regex) (rep : jstring) (s : jstring) : jstring :=
  replace_all_go f r rep 0 None s 0.

(** [while ((m = rx.exec(s))) body(m)] for a regex with the g flag, fresh
    from its literal: the matches in order, each search starting where the
    last match ended.  An empty match would leave lastIndex where it was and
    the source's loop would never end: that is [None].  (A match never ends
    beyond the input, so the [None] for a non-empty match of the empty
    input is never reached.) *)
Fixpoint exec_loop (f : flags) (r : regex) (skip : nat)
    (p : option char) (s : jstring) (i : nat) : option (list rmatch) :=
  match skip with
  | S sk =>
      match s with
      | c :: tl => exec_loop f r sk (Some c) tl (S i)
      | [] => Some []
      end
  | 0 =>
      match match_at f r p s i with
      | Some mt =>
          match m_end mt - i with
          | 0 => None
          | S n =>
              match s with
              | c :: tl =>
                  option_map (cons mt) (exec_loop f r n (Some c) tl (S i))
              | [] => None
              end
          end
      | None =>
          match s with
          | c :: tl => exec_loop f r 0 (Some c) tl (S i)
          | [] => Some []
          end
      end
  end.

Definition exec_all (f : flags) (r : regex) (s : jstring) : option (list rmatch) :=
  exec_loop f r 0 None s 0.

(** [s.split(rx)] for a regex without groups.  [cur] is the piece being
    read, reversed; an empty match at the start of a piece is passed over
    (SplitMatcher's [e = p] case). *)
Fixpoint split_go (f : flags) (r : regex) (skip : nat) (cur : jstring)
    (p : option char) (s : jstring) (i : nat) : list jstring :=
  match s with
  | [] => [rev cur]
  | c :: tl =>
      match skip with
      | S sk => split_go f r sk [] (Some c) tl (S i)
      | 0 =>
          match match_at f r p s i with
          | Some mt =>
              match m_end mt - i with
              | 0 =>
                  match cur with
                  | [] => split_go f r 0 [c] (Some c) tl (S i)
                  | _ => rev cur :: split_go f r 0 [c] (Some c) tl (S i)
                  end
              | S n => rev cur :: split_go f r n [] (Some c) tl (S i)
              end
          | None => split_go f r 0 (c :: cur) (Some c) tl (S i)
          end
      end
  end.

Definition split (f : flags) (r : regex) (s : jstring) : list jstring :=
  match s with
  | [] => match match_at f r None [] 0 with Some _ => [] | None => [[]] end
  | _ => split_go f r 0 [] None s 0
  end.

(** *** Writing patterns *)

Fixpoint lit_chars (l : list char) : regex :=
  match l with
  | [] => Eps
  | [c] => Chr c
  | c :: tl => Seq (Chr c) (lit_chars tl)
  end.

Definition lit (s : string) : regex := lit_chars (str s).
Arguments lit s%_string.

Fixpoint seq (l : list regex) : regex :=
  match l with
  | [] => Eps
  | [r] => r
  | r :: tl => Seq r (seq tl)
  end.

Fixpoint alt (l : list regex) : regex :=
  match l with
  | [] => Eps
  | [r] => r
  | r :: tl => Alt r (alt tl)
  end.

Definition star (r : regex) := Rep r 0 None true.          (* r*  *)
Definition plus (r : regex) := Rep r 1 None true.          (* r+  *)
Definition opt (r : regex) := Rep r 0 (Some 1) true.       (* r?  *)
Definition star_lazy (r : regex) := Rep r 0 None false.    (* r*? *)
Definition plus_lazy (r : regex) := Rep r 1 None false.    (* r+? *)
Definition upto (n : nat) (r : regex) := Rep r 0 (Some n) true.  (* r{0,n} *)
Definition atleast (n : nat) (r : regex) := Rep r n None true.   (* r{n,} *)

Definition ch (s : string) : char :=
  match str s with c :: _ => c | [] => 0%N end.
Arguments ch s%_string.

Definition sp := Cls false [CSpace].                       (* \s *)
Definition dg := Cls false [CDigit].                       (* \d *)
Definition any := Cls false [CSpace; CNotSpace].           (* [\s\S] *)
Definition nl := Chr NL.                                   (* \n *)

End Regex.
Import Regex.

(* ------------------------------------------------------------------ *)
(** ** client/pages/Index.tsx *)

Module Index.

Inductive StudyGuideType : Type :=
| Summary | Points | Flashcards | Quiz | Outline.

Definition is_flashcards (t : StudyGuideType) : bool :=
  match t with Flashcards => true | _ => false end.

(** *** cleanContent *)

Definition not_nl := Cls true [CChar NL].                  (* [^\n] *)

(** [/^\s*Here (?:is|are)\b[^\n]*\n?/i] and its seven siblings. *)
Definition preamblePatterns : list regex := [
  seq [Bol; star sp; lit "Here "; Alt (lit "is") (lit "are"); WordB; star not_nl; opt nl];
  seq [Bol; star sp; lit "I'll"; WordB; star not_nl; opt nl];
  seq [Bol; star sp; lit "I can"; WordB; star not_nl; opt nl];
  seq [Bol; star sp; lit "Let me"; WordB; star not_nl; opt nl];
  seq [Bol; star sp; lit "Based on"; WordB; star not_nl; opt nl];
  seq [Bol; star sp; lit "Given"; WordB; star not_nl; opt nl];
  seq [Bol; star sp; lit "It appears"; WordB; star not_nl; opt nl];
  seq [Bol; star sp; lit "Note:"; star sp; lit "This"; WordB; star not_nl; opt nl]
].

(** [/\b(Question:|Q:|\d+\.|\*\s|\-\s)/i] *)
Definition flashMarkerRe : regex :=
  seq [WordB;
       Grp 1 (alt [lit "Question:"; lit "Q:"; Seq (plus dg) (Chr (ch "."));
                   Seq (Chr (ch "*")) sp; Seq (Chr (ch "-")) sp])].

(** [/^(#|\*\s|\-\s|\d+\.|I\.|II\.)/m] *)
Definition structMarkerRe : regex :=
  seq [Bol;
       Grp 1 (alt [Chr (ch "#"); Seq (Chr (ch "*")) sp; Seq (Chr (ch "-")) sp;
                   Seq (plus dg) (Chr (ch ".")); lit "I."; lit "II."])].

(** [/(?:\n|\s)*(?:I hope this helps|Let me know if you need|Would you like me|Feel free to ask)[\s\S]*$/i] *)
Definition trailingRe : regex :=
  seq [star (Alt nl sp);
       alt [lit "I hope this helps"; lit "Let me know if you need";
            lit "Would you like me"; lit "Feel free to ask"];
       star any; Eol].

(** [/\n{3,}/g] *)
Definition newlinesRe : regex := atleast 3 nl.

Definition strip_preambles (content : jstring) : jstring :=
  fold_left (fun cleaned rx => replace flag_i rx [] cleaned) preamblePatterns content.

(** The index the marker search returns: for flashcards the first
    question, numbered item or bullet; for the other kinds the first line
    that starts with a heading, bullet, number or roman numeral. *)
Definition marker_index (type : StudyGuideType) (cleaned : jstring) : Z :=
  if is_flashcards type
  then search flag_i flashMarkerRe cleaned
  else search flag_m structMarkerRe cleaned.

(** [if (idx > 0) cleaned = cleaned.slice(idx)]. *)
Definition cut_at_marker (type : StudyGuideType) (cleaned : jstring) : jstring :=
  let idx := marker_index type cleaned in
  if (0 <? idx)%Z then slice_from (Z.to_nat idx) cleaned else cleaned.

Definition cleanContent (content : jstring) (type : StudyGuideType) : jstring :=
  if negb (truthy content) then [] else
  let cleaned := strip_preambles content in
  let cleaned := cut_at_marker type cleaned in
  let cleaned := trim (replace flag_i trailingRe [] cleaned) in
  let cleaned := trim (replace_all no_flags newlinesRe [NL; NL] cleaned) in
  cleaned.

(** *** parseOutline *)

Record OutlinePoint := { op_title : jstring; op_points : list jstring }.
Record OutlineSection := { os_title : jstring; os_subtopics : list OutlinePoint }.

(** [/\r?\n/] *)
Definition lineBreakRe : regex := Seq (opt (Chr CR)) nl.

Definition roman (s : string) := Chr (ch s).
Arguments roman s%_string.

(** [/^(?:(?=[MDCLXVI])M{0,4}(CM|CD|D?C{0,3})(XC|XL|L?X{0,3})(IX|IV|V?I{0,3}))\./i] *)
Definition romanRe : regex :=
  seq [Bol;
       Look (Cls false [CChar (ch "M"); CChar (ch "D"); CChar (ch "C"); CChar (ch "L");
                        CChar (ch "X"); CChar (ch "V"); CChar (ch "I")]);
       upto 4 (roman "M");
       Grp 1 (alt [lit "CM"; lit "CD"; Seq (opt (roman "D")) (upto 3 (roman "C"))]);
       Grp 2 (alt [lit "XC"; lit "XL"; Seq (opt (roman "L")) (upto 3 (roman "X"))]);
       Grp 3 (alt [lit "IX"; lit "IV"; Seq (opt (roman "V")) (upto 3 (roman "I"))]);
       Chr (ch ".")].

(** [/^#\s+/] *)
Definition headingRe : regex := seq [Bol; Chr (ch "#"); plus sp].

(** [/^([A-Z])\.?\s+(.* )/] *)
Definition letterRe : regex :=
  seq [Bol; Grp 1 (Cls false [CRange (ch "A") (ch "Z")]); opt (Chr (ch "."));
       plus sp; Grp 2 (star Dot)].

(** [/^(\d+)\.?\s+(.* )/] *)
Definition numberedRe : regex :=
  seq [Bol; Grp 1 (plus dg); opt (Chr (ch ".")); plus sp; Grp 2 (star Dot)].

Definition dash_or_star := Cls false [CChar (ch "-"); CChar (ch "*")].   (* [-*] *)

(** [/^[-*]\s+(.* )/] *)
Definition bulletRe : regex := seq [Bol; dash_or_star; plus sp; Grp 1 (star Dot)].

(** The loop variables of parseOutline.  [currentSub] is an alias of an
    element of [current.subtopics]: it is kept as the index of that element,
    and a push to [currentSub.points] is a change at that index. *)
Record outline_state := {
  sections : list OutlineSection;
  current : option OutlineSection;
  currentSub : option nat
}.

Definition outline_init : outline_state :=
  {| sections := []; current := None; currentSub := None |}.

Definition a_string (o : option jstring) : jstring :=
  match o with Some s => s | None => [] end.

Fixpoint alter_nth (A : Type) (g : A -> A) (i : nat) (l : list A) : list A :=
  match l, i with
  | [], _ => []
  | a :: tl, 0 => g a :: tl
  | a :: tl, S j => a :: alter_nth g j tl
  end.

Definition push_point (p : jstring) (sub : OutlinePoint) : OutlinePoint :=
  {| op_title := op_title sub; op_points := op_points sub ++ [p] |}.

Definition push_subtopic (sub : OutlinePoint) (sec : OutlineSection) : OutlineSection :=
  {| os_title := os_title sec; os_subtopics := os_subtopics sec ++ [sub] |}.

(** The section pushed to [sections] when another one starts. *)
Definition close_current (st : outline_state) : list OutlineSection :=
  match current st with
  | Some c => sections st ++ [c]
  | None => sections st
  end.

(** One turn of the [for (const line of lines)] loop. *)
Definition outline_step (st : outline_state) (line : jstring) : outline_state :=
  if test flag_i romanRe line || test no_flags headingRe line then
    let title := trim (replace no_flags headingRe [] (replace flag_i romanRe [] line)) in
    {| sections := close_current st;
       current := Some {| os_title := title; os_subtopics := [] |};
       currentSub := None |}
  else
  match exec no_flags letterRe line with
  | Some letter =>
      let cur := match current st with
                 | Some c => c
                 | None => {| os_title := a_string (group 2 letter); os_subtopics := [] |}
                 end in
      let sub := {| op_title := trim (a_string (group 2 letter)); op_points := [] |} in
      {| sections := sections st;
         current := Some (push_subtopic sub cur);
         currentSub := Some (length (os_subtopics cur)) |}
  | None =>
      let numbered :=
        match exec no_flags numberedRe line with
        | Some n => Some n
        | None => exec no_flags bulletRe line
        end in
      match numbered with
      | Some n =>
          let cur := match current st with
                     | Some c => c
                     | None => {| os_title := str "Outline"; os_subtopics := [] |}
                     end in
          let '(cur, i) :=
            match currentSub st with
            | Some i => (cur, i)
            | None =>
                (push_subtopic {| op_title := str "Details"; op_points := [] |} cur,
                 length (os_subtopics cur))
            end in
          let p := if truthy (a_string (group 2 n))
                   then trim (a_string (group 2 n))
                   else trim (a_string (group 1 n)) in
          {| sections := sections st;
             current := Some {| os_title := os_title cur;
                                os_subtopics := alter_nth (push_point p) i (os_subtopics cur) |};
             currentSub := Some i |}
      | None => st
      end
  end.

Definition outline_lines (text : jstring) : list jstring :=
  filter truthy (map trim (split no_flags lineBreakRe text)).

Definition parseOutline (text : jstring) : list OutlineSection :=
  close_current (fold_left outline_step (outline_lines text) outline_init).

(** *** extractKeyPoints *)

Record KeyPoints := { intro : jstring; bullets : list jstring }.

(** [/^(\s*[-*]|\s*\d+\.)\s+/] *)
Definition bulletMarkerRe : regex :=
  seq [Bol;
       Grp 1 (Alt (Seq (star sp) dash_or_star)
                  (seq [star sp; plus dg; Chr (ch ".")]));
       plus sp].

(** [lines.findIndex(pred)], with [None] for -1. *)
Fixpoint findIndex (A : Type) (pred : A -> bool) (l : list A) : option nat :=
  match l with
  | [] => None
  | a :: tl => if pred a then Some 0 else option_map S (findIndex pred tl)
  end.

(** The bullets pushed so far and the lines of the bullet being read. *)
Definition flush (buf : list jstring) (out : list jstring) : list jstring :=
  match buf with
  | [] => out
  | _ => out ++ [trim (join (str " ") buf)]
  end.

Definition keypoints_step (st : list jstring * list jstring) (l : jstring)
    : list jstring * list jstring :=
  let '(out, buf) := st in
  if test no_flags bulletMarkerRe l then
    (flush buf out, [trim (replace no_flags bulletMarkerRe [] l)])
  else if truthy (trim l) then (out, buf ++ [trim l])
  else (out, buf).

Definition extractKeyPoints (text : jstring) : KeyPoints :=
  let lines := split no_flags lineBreakRe text in
  let firstBulletIdx := findIndex (test no_flags bulletMarkerRe) lines in
  let intro :=
    match firstBulletIdx with
    | Some (S i) => trim (join [NL] (firstn (S i) lines))
    | _ => []
    end in
  let bulletLines :=
    match firstBulletIdx with
    | Some i => skipn i lines
    | None => lines
    end in
  let '(out, buf) := fold_left keypoints_step bulletLines ([], []) in
  {| intro := intro; bullets := flush buf out |}.

(** *** formatContent, case 'flashcards' *)

Record Flashcard := { question : jstring; answer : jstring }.

Definition paren_or_dot := Cls false [CChar (ch ")"); CChar (ch ".")].   (* [\).] *)

(** The three literals of [patterns], all with the flags gi:
    [/(Question:)([\s\S]*?)(?:\n|\s)+?(Answer:)([\s\S]*?)(?=\n\s*\n|\n\s*Question:|\n\s*Q:|$)/gi]
    [/(Q:)([\s\S]*?)(?:\n|\s)+?(A:)([\s\S]*?)(?=\n\s*\n|\n\s*Q:|\n\s*Question:|$)/gi]
    [/(?:^|\n)\s*\d+[\).]?\s+([\s\S]*?)(?:\s+)(Answer:|A:)\s*([\s\S]*?)(?=\n\s*\n|\n\s*\d+[\).]?|$)/gi] *)
Definition patterns : list regex := [
  seq [Grp 1 (lit "Question:"); Grp 2 (star_lazy any); plus_lazy (Alt nl sp);
       Grp 3 (lit "Answer:"); Grp 4 (star_lazy any);
       Look (alt [seq [nl; star sp; nl]; seq [nl; star sp; lit "Question:"];
                  seq [nl; star sp; lit "Q:"]; Eol])];
  seq [Grp 1 (lit "Q:"); Grp 2 (star_lazy any); plus_lazy (Alt nl sp);
       Grp 3 (lit "A:"); Grp 4 (star_lazy any);
       Look (alt [seq [nl; star sp; nl]; seq [nl; star sp; lit "Q:"];
                  seq [nl; star sp; lit "Question:"]; Eol])];
  seq [Alt Bol nl; star sp; plus dg; opt paren_or_dot; plus sp;
       Grp 1 (star_lazy any); plus sp; Grp 2 (Alt (lit "Answer:") (lit "A:"));
       star sp; Grp 3 (star_lazy any);
       Look (alt [seq [nl; star sp; nl]; seq [nl; star sp; plus dg; opt paren_or_dot];
                  Eol])]
].

(** [/^[\s\-*]+/] *)
Definition leadMarksRe : regex :=
  seq [Bol; plus (Cls false [CSpace; CChar (ch "-"); CChar (ch "*")])].

(** [/\b(Answer:|A:)\b[\s\S]*$/i] *)
Definition answerTailRe : regex :=
  seq [WordB; Grp 1 (Alt (lit "Answer:") (lit "A:")); WordB; star any; Eol].

(** [/^\d+[\).]?\s*/] *)
Definition leadNumberRe : regex := seq [Bol; plus dg; opt paren_or_dot; star sp].

(** [/^\s*-\s*/] *)
Definition leadDashRe : regex := seq [Bol; star sp; Chr (ch "-"); star sp].

(** [/\n\s*\n/] *)
Definition blankLineRe : regex := seq [nl; star sp; nl].

(** [/(?:^|\n)\s*(?:\d+[\).]?\s* )?(?:Question:|Q:)\s*([\s\S]*?)\s*(?:Answer:|A:)\s*([\s\S]* )/i] *)
Definition inlineQARe : regex :=
  seq [Alt Bol nl; star sp; opt (seq [plus dg; opt paren_or_dot; star sp]);
       Alt (lit "Question:") (lit "Q:"); star sp; Grp 1 (star_lazy any); star sp;
       Alt (lit "Answer:") (lit "A:"); star sp; Grp 2 (star any)].

(** [(a || b || '')] on two captures, [None] being undefined. *)
Definition or_capture (a b : option jstring) : jstring :=
  match a with
  | Some (c :: s) => c :: s
  | _ => match b with Some s => s | None => [] end
  end.

Definition clean_question (qRaw : jstring) : jstring :=
  trim (replace no_flags leadNumberRe []
         (replace flag_i answerTailRe []
           (replace no_flags leadMarksRe [] qRaw))).

Definition clean_answer (aRaw : jstring) : jstring :=
  trim (replace no_flags leadDashRe [] aRaw).

(** The acceptance test of the pattern loop. *)
Definition accepted (q a : jstring) : bool :=
  truthy q && truthy a && (2 <? length q) && (1 <? length a).

(** The body of the [while] loop: the card pushed for one match, if any.
    The [consumed] array the source also fills is never read. *)
Definition candidate (mt : rmatch) : list Flashcard :=
  let qRaw := or_capture (group 2 mt) (group 1 mt) in
  let aRaw := or_capture (group 4 mt) (group 3 mt) in
  let q := clean_question qRaw in
  let a := clean_answer aRaw in
  if accepted q a then [{| question := q; answer := a |}] else [].

(** [for (const rx of patterns) while ((m = rx.exec(cleanedContent))) ...]:
    [None] when one of the loops never ends. *)
Fixpoint pattern_cards (ps : list regex) (cleaned : jstring) : option (list Flashcard) :=
  match ps with
  | [] => Some []
  | rx :: tl =>
      match exec_all flag_i rx cleaned with
      | None => None
      | Some ms =>
          option_map (app (flat_map candidate ms)) (pattern_cards tl cleaned)
      end
  end.

(** The body of the fallback loop over the blank-line separated blocks. *)
Definition fallback_card (section : jstring) : list Flashcard :=
  match exec flag_i inlineQARe section with
  | Some inlineQA =>
      let q := trim (replace flag_i answerTailRe [] (a_string (group 1 inlineQA))) in
      let a := trim (a_string (group 2 inlineQA)) in
      if truthy q && truthy a then [{| question := q; answer := a |}] else []
  | None => []
  end.

Definition fallback_cards (cleaned : jstring) : list Flashcard :=
  flat_map fallback_card (split no_flags blankLineRe cleaned).

(** The flashcards built from the cleaned text. *)
Definition extractFlashcards (cleaned : jstring) : option (list Flashcard) :=
  match pattern_cards patterns cleaned with
  | None => None
  | Some [] => Some (fallback_cards cleaned)
  | Some cards => Some cards
  end.

(** The cards [formatContent(content, 'flashcards')] renders, in order. *)
Definition formatFlashcards (content : jstring) : option (list Flashcard) :=
  extractFlashcards (cleanContent content Flashcards).

(** *** handleFileUpload *)

Record File := { f_name : jstring; f_type : jstring; f_size : Z }.

Definition allowedTypes : list jstring :=
  [str "application/pdf"; str "image/png"; str "text/markdown"; str "text/plain"].

Definition allowedExtensions : list jstring :=
  [str ".pdf"; str ".png"; str ".md"; str ".txt"].

(** [list.includes(s)]. *)
Definition includes (l : list jstring) (s : jstring) : bool := existsb (jeqb s) l.

(** [s.lastIndexOf(c)]: the last index of [c], or -1. *)
Fixpoint lastIndexOf_from (c : char) (s : jstring) (i : nat) (found : Z) : Z :=
  match s with
  | [] => found
  | d :: tl => lastIndexOf_from c tl (S i) (if (d =? c)%N then Z.of_nat i else found)
  end.

Definition lastIndexOf (c : char) (s : jstring) : Z := lastIndexOf_from c s 0 (-1)%Z.

(** [s.substring(start)]: a negative start counts as 0. *)
Definition substring (start : Z) (s : jstring) : jstring :=
  skipn (Z.to_nat (Z.max 0 start)) s.

Inductive upload_outcome : Type :=
| InvalidFileType     (* toast "Invalid file type", nothing selected *)
| FileTooLarge        (* toast "File too large", nothing selected *)
| FileSelected.       (* setSelectedFile(file) *)

Section WithToLowerCase.

(** [String.prototype.toLowerCase], which follows the Unicode case tables
    of the platform, is left open. *)
Variable toLowerCase : jstring -> jstring.

Definition fileExtension (name : jstring) : jstring :=
  substring (lastIndexOf (ch ".") name) (toLowerCase name).

Definition handleFileUpload (file : File) : upload_outcome :=
  if negb (includes allowedTypes (f_type file))
     && negb (includes allowedExtensions (fileExtension (f_name file)))
  then InvalidFileType
  else if (50 * 1024 * 1024 <? f_size file)%Z then FileTooLarge
  else FileSelected.

End WithToLowerCase.

End Index.

(* ------------------------------------------------------------------ *)
(** ** The server route: upload filter, truncation, model fallback *)

Module Server.

Import Index.

(** *** multer's fileFilter *)

Record UploadedFile := { originalname : jstring; mimetype : jstring }.

Inductive filter_outcome : Type :=
| Accept      (* cb(null, true) *)
| Reject.     (* cb(new Error('Invalid file type. ...')) *)

Section WithToLowerCase.

Variable toLowerCase : jstring -> jstring.

Definition fileFilter (file : UploadedFile) : filter_outcome :=
  if includes allowedTypes (mimetype file)
     || includes allowedExtensions (fileExtension toLowerCase (originalname file))
  then Accept else Reject.

End WithToLowerCase.

(** *** getPromptForType and the truncation before it *)

Definition lines (l : list string) : jstring := join [NL] (map str l).

Definition basePrompt (type content : jstring) : jstring :=
  str "Based on the following content, generate a well-structured " ++ type
  ++ str ":" ++ [NL; NL] ++ str "Content:" ++ [NL] ++ content ++ [NL; NL].

Definition promptTail (type : jstring) : jstring :=
  if jeqb type (str "summary") then
    str "Please provide a comprehensive but concise summary that captures the main ideas, key concepts, and important details. The summary should be well-organized and easy to understand."
  else if jeqb type (str "points") then
    str "Please create a bullet-point list of the most important key ideas and concepts. Each point should be clear, concise, and capture essential information. Format each point on a new line starting with a bullet or dash."
  else if jeqb type (str "flashcards") then
    lines (["Please create flashcards in a question and answer format. Each flashcard should test understanding of key concepts. Format each flashcard as:";
           "";
           "Question: [Question here]";
           "Answer: [Answer here]";
           "";
           "Separate each flashcard with a blank line. Create 10-15 flashcards covering the most important topics."]%string)
  else if jeqb type (str "quiz") then
    lines (["Please create a comprehensive quiz with multiple-choice and short-answer questions. Include:";
           "";
           "1. Multiple choice questions (with 4 options each, indicate correct answer)";
           "2. Short answer questions";
           "3. True/False questions";
           "";
           "Make sure to cover all major topics and concepts. Format questions clearly and provide variety in question types."]%string)
  else if jeqb type (str "outline") then
    lines (["Please create a detailed hierarchical outline that organizes the content into logical sections and subsections. Use proper formatting with:";
           "";
           "I. Major topics";
           "   A. Subtopics";
           "      1. Key points";
           "         a. Supporting details";
           "";
           "The outline should capture the structure and flow of the material comprehensively."]%string)
  else
    str "Please organize and present this information in a clear, educational format.".

Definition getPromptForType (type content : jstring) : jstring :=
  basePrompt type content ++ promptTail type.

Definition maxLength : nat := 12000.

Definition truncationMarker : jstring :=
  [NL; NL] ++ str "[Content truncated due to length...]".

(** [if (content.length > maxLength) content = content.substring(0, maxLength) + marker]. *)
Definition truncate (content : jstring) : jstring :=
  if maxLength <? length content
  then substring0 maxLength content ++ truncationMarker
  else content.

(** The user message sent upstream for a parsed file. *)
Definition upstreamPrompt (type content : jstring) : jstring :=
  getPromptForType type (truncate content).

(** *** The model fallback loop *)

(** What a failed call throws: [status] and [code] may be absent. *)
Record ApiError := {
  status : option Z;
  code : option jstring;
  message : jstring
}.

Inductive attempt (C : Type) : Type :=
| Completed (completion : C)
| Failed (modelError : ApiError).
Arguments Completed {C} _.
Arguments Failed {C} _.

Definition models : list jstring :=
  [str "gpt-4.1-nano-2025-04-14"; str "gpt-4o-mini"; str "gpt-3.5-turbo"; str "gpt-4o"].

(** The test that lets the loop go on:
    not [(status !== 403 && code !== 'model_not_found')]. *)
Definition access_error (e : ApiError) : bool :=
  match status e with Some s => (s =? 403)%Z | None => false end
  || match code e with Some c => jeqb c (str "model_not_found") | None => false end.

Definition allModelsFailed : ApiError :=
  {| status := None; code := None; message := str "All models failed" |}.

(** How the loop and the check after it end, and the models called. *)
Inductive loop_end (C : Type) : Type :=
| Success (completion : C)
| Thrown (error : ApiError).
Arguments Success {C} _.
Arguments Thrown {C} _.

Record loop_result (C : Type) := {
  tried : list jstring;
  ending : loop_end C
}.

Section Loop.

Variable C : Type.

(** [openai.chat.completions.create] for each model name. *)
Variable create : jstring -> attempt C.

Fixpoint try_models (ms : list jstring) (lastError : option ApiError)
    : loop_result C :=
  match ms with
  | [] =>
      (* the loop is over and [completion] is still unset *)
      {| tried := [];
         ending := Thrown (match lastError with Some e => e | None => allModelsFailed end) |}
  | model :: tl =>
      match create model with
      | Completed c => {| tried := [model]; ending := Success c |}
      | Failed e =>
          if negb (access_error e)
          then {| tried := [model]; ending := Thrown e |}
          else let r := try_models tl (Some e) in
               {| tried := model :: tried r; ending := ending r |}
      end
  end.

Definition generate : loop_result C := try_models models None.

End Loop.

End Server.


(* ------------------------------------------------------------------ *)
(** ** client/pages/Index.tsx: highlighting, exports, failure toasts *)

Module IndexMore.

Import Index.

(** *** emphasizeKeywords *)

(** [/(aws|ec2|s3|lambda|cloudfront|rds|dynamodb|aurora|vpc|subnet|route|elb|alb|nlb|kms|iam|waf|shield|cost|optimi[sz]ation|security)/gi] *)
Definition keywordRe : regex :=
  Grp 1 (alt [lit "aws"; lit "ec2"; lit "s3"; lit "lambda"; lit "cloudfront";
              lit "rds"; lit "dynamodb"; lit "aurora"; lit "vpc"; lit "subnet";
              lit "route"; lit "elb"; lit "alb"; lit "nlb"; lit "kms"; lit "iam";
              lit "waf"; lit "shield"; lit "cost";
              seq [lit "optimi"; Cls false [CChar (ch "s"); CChar (ch "z")];
                   lit "ation"];
              lit "security"]).

Definition keywordPatterns : list regex := [keywordRe].

(** An element of [parts]: a string, or the span put around a match. *)
Inductive part : Type :=
| Plain (s : jstring)
| Span (s : jstring).

(** [p.slice(a, b)] for [0 <= a <= b]. *)
Definition slice (a b : nat) (p : jstring) : jstring := firstn (b - a) (skipn a p).

(** The pushes of the [while ((m = rx.exec(p)))] loop and of the line after
    it, for the matches [ms] still to come; [last] is the loop variable. *)
Fixpoint emphasize_matches (p : jstring) (last : nat) (ms : list rmatch) : list part :=
  match ms with
  | [] => if last <? length p then [Plain (slice_from last p)] else []
  | mt :: tl =>
      (if last <? m_index mt then [Plain (slice last (m_index mt) p)] else [])
      ++ Span (m_text mt)
         :: emphasize_matches p (m_index mt + length (m_text mt)) tl
  end.

(** The body of [parts.forEach]: a span goes through, a string is cut at the
    matches.  [None] when the loop over the matches never ends. *)
Definition emphasize_part (rx : regex) (p : part) : option (list part) :=
  match p with
  | Span _ => Some [p]
  | Plain s => option_map (emphasize_matches s 0) (exec_all flag_i rx s)
  end.

Fixpoint emphasize_parts (rx : regex) (parts : list part) : option (list part) :=
  match parts with
  | [] => Some []
  | p :: tl =>
      match emphasize_part rx p, emphasize_parts rx tl with
      | Some a, Some b => Some (a ++ b)
      | _, _ => None
      end
  end.

Fixpoint emphasize_patterns (rxs : list regex) (parts : list part)
    : option (list part) :=
  match rxs with
  | [] => Some parts
  | rx :: tl =>
      match emphasize_parts rx parts with
      | Some next => emphasize_patterns tl next
      | None => None
      end
  end.

Definition emphasizeKeywords (text : jstring) : option (list part) :=
  emphasize_patterns keywordPatterns [Plain text].

(** *** File names of the downloads *)

(** [/\.[^.]+$/] *)
Definition extensionRe : regex :=
  seq [Chr (ch "."); plus (Cls true [CChar (ch ".")]); Eol].

(** [generatedContent.filename.replace(/\.[^.]+$/, '')]. *)
Definition baseName (filename : jstring) : jstring :=
  replace no_flags extensionRe [] filename.

Definition type_name (t : StudyGuideType) : jstring :=
  match t with
  | Summary => str "summary"
  | Points => str "points"
  | Flashcards => str "flashcards"
  | Quiz => str "quiz"
  | Outline => str "outline"
  end.

(** [`${base}-${generatedContent.type}.md`] and its siblings; [ext] is
    [".md"], [".txt"] or [".docx"]. *)
Definition downloadName (filename : jstring) (t : StudyGuideType) (ext : jstring)
    : jstring :=
  baseName filename ++ str "-" ++ type_name t ++ ext.

(** *** exportDocx *)

Inductive HeadingLevel : Type := TITLE | HEADING_1 | HEADING_2.

Record Paragraph := { p_text : jstring; p_heading : option HeadingLevel }.

(** [/^##\s+/] and [/^###\s+/]; [/^#\s+/] is [headingRe]. *)
Definition heading2Re : regex := seq [Bol; lit "##"; plus sp].
Definition heading3Re : regex := seq [Bol; lit "###"; plus sp].

(** [/^[-*]\s+/] *)
Definition bulletPrefixRe : regex := seq [Bol; dash_or_star; plus sp].

(** [/^\d+\.\s+/] *)
Definition numberPrefixRe : regex := seq [Bol; plus dg; Chr (ch "."); plus sp].

(** The paragraph made of one line. *)
Definition docxParagraph (line : jstring) : Paragraph :=
  if test no_flags headingRe line then
    {| p_text := replace no_flags headingRe [] line; p_heading := Some TITLE |}
  else if test no_flags heading2Re line then
    {| p_text := replace no_flags heading2Re [] line; p_heading := Some HEADING_1 |}
  else if test no_flags heading3Re line then
    {| p_text := replace no_flags heading3Re [] line; p_heading := Some HEADING_2 |}
  else
    {| p_text := replace no_flags numberPrefixRe []
                   (replace no_flags bulletPrefixRe [] line);
       p_heading := None |}.

(** The children of the document's only section. *)
Definition docxParagraphs (md : jstring) : list Paragraph :=
  map docxParagraph (split no_flags lineBreakRe md).

(** *** exportPDF *)

(** [s.replace(/&/g, '&amp;').replace(/</g, '&lt;').replace(/>/g, '&gt;')]. *)
Definition escapeHtml (s : jstring) : jstring :=
  replace_all no_flags (Chr (ch ">")) (str "&gt;")
    (replace_all no_flags (Chr (ch "<")) (str "&lt;")
      (replace_all no_flags (Chr (ch "&")) (str "&amp;") s)).

(** *** The catch block of generateStudyGuide *)

(** [hay.includes(needle)]. *)
Fixpoint starts_with (needle hay : jstring) : bool :=
  match needle, hay with
  | [], _ => true
  | a :: n', d :: h' => (a =? d)%N && starts_with n' h'
  | _ :: _, [] => false
  end.

Fixpoint includes_sub (needle hay : jstring) : bool :=
  starts_with needle hay
  || match hay with [] => false | _ :: tl => includes_sub needle tl end.

Record Toast := { toast_title : jstring; toast_description : jstring }.

(** The destructive toast shown for a caught error with the given message
    (empty when the error has none). *)
Definition failureToast (message : jstring) : Toast :=
  if truthy message && includes_sub (str "API key does not have access") message then
    {| toast_title := str "API Key Access Issue";
       toast_description := str "Your OpenAI API key doesn't have access to the required models. Please check your OpenAI plan and API key permissions." |}
  else if truthy message && includes_sub (str "Invalid OpenAI API key") message then
    {| toast_title := str "Invalid API Key";
       toast_description := str "Please check your OpenAI API key and try again." |}
  else if truthy message && includes_sub (str "rate limit") message then
    {| toast_title := str "Rate Limit Exceeded";
       toast_description := str "OpenAI API rate limit exceeded. Please try again in a few minutes." |}
  else
    {| toast_title := str "Generation failed";
       toast_description :=
         if truthy message then message
         else str "There was an error generating your study guide. Please try again." |}.

End IndexMore.

(* ------------------------------------------------------------------ *)
(** ** The server route: parsing dispatch and the request handler *)

Module ServerMore.

Import Index Server.

(** What the handler answers: [res.status(status).json({ error })], or the
    200 answer with the generated content.  The [details] field of the last
    500 answer, sent by development builds only, and [usage] are left out. *)
Inductive ResponseBody : Type :=
| ErrorBody (error : jstring)
| ContentBody (content type filename : jstring).

Record Response := { res_status : Z; res_body : ResponseBody }.

Definition error_response (status : Z) (error : jstring) : Response :=
  {| res_status := status; res_body := ErrorBody error |}.

(** The fields multer and the form give the handler; an absent field is
    [None]. *)
Record Request := {
  req_file : option UploadedFile;
  req_type : option jstring;
  req_apiKey : option jstring
}.

(** Truthiness of a field that may be absent. *)
Definition present (o : option jstring) : bool :=
  match o with Some s => truthy s | None => false end.

(** The catch block of the handler. *)
Definition catch_response (e : ApiError) : Response :=
  let status_is (n : Z) :=
    match status e with Some s => (s =? n)%Z | None => false end in
  if status_is 401%Z then
    error_response 401 (str "Invalid OpenAI API key. Please check your API key and try again.")
  else if access_error e then
    error_response 403 (str "Your OpenAI API key does not have access to the required models. Please ensure your API key has access to GPT models or upgrade your OpenAI plan.")
  else if status_is 429%Z then
    error_response 429 (str "OpenAI API rate limit exceeded. Please try again later.")
  else if status_is 413%Z then
    error_response 413 (str "Content too large. Please try with a smaller file.")
  else if truthy (message e) && IndexMore.includes_sub (str "API key") (message e) then
    error_response 401 (str "OpenAI API key issue: " ++ message e)
  else if truthy (message e) && IndexMore.includes_sub (str "parsing") (message e) then
    error_response 400 (str "File parsing failed: " ++ message e)
  else
    error_response 500
      (if truthy (message e) then message e
       else str "An error occurred while generating the study guide. Please try again.").

(** How an awaited promise ends: fulfilled, rejected, or never settled. *)
Inductive promise_end (A : Type) : Type :=
| Fulfilled (value : A)
| Rejected (reason : ApiError)
| Pending.
Arguments Fulfilled {A} _.
Arguments Rejected {A} _.
Arguments Pending {A}.

(** A call that gives a value or throws, awaited. *)
Definition awaited (A : Type) (a : attempt A) : promise_end A :=
  match a with
  | Completed v => Fulfilled v
  | Failed e => Rejected e
  end.

(** *** The PDF branch of parseFileContent *)

(** What pdf2json hands to the dataReady listener, as far as the listener
    reads it; a field that is absent is [None]. *)
Record TextRun := { run_T : option jstring }.
Record TextElement := { el_R : option (list TextRun) }.
Record Page := { page_Texts : option (list TextElement) }.
Record PdfData := { Pages : option (list Page) }.

(** The two events of the parser. *)
Inductive pdf_event : Type :=
| DataError
| DataReady (pdfData : PdfData).

Section Pdf.

(** [decodeURIComponent], [None] when it throws URIError. *)
Variable decodeURIComponent : jstring -> option jstring.

(** [text] while the loops run; [None] once something was thrown. *)
Definition add_run (text : option jstring) (run : TextRun) : option jstring :=
  match text with
  | None => None
  | Some t =>
      match run_T run with
      | Some (c :: s) =>
          match decodeURIComponent (c :: s) with
          | Some decodedText => Some (t ++ decodedText ++ str " ")
          | None => None
          end
      | _ => Some t
      end
  end.

Definition add_element (text : option jstring) (el : TextElement) : option jstring :=
  match el_R el with
  | Some runs => fold_left add_run runs text
  | None => text
  end.

Definition add_page (text : option jstring) (page : Page) : option jstring :=
  option_map (fun t => t ++ [NL])
    (match page_Texts page with
     | Some els => fold_left add_element els text
     | None => text
     end).

Definition pdfText (pdfData : PdfData) : option jstring :=
  match Pages pdfData with
  | Some pages => fold_left add_page pages (Some [])
  | None => Some []
  end.

(** What the dataReady listener resolves with; its try block catches what
    the loops throw. *)
Definition pdfDataReady (originalname : jstring) (pdfData : PdfData) : jstring :=
  match pdfText pdfData with
  | Some text =>
      if length (trim text) =? 0 then
        str "PDF file: " ++ originalname
        ++ str " - No readable text content found. The PDF might be image-based or protected."
      else trim text
  | None =>
      str "PDF file: " ++ originalname ++ str " - Error processing content."
  end.

(** What the dataError listener resolves with when [fs.statSync] gives the
    size; [sizeKB] is the size in KB as [Math.round] and the template
    literal print it. *)
Definition pdfDataError (originalname sizeKB : jstring) : jstring :=
  str "PDF file: " ++ originalname ++ str " (" ++ sizeKB
  ++ str "KB) - Text extraction failed. Please ensure the PDF contains readable text or try converting to text format first.".

End Pdf.

Section Handler.

Variable toLowerCase : jstring -> jstring.
Variable decodeURIComponent : jstring -> option jstring.

(** The PDF branch and its surroundings.  [pdfStart]: what the import of
    pdf2json, the constructor or the call of loadPDF throw, if they do.
    [pdfReport]: the event the parser reports first, if it reports any.
    [unlinked]: whether the upload is gone once the [finally] block has run
    (unlinkSync removed it, or it was not there).  [sizeKB]: the size of
    the upload as the dataError listener prints it. *)
Variable pdfStart : UploadedFile -> option ApiError.
Variable pdfReport : UploadedFile -> option pdf_event.
Variable unlinked : UploadedFile -> bool.
Variable sizeKB : UploadedFile -> jstring.

(** [case '.pdf'].  The promise is returned, not awaited, so the [finally]
    block runs before the parser reports anything.  The dataError listener
    calls [fs.statSync] on the upload before it resolves: with the upload
    gone that call throws inside the listener, nothing is resolved, and the
    promise never settles. *)
Definition readPdf (file : UploadedFile) : promise_end jstring :=
  match pdfStart file with
  | Some e => Rejected e
  | None =>
      match pdfReport file with
      | None => Pending
      | Some DataError =>
          if unlinked file then Pending
          else Fulfilled (pdfDataError (originalname file) (sizeKB file))
      | Some (DataReady pdfData) =>
          Fulfilled (pdfDataReady decodeURIComponent (originalname file) pdfData)
      end
  end.

(** The two other ways of reading a file (tesseract.js, readFileSync), each
    of which gives a text or throws. *)
Variable readPng readText : UploadedFile -> attempt jstring.

Definition unsupportedFileType : ApiError :=
  {| status := None; code := None; message := str "Unsupported file type" |}.

(** parseFileContent: the reader is chosen on the extension of the
    original name. *)
Definition parseFileContent (file : UploadedFile) : promise_end jstring :=
  let fileExtension := fileExtension toLowerCase (originalname file) in
  if jeqb fileExtension (str ".pdf") then readPdf file
  else if jeqb fileExtension (str ".png") then awaited (readPng file)
  else if jeqb fileExtension (str ".md") || jeqb fileExtension (str ".txt")
  then awaited (readText file)
  else Rejected unsupportedFileType.

(** [process.env.VITE_OPENAI_API_KEY]. *)
Variable envApiKey : option jstring.

(** A completion and [completion.choices[0]?.message?.content]. *)
Variable C : Type.
Variable generatedContent : C -> option jstring.

(** [openai.chat.completions.create] for a key, a model and a prompt. *)
Variable create : jstring -> jstring -> jstring -> attempt C.

(** The answer of the handler, [None] when it never answers, and the
    models it called. *)
Record handled := { response : option Response; called : list jstring }.

Definition answer (r : Response) : handled := {| response := Some r; called := [] |}.

Definition handleStudyGuideGeneration (req : Request) : handled :=
  let apiKey := if present (req_apiKey req) then req_apiKey req else envApiKey in
  match req_file req with
  | None => answer (error_response 400 (str "No file uploaded"))
  | Some file =>
  if negb (present (req_type req)) then
    answer (error_response 400 (str "Study guide type not specified"))
  else if negb (present apiKey) then
    answer (error_response 400 (str "OpenAI API key not provided"))
  else
  match parseFileContent file with
  | Pending =>
      (* [await parseFileContent(file)] never returns *)
      {| response := None; called := [] |}
  | Rejected _ =>
      answer (error_response 400 (str "Failed to parse file content. Please ensure the file is valid and readable."))
  | Fulfilled content =>
  if negb (truthy content) || (length (trim content) =? 0) then
    answer (error_response 400 (str "No readable content found in the file. Please check if the file contains text."))
  else
    let type := a_string (req_type req) in
    let prompt := upstreamPrompt type content in
    let run := generate (fun model => create (a_string apiKey) model prompt) in
    match ending run with
    | Thrown e => {| response := Some (catch_response e); called := tried run |}
    | Success completion =>
        match generatedContent completion with
        | Some (c :: g) =>
            {| response :=
                 Some {| res_status := 200;
                         res_body := ContentBody (c :: g) type (originalname file) |};
               called := tried run |}
        | _ =>
            {| response := Some (error_response 500 (str "Failed to generate study guide content"));
               called := tried run |}
        end
    end
  end
  end.

End Handler.

(** *** The browser's reading of the answer *)

(** What generateStudyGuide does with an answer: the content it stores, or
    the message of the error it throws and shows.  [statusLine] is the text
    [`HTTP ${response.status}: ${response.statusText}`]. *)
Inductive client_outcome : Type :=
| Stored (content : jstring)
| Shown (toast : IndexMore.Toast).

Definition clientOutcome (statusLine : jstring) (r : Response) : client_outcome :=
  if ((200 <=? res_status r) && (res_status r <=? 299))%Z then
    match res_body r with
    | ContentBody (c :: g) _ _ => Stored (c :: g)
    | _ => Shown (IndexMore.failureToast (str "No content received from server"))
    end
  else
    let errorMessage :=
      match res_body r with
      | ErrorBody (c :: e) => c :: e
      | _ => statusLine
      end in
    Shown (IndexMore.failureToast errorMessage).

End ServerMore.

(* ------------------------------------------------------------------ *)
(** ** Definitions used to state the properties *)

Module Spec.

Import Index Server.

(** A lower bound on the number of characters a pattern consumes. *)
Fixpoint min_len (r : regex) : nat :=
  match r with
  | Chr _ | Dot | Cls _ _ => 1
  | Seq r1 r2 => min_len r1 + min_len r2
  | Alt r1 r2 => Nat.min (min_len r1) (min_len r2)
  | Rep r1 lo None _ => lo * min_len r1
  | Rep _ _ (Some _) _ => 0
  | Grp _ r1 => min_len r1
  | _ => 0
  end.

(** State [y] lies at least [n] characters after state [x] in the same
    input. *)
Definition reaches (x : mstate) (n : nat) (y : mstate) : Prop :=
  pos x + n <= pos y
  /\ pos y + length (rest y) = pos x + length (rest x)
  /\ exists pre, rest x = pre ++ rest y.

(** A matcher answers only through its continuation, after moving at least
    [n] characters forward in the same input. *)
Definition forward (mr : mstate -> cont -> option mstate) (n : nat) : Prop :=
  forall x k z, mr x k = Some z -> exists y, k y = Some z /\ reaches x n y.

(** A matcher that reads one character satisfying [P]. *)
Definition char_matcher (P : char -> bool)
    (mr : mstate -> cont -> option mstate) : Prop :=
  forall x k, mr x k = match rest x with
                       | d :: tl => if P d then k (advance x d tl) else None
                       | [] => None
                       end.

(** A greedy star over one character class, read directly: go as far as
    [P] holds, then try the continuation from the far end backwards. *)
Fixpoint greedy_chars (P : char -> bool) (k : cont) (p : option char)
    (s : jstring) (i : nat) (cs : list (nat * jstring)) : option mstate :=
  let here := {| prev := p; rest := s; pos := i; caps := cs |} in
  match s with
  | d :: tl =>
      if P d then or_else (greedy_chars P k (Some d) tl (S i) cs) (fun _ => k here)
      else k here
  | [] => k here
  end.

(** The length of the longest prefix whose characters all satisfy [P]. *)
Fixpoint span (P : char -> bool) (s : jstring) : nat :=
  match s with
  | d :: tl => if P d then S (span P tl) else 0
  | [] => 0
  end.

(** What [.] accepts. *)
Definition not_lt (d : char) : bool := negb (is_line_terminator d).

(** The end of the letter and numbered patterns, [\s+(.* )], with the rest
    of the line in group [g]. *)
Definition rest_of_line (g : nat) : regex := Seq (plus sp) (Grp g (star Dot)).

(** A matcher whose answer depends on its continuation only through the
    continuation's values. *)
Definition respects_ext (mr : mstate -> cont -> option mstate) : Prop :=
  forall x k k', (forall y, k y = k' y) -> mr x k = mr x k'.

(** The number of newlines a text starts with. *)
Fixpoint lead (s : jstring) : nat :=
  match s with
  | c :: tl => if (c =? NL)%N then S (lead tl) else 0
  | [] => 0
  end.

(** Three newlines in a row somewhere in the text. *)
Fixpoint has_run3 (s : jstring) : bool :=
  match s with
  | [] => false
  | _ :: tl => (3 <=? lead s) || has_run3 tl
  end.

(** Every run of three or more newlines cut down to two, read directly;
    [skip] newlines of the current run are still to be dropped. *)
Fixpoint collapse_go (skip : nat) (s : jstring) : jstring :=
  match s with
  | [] => []
  | c :: tl =>
      match skip with
      | S sk => collapse_go sk tl
      | 0 => if 3 <=? lead s then NL :: NL :: collapse_go (lead s - 1) tl
             else c :: collapse_go 0 tl
      end
  end.

(** [l] starts [s], up to the case of ASCII letters. *)
Fixpoint iprefix (l s : jstring) : bool :=
  match l, s with
  | [], _ => true
  | a :: l', d :: s' => char_eq flag_i a d && iprefix l' s'
  | _ :: _, [] => false
  end.

(** The phrases of the closing-remark pattern. *)
Definition closing_phrases : list jstring :=
  [str "I hope this helps"; str "Let me know if you need";
   str "Would you like me"; str "Feel free to ask"].

(** A closing phrase starts the text. *)
Definition phrase_here (s : jstring) : bool :=
  existsb (fun ph => iprefix ph s) closing_phrases.

(** A closing phrase occurs in the text. *)
Fixpoint has_phrase (s : jstring) : bool :=
  phrase_here s || match s with [] => false | _ :: tl => has_phrase tl end.

(** The closing-remark pattern after its leading white space. *)
Definition closing_tail : regex :=
  Seq (alt [lit "I hope this helps"; lit "Let me know if you need";
            lit "Would you like me"; lit "Feel free to ask"])
      (Seq (star any) Eol).

(** A text none of whose characters is a newline, even up to case. *)
Definition newline_free (l : jstring) : Prop :=
  Forall (fun a => char_eq flag_i a NL = false) l.

(** None of the preamble patterns matches. *)
Definition no_preamble (s : jstring) : Prop :=
  forall rx, In rx preamblePatterns -> test flag_i rx s = false.

(** A card with a question and an answer. *)
Definition well_formed (c : Flashcard) : Prop :=
  question c <> [] /\ answer c <> [].

(** A card that passes the length test of the pattern loop. *)
Definition long_enough (c : Flashcard) : Prop :=
  2 < length (question c) /\ 1 < length (answer c).

(** A line that starts with one capital letter and a dot. *)
Definition letter_dot_prefix (line : jstring) : bool :=
  match line with
  | c :: d :: _ => in_range (ch "A") (ch "Z") c && (d =? ch ".")%N
  | _ => false
  end.

(** The step from [st] to [st'] opens a subtopic called [title] at the end
    of the open section, or of a new section if none was open, and closes
    no section. *)
Definition starts_subtopic (st : outline_state) (title : jstring)
    (st' : outline_state) : Prop :=
  sections st' = sections st
  /\ exists cur before,
       current st' = Some cur
       /\ os_subtopics cur = before ++ [{| op_title := title; op_points := [] |}]
       /\ currentSub st' = Some (length before)
       /\ match current st with
          | Some c => os_title cur = os_title c /\ before = os_subtopics c
          | None => before = []
          end.

(** The step from [st] to [st'] starts a section called [title]. *)
Definition starts_section (st : outline_state) (title : jstring)
    (st' : outline_state) : Prop :=
  sections st' = close_current st
  /\ current st' = Some {| os_title := title; os_subtopics := [] |}
  /\ currentSub st' = None.

(** A lower-casing that is right on ASCII names, to run the filters. *)
Definition ascii_toLowerCase (s : jstring) : jstring := map lower s.

(** The text before the file's content in every prompt. *)
Definition promptHead (type : jstring) : jstring :=
  str "Based on the following content, generate a well-structured " ++ type
  ++ str ":" ++ [NL; NL] ++ str "Content:" ++ [NL].

(** A model whose call failed with an access error. *)
Definition access_failure (C : Type) (create : jstring -> attempt C)
    (model : jstring) : Prop :=
  exists e, create model = Failed e /\ access_error e = true.

(** A text given line by line. *)
Definition text_lines (l : list string) : jstring := join [NL] (map str l).

(** Two preamble lines before the text. *)
Definition two_preambles : jstring :=
  text_lines ["Here is a"; "Here is b"; "foo"]%string.

(** A bullet right after a word character, then a question. *)
Definition bullet_after_word : jstring := str "a* b Q: x".

(** A question of two characters. *)
Definition short_question : jstring := str "Q: ab A: cd".

(** A line that starts with a roman numeral, and a lettered line without
    white space after the dot. *)
Definition roman_line : jstring := str "I. Intro".
Definition tight_line : jstring := str "A.Background".

End Spec.
Import Spec.
(* ------------------------------------------------------------------ *)
(** ** Definitions used to state the further properties *)

Unset Implicit Arguments.

Module SpecMore.

Import Server ServerMore Index IndexMore.

(** [s] is [t] with some characters deleted. *)
Inductive subseq : jstring -> jstring -> Prop :=
| sub_nil : subseq [] []
| sub_skip c s t : subseq s t -> subseq s (c :: t)
| sub_keep c s t : subseq s t -> subseq (c :: s) (c :: t).

(** What the loop of parseOutline does with a line. *)
Inductive line_kind : Type := SectionLine | LetterLine | PointLine | OtherLine.

Definition kind_of (line : jstring) : line_kind :=
  if test flag_i romanRe line || test no_flags headingRe line then SectionLine
  else match exec no_flags letterRe line with
       | Some _ => LetterLine
       | None =>
           match exec no_flags numberedRe line, exec no_flags bulletRe line with
           | None, None => OtherLine
           | _, _ => PointLine
           end
       end.

Definition is_kind (k : line_kind) (line : jstring) : bool :=
  match k, kind_of line with
  | SectionLine, SectionLine | LetterLine, LetterLine
  | PointLine, PointLine | OtherLine, OtherLine => true
  | _, _ => false
  end.

Definition count_kind (k : line_kind) (lines : list jstring) : nat :=
  length (filter (is_kind k) lines).

(** The points of all subtopics of all sections. *)
Definition points_of (sec : OutlineSection) : nat :=
  list_sum (map (fun p => length (op_points p)) (os_subtopics sec)).

Definition points_in (secs : list OutlineSection) : nat :=
  list_sum (map points_of secs).

(** [currentSub], when set, is the last subtopic of [current]; and nothing
    is closed or aliased while no section is open. *)
Definition aliased (st : outline_state) : Prop :=
  match current st with
  | Some c =>
      match currentSub st with
      | Some i => S i = length (os_subtopics c)
      | None => True
      end
  | None => currentSub st = None /\ sections st = []
  end.

(** The first line that is not ignored opens a section of its own accord. *)
Fixpoint opens_default (lines : list jstring) : nat :=
  match lines with
  | [] => 0
  | l :: tl =>
      match kind_of l with
      | SectionLine => 0
      | LetterLine | PointLine => 1
      | OtherLine => opens_default tl
      end
  end.

(** The points and the sections closed so far, the open section included. *)
Definition pts (st : outline_state) : nat := points_in (close_current st).
Definition secs (st : outline_state) : nat := length (close_current st).

(** The sections read from a list of lines. *)
Definition sections_of (lines : list jstring) : list OutlineSection :=
  close_current (fold_left outline_step lines outline_init).

(** The text of the point of a point line. *)
Definition point_text (line : jstring) : jstring :=
  let n := match exec no_flags numberedRe line with
           | Some n => Some n
           | None => exec no_flags bulletRe line
           end in
  match n with
  | Some n => if truthy (a_string (group 2 n))
              then trim (a_string (group 2 n))
              else trim (a_string (group 1 n))
  | None => []
  end.

(** [l] with its last element changed by [g]; [dflt] alone when [l] is
    empty. *)
Definition on_last {A : Type} (g : A -> A) (dflt : A) (l : list A) : list A :=
  match rev l with
  | [] => [dflt]
  | a :: r => rev r ++ [g a]
  end.

(** The subtopic opened for a point that has none to go to. *)
Definition details (p : jstring) : OutlinePoint :=
  {| op_title := str "Details"; op_points := [p] |}.

(** An outline with one more point: at the end of the last subtopic of the
    last section, every section, subtopic and point before it kept; in a
    new subtopic "Details" when the last section has no subtopic; in a new
    section "Outline" when there is no section. *)
Definition append_point (p : jstring) (secs : list OutlineSection)
    : list OutlineSection :=
  on_last (fun sec =>
             {| os_title := os_title sec;
                os_subtopics := on_last (push_point p) (details p) (os_subtopics sec) |})
          {| os_title := str "Outline"; os_subtopics := [details p] |}
          secs.

(** No subtopic is open only in a section that has none yet. *)
Definition fresh (st : outline_state) : Prop :=
  currentSub st = None ->
  match current st with
  | Some c => os_subtopics c = []
  | None => True
  end.

(** A line that starts a bullet of the key points. *)
Definition is_marker (l : jstring) : bool := test no_flags bulletMarkerRe l.

Definition markers (lines : list jstring) : nat := length (filter is_marker lines).

Definition trimmed (s : jstring) : Prop := trim s = s.

(** A character that is no ASCII letter: the i flag makes no other
    character equal to it. *)
Definition caseless (c : char) : bool :=
  negb (in_range (ch "A") (ch "Z") c || in_range (ch "a") (ch "z") c).

(** Every match of the pattern contains the character [c]. *)
Fixpoint needs (c : char) (r : regex) : bool :=
  match r with
  | Chr d => (d =? c)%N
  | Seq r1 r2 => needs c r1 || needs c r2
  | Alt r1 r2 => needs c r1 && needs c r2
  | Rep r1 (S _) None _ => needs c r1
  | Grp _ r1 => needs c r1
  | _ => false
  end.

(** A matcher that answers only through its continuation, after reading
    the character [c]. *)
Definition passes (c : char) (mr : mstate -> cont -> option mstate) : Prop :=
  forall x k z, mr x k = Some z ->
  exists y pre, k y = Some z /\ rest x = pre ++ rest y /\ In c pre.

(** A card whose question and answer are trimmed. *)
Definition trimmed_card (c : Flashcard) : Prop :=
  trimmed (question c) /\ trimmed (answer c).

(** The text a part shows. *)
Definition part_text (p : part) : jstring :=
  match p with Plain s | Span s => s end.

(** The text a list of parts shows. *)
Definition shown (parts : list part) : jstring := flat_map part_text parts.

(** The entity or the character itself, in one pass over the text. *)
Definition escape_char (d : char) : jstring :=
  if (d =? ch "&")%N then str "&amp;"
  else if (d =? ch "<")%N then str "&lt;"
  else if (d =? ch ">")%N then str "&gt;"
  else [d].

(** What [^.] accepts. *)
Definition not_dot (d : char) : bool := negb (d =? ch ".")%N.

(** The number of hashes a line starts with. *)
Definition hashes (line : jstring) : nat := span (fun c => (c =? ch "#")%N) line.

(** Whether a text starts with white space. *)
Definition next_space (s : jstring) : bool :=
  match s with d :: _ => is_space d | [] => false end.

(** The heading level of a line, read off its first characters: one, two
    or three hashes followed by white space. *)
Definition heading_of (line : jstring) : option HeadingLevel :=
  if next_space (skipn (hashes line) line) then
    match hashes line with
    | 1 => Some TITLE
    | 2 => Some HEADING_1
    | 3 => Some HEADING_2
    | _ => None
    end
  else None.

(** [/^#{n}\s+/] for the three heading patterns. *)
Definition hashRe (n : nat) : regex :=
  Seq Bol (Seq (lit_chars (repeat (ch "#") n)) (plus sp)).

(** [error.status === n]. *)
Definition status_is (e : ApiError) (n : Z) : bool :=
  match status e with Some s => (s =? n)%Z | None => false end.

(** The sentence of an error answer. *)
Definition error_of (r : Response) : jstring :=
  match res_body r with ErrorBody e => e | ContentBody _ _ _ => [] end.

(** The lower case of one code unit below U+0180, by the Unicode tables
    String.prototype.toLowerCase follows: Basic Latin, Latin-1 Supplement
    and Latin Extended-A, where the capital I with a dot above, U+0130,
    becomes the two code units of i and the combining dot above.  From
    U+0180 on the tables are not written out here, and a code unit is left
    as it is. *)
Definition lower_unit (c : char) : jstring :=
  (if in_range 65 90 c then [c + 32]
   else if in_range 192 214 c || in_range 216 222 c then [c + 32]
   else if c =? 304 then [105; 775]
   else if c =? 376 then [255]
   else if (in_range 256 303 c || in_range 306 311 c || in_range 330 375 c) && N.even c
        then [c + 1]
   else if (in_range 313 328 c || in_range 377 382 c) && N.odd c then [c + 1]
   else [c])%N.

(** [String.prototype.toLowerCase] on texts below U+0180. *)
Definition toLowerCase_latin (s : jstring) : jstring := flat_map lower_unit s.

(** The extension of a file name: the name from its last dot on, the whole
    name when it has no dot. *)
Fixpoint extension_of (name : jstring) : jstring :=
  match name with
  | [] => []
  | c :: tl =>
      if existsb (N.eqb (ch ".")) tl then extension_of tl else name
  end.

(** The capital I with a dot above. *)
Definition dotted_I : char := 304%N.

End SpecMore.
Import SpecMore.


(* ------------------------------------------------------------------ *)
(** * Properties *)

Unset Implicit Arguments.

(** ** The matcher *)

Module RegexFacts.

Lemma or_else_some a b z :
  or_else a b = Some z -> a = Some z \/ (a = None /\ b tt = Some z).
Proof. destruct a; simpl; intros H; [left | right]; auto. Qed.

Lemma rep_star_eq mr g fuel hi x k :
  rep_star mr g fuel hi x k
  = if hi_zero hi then k x else
    let d := fun y =>
      if length (rest x) <=? length (rest y) then None
      else match fuel with
           | 0 => None
           | S fuel' => rep_star mr g fuel' (hi_pred hi) y k
           end in
    if g then or_else (mr x d) (fun _ => k x)
    else or_else (k x) (fun _ => mr x d).
Proof. destruct fuel; reflexivity. Qed.

Lemma m_Seq f r1 r2 x k : m f (Seq r1 r2) x k = m f r1 x (fun y => m f r2 y k).
Proof. reflexivity. Qed.

Lemma m_Rep f r lo hi g x k : m f (Rep r lo hi g) x k = rep_min (m f r) g lo hi x k.
Proof. reflexivity. Qed.

Lemma m_Grp f i r x k :
  m f (Grp i r) x k
  = m f r x (fun y => k (set_cap i (firstn (pos y - pos x) (rest x)) y)).
Proof. reflexivity. Qed.

Lemma rep_min_0 mr g hi x k :
  rep_min mr g 0 hi x k
  = if hi_zero hi then k x else rep_star mr g (length (rest x)) hi x k.
Proof. reflexivity. Qed.

Lemma rep_min_S mr g lo hi x k :
  rep_min mr g (S lo) hi x k
  = if hi_zero hi then k x
    else mr x (fun y => rep_min mr g lo (hi_pred hi) y k).
Proof. reflexivity. Qed.

Lemma reaches_refl x : reaches x 0 x.
Proof. repeat split; [lia | now exists []]. Qed.

Lemma reaches_trans x n y n' z :
  reaches x n y -> reaches y n' z -> reaches x (n + n') z.
Proof.
  intros (P1 & L1 & pre1 & E1) (P2 & L2 & pre2 & E2). repeat split; [lia..|].
  exists (pre1 ++ pre2). now rewrite E1, E2, app_assoc.
Qed.

Lemma reaches_weaken x n n' y : n' <= n -> reaches x n y -> reaches x n' y.
Proof. intros Hn (P & L & E). repeat split; auto. lia. Qed.

Lemma reaches_advance x d tl : rest x = d :: tl -> reaches x 1 (advance x d tl).
Proof.
  intros R. unfold reaches, advance. simpl. rewrite R. simpl.
  repeat split; [lia..|]. now exists [d].
Qed.

Lemma rep_star_forward mr greedy n :
  forward mr n -> forall fuel hi, forward (rep_star mr greedy fuel hi) 0.
Proof.
  intros Hmr. induction fuel as [|fuel IH]; intros hi x k z E;
    rewrite rep_star_eq in E; destruct (hi_zero hi);
    try (exists x; split; [exact E | apply reaches_refl]); cbv zeta in E.
  - destruct greedy; apply or_else_some in E as [E|[_ E]];
      try (exists x; split; [exact E | apply reaches_refl]);
      apply Hmr in E as (y & E & _); destruct (_ <=? _); discriminate.
  - assert (Hd : forall z,
        mr x (fun y => if length (rest x) <=? length (rest y) then None
                       else rep_star mr greedy fuel (hi_pred hi) y k) = Some z ->
        exists y, k y = Some z /\ reaches x 0 y).
    { intros z' E'. apply Hmr in E' as (y1 & E' & R1).
      destruct (_ <=? _); [discriminate|].
      apply IH in E' as (y & E' & R). exists y. split; [exact E'|].
      apply (reaches_weaken x (n + 0)); [lia|]. now apply (reaches_trans x n y1). }
    destruct greedy; apply or_else_some in E as [E|[_ E]]; auto;
      exists x; split; auto; apply reaches_refl.
Qed.

Lemma rep_min_forward mr greedy n :
  forward mr n -> forall lo hi,
  forward (rep_min mr greedy lo hi)
          (match hi with None => lo * n | Some _ => 0 end).
Proof.
  intros Hmr. induction lo as [|lo IH]; intros hi x k z E.
  - rewrite rep_min_0 in E. destruct (hi_zero hi).
    + exists x. split; [exact E|]. destruct hi; apply reaches_refl.
    + apply (rep_star_forward mr greedy n Hmr) in E as (y & E & R).
      exists y. split; [exact E|]. now destruct hi.
  - rewrite rep_min_S in E. destruct (hi_zero hi) eqn:Hz.
    + exists x. split; [exact E|]. destruct hi; [apply reaches_refl | discriminate Hz].
    + apply Hmr in E as (y1 & E & R1).
      apply IH in E as (y & E & R). exists y. split; [exact E|].
      destruct hi; simpl in R.
      * apply (reaches_weaken x (n + 0)); [lia|]. now apply (reaches_trans x n y1).
      * now apply (reaches_trans x n y1).
Qed.

Lemma m_forward f r : forward (m f r) (min_len r).
Proof.
  induction r; intros x k z E; simpl in E.
  - exists x. split; [exact E | apply reaches_refl].
  - destruct (rest x) as [|d tl] eqn:R; [discriminate|].
    destruct (char_eq f c d); [|discriminate].
    eexists; split; [exact E|]. now apply reaches_advance.
  - destruct (rest x) as [|d tl] eqn:R; [discriminate|].
    destruct (is_line_terminator d); [discriminate|].
    eexists; split; [exact E|]. now apply reaches_advance.
  - destruct (rest x) as [|d tl] eqn:R; [discriminate|].
    destruct (cls_match f neg items d); [|discriminate].
    eexists; split; [exact E|]. now apply reaches_advance.
  - apply IHr1 in E as (y1 & E & R1). apply IHr2 in E as (y & E & R2).
    exists y. split; [exact E|]. now apply (reaches_trans x _ y1).
  - apply or_else_some in E as [E|[_ E]];
      [apply IHr1 in E as (y & E & R) | apply IHr2 in E as (y & E & R)];
      exists y; (split; [exact E|]);
      (eapply reaches_weaken; [|exact R]); simpl; lia.
  - apply (rep_min_forward _ greedy _ IHr) in E as (y & E & R).
    exists y. split; [exact E|]. simpl. destruct hi; exact R.
  - apply IHr in E as (y & E & R). eexists; split; [exact E|].
    destruct R as (P & L & pre & Er). repeat split; simpl; auto. now exists pre.
  - destruct (m f r x Some) as [y|] eqn:Hl; [|discriminate].
    eexists; split; [exact E|]. repeat split; simpl; [lia|now exists []].
  - destruct (at_bol f x); [|discriminate].
    exists x. split; [exact E | apply reaches_refl].
  - destruct (at_eol f x); [|discriminate].
    exists x. split; [exact E | apply reaches_refl].
  - destruct (xorb _ _); [|discriminate].
    exists x. split; [exact E | apply reaches_refl].
Qed.

Lemma match_at_forward f r p s i mt :
  match_at f r p s i = Some mt ->
  i + min_len r <= m_end mt /\ m_end mt <= i + length s.
Proof.
  unfold match_at. destruct (m f r _ Some) as [y|] eqn:E; [|discriminate].
  intros H. injection H as <-. simpl.
  apply m_forward in E as (y' & E & P & L & _). injection E as ->. simpl in *. lia.
Qed.

Lemma exec_loop_total f r :
  1 <= min_len r ->
  forall s skip p i, exists ms, exec_loop f r skip p s i = Some ms.
Proof.
  intros Hr. induction s as [|c tl IH]; intros [|sk] p i; simpl.
  - destruct (match_at f r p [] i) as [mt|] eqn:E; [|eauto].
    apply match_at_forward in E. simpl in E. lia.
  - eauto.
  - destruct (match_at f r p (c :: tl) i) as [mt|] eqn:E; [|apply IH].
    apply match_at_forward in E.
    destruct (m_end mt - i) as [|n] eqn:D; [lia|].
    destruct (IH n (Some c) (S i)) as (ms & ->). simpl. eauto.
  - apply IH.
Qed.

Lemma mstate_eta x : {| prev := prev x; rest := rest x; pos := pos x; caps := caps x |} = x.
Proof. now destruct x. Qed.

Lemma m_chr_matcher f c : char_matcher (char_eq f c) (m f (Chr c)).
Proof. intros x k. reflexivity. Qed.

Lemma rep_star_greedy_chars P mr :
  char_matcher P mr ->
  forall fuel x k, length (rest x) <= fuel ->
  rep_star mr true fuel None x k
  = greedy_chars P k (prev x) (rest x) (pos x) (caps x).
Proof.
  intros Hmr. induction fuel as [|fuel IH]; intros [p s i cs] k Hf;
    rewrite rep_star_eq; cbn -[Nat.leb] in *; rewrite Hmr; cbn -[Nat.leb].
  - destruct s; [reflexivity | simpl in Hf; lia].
  - destruct s as [|d tl]; [reflexivity|]. cbn -[Nat.leb].
    destruct (P d); [|reflexivity].
    destruct (Nat.leb_spec (S (length tl)) (length tl)) as [H|H]; [lia|].
    rewrite IH by (simpl in *; lia). reflexivity.
Qed.

Lemma m_cls_matcher f neg items : char_matcher (cls_match f neg items) (m f (Cls neg items)).
Proof. intros x k. reflexivity. Qed.

Lemma m_dot_matcher f : char_matcher not_lt (m f Dot).
Proof.
  intros x k. unfold not_lt. simpl. destruct (rest x); [reflexivity|].
  now destruct (is_line_terminator _).
Qed.

Lemma greedy_chars_total P k :
  (forall y, k y <> None) ->
  forall s p i cs, exists p',
  greedy_chars P k p s i cs
  = k {| prev := p'; rest := skipn (span P s) s; pos := i + span P s; caps := cs |}.
Proof.
  intros Hk. induction s as [|d tl IH]; intros p i cs; simpl.
  - exists p. now rewrite Nat.add_0_r.
  - destruct (P d).
    + destruct (IH (Some d) (S i) cs) as (p' & E). exists p'. rewrite E.
      simpl. rewrite Nat.add_succ_r.
      destruct (k _) eqn:Ek; [reflexivity|]. now apply Hk in Ek.
    + exists p. simpl. now rewrite Nat.add_0_r.
Qed.

Lemma star_chars_total f r P k x :
  char_matcher P (m f r) -> (forall y, k y <> None) ->
  exists p',
  m f (star r) x k
  = k {| prev := p'; rest := skipn (span P (rest x)) (rest x);
         pos := pos x + span P (rest x); caps := caps x |}.
Proof.
  intros Hm Hk. unfold star. cbn [m rep_min hi_zero].
  rewrite (rep_star_greedy_chars P _ Hm) by lia.
  apply greedy_chars_total, Hk.
Qed.

Lemma scan_bol f r : multiline f = false ->
  forall s c i, scan f (Seq Bol r) (Some c) s i = None.
Proof.
  intros Hf. induction s as [|d tl IH]; intros c i; simpl;
    unfold match_at; simpl; unfold at_bol; simpl; rewrite Hf; simpl; auto.
Qed.

Lemma exec_bol f r s : multiline f = false ->
  exec f (Seq Bol r) s = match_at f (Seq Bol r) None s 0.
Proof.
  intros Hf. unfold exec. destruct s as [|d tl]; simpl.
  - now destruct (match_at _ _ _ _ _).
  - destruct (match_at _ _ _ _ _); [reflexivity|]. now apply scan_bol.
Qed.

Lemma span_ext P Q s : (forall d, P d = Q d) -> span P s = span Q s.
Proof. intros H. induction s as [|d tl IH]; simpl; [reflexivity|]. rewrite H, IH. reflexivity. Qed.

Lemma span_firstn P s : forallb P (firstn (span P s) s) = true.
Proof.
  induction s as [|d tl IH]; simpl; [reflexivity|].
  destruct (P d) eqn:E; simpl; [now rewrite E|reflexivity].
Qed.

Lemma span_skipn P s :
  match skipn (span P s) s with d :: _ => P d = false | [] => True end.
Proof.
  induction s as [|d tl IH]; simpl; [exact I|].
  destruct (P d) eqn:E; simpl; [exact IH | exact E].
Qed.

Lemma cls_space d : cls_match no_flags false [CSpace] d = is_space d.
Proof. unfold cls_match. simpl. now rewrite orb_false_r. Qed.

Lemma grp_star_dot g y0 :
  exists p',
  m no_flags (Grp g (star Dot)) y0 Some
  = Some {| prev := p'; rest := skipn (span not_lt (rest y0)) (rest y0);
            pos := pos y0 + span not_lt (rest y0);
            caps := (g, firstn (span not_lt (rest y0)) (rest y0)) :: caps y0 |}.
Proof.
  rewrite m_Grp.
  destruct (star_chars_total no_flags Dot _
    (fun y1 => Some (set_cap g (firstn (pos y1 - pos y0) (rest y0)) y1)) y0
    (m_dot_matcher no_flags)) as (p' & ->); [discriminate|].
  exists p'. unfold set_cap. cbn [prev rest pos caps].
  replace (pos y0 + span not_lt (rest y0) - pos y0) with (span not_lt (rest y0))
    by lia.
  reflexivity.
Qed.

Lemma rest_of_line_shape g y z :
  m no_flags (rest_of_line g) y Some = Some z ->
  exists d tl,
    rest y = d :: tl /\ is_space d = true
    /\ let r2 := skipn (span is_space tl) tl in
       let n := span not_lt r2 in
       caps z = (g, firstn n r2) :: caps y /\ rest z = skipn n r2.
Proof.
  unfold rest_of_line, plus, sp. rewrite m_Seq, m_Rep, rep_min_S.
  cbn [hi_zero hi_pred]. rewrite (m_cls_matcher no_flags false [CSpace]).
  destruct (rest y) as [|d tl] eqn:R; [discriminate|].
  rewrite cls_space. destruct (is_space d) eqn:Sd; [|discriminate].
  intros E. exists d, tl. split; [reflexivity|]. split; [exact Sd|].
  rewrite rep_min_0 in E. cbn [hi_zero] in E.
  rewrite (rep_star_greedy_chars _ _ (m_cls_matcher no_flags false [CSpace])) in E
    by lia.
  destruct (greedy_chars_total (cls_match no_flags false [CSpace])
              (fun y0 => m no_flags (Grp g (star Dot)) y0 Some)) with
    (s := tl) (p := Some d) (i := S (pos y)) (cs := caps y) as (p' & G).
  { intros y0 H0. destruct (grp_star_dot g y0) as (? & H1). congruence. }
  cbn [advance prev rest pos caps] in E. rewrite G in E.
  match type of E with m _ _ ?y0 _ = _ =>
    destruct (grp_star_dot g y0) as (p2 & H2) end.
  rewrite H2 in E. injection E as <-.
  rewrite (span_ext _ is_space tl cls_space). cbn [rest caps].
  split; reflexivity.
Qed.

Lemma opt_char_shape c k y z :
  m no_flags (opt (Chr c)) y k = Some z ->
  (exists tl, rest y = c :: tl /\ k (advance y c tl) = Some z)
  \/ k y = Some z.
Proof.
  unfold opt. rewrite m_Rep, rep_min_0. cbn [hi_zero].
  rewrite rep_star_eq. cbn [hi_zero hi_pred].
  intros E. apply or_else_some in E as [E|[_ E]]; [|now right]. left.
  rewrite (m_chr_matcher no_flags c) in E.
  destruct y as [p s i cs]. cbn [rest] in *.
  destruct s as [|d tl]; [discriminate|].
  unfold char_eq in E. cbn [icase no_flags] in E.
  destruct (N.eqb_spec c d) as [->|]; [|discriminate].
  exists tl. split; [reflexivity|].
  cbn [advance rest length] in E.
  destruct (Nat.leb_spec (S (length tl)) (length tl)); [lia|].
  rewrite rep_star_eq in E. exact E.
Qed.

Lemma m_Bol f x k : m f Bol x k = if at_bol f x then k x else None.
Proof. reflexivity. Qed.

Lemma cls_range lo hi d : cls_match no_flags false [CRange lo hi] d = in_range lo hi d.
Proof. unfold cls_match. simpl. now rewrite orb_false_r. Qed.

(** The fuel of [rep_star] is enough as soon as it bounds the remaining
    input: more fuel changes nothing. *)
Lemma rep_star_ext mr g :
  respects_ext mr -> forall fuel hi, respects_ext (rep_star mr g fuel hi).
Proof.
  intros Hmr. induction fuel as [|fuel IH]; intros hi x k k' Hk;
    rewrite !rep_star_eq; destruct (hi_zero hi); auto; cbv zeta.
  - now rewrite (Hk x).
  - rewrite (Hmr x _ (fun y => if length (rest x) <=? length (rest y) then None
                               else rep_star mr g fuel (hi_pred hi) y k')), (Hk x);
      [reflexivity|].
    intros y. destruct (_ <=? _); [reflexivity|]. now apply IH.
Qed.

Lemma rep_min_ext mr g :
  respects_ext mr -> forall lo hi, respects_ext (rep_min mr g lo hi).
Proof.
  intros Hmr. induction lo as [|lo IH]; intros hi x k k' Hk.
  - rewrite !rep_min_0. destruct (hi_zero hi); [apply Hk|].
    now apply rep_star_ext.
  - rewrite !rep_min_S. destruct (hi_zero hi); [apply Hk|].
    apply Hmr. intros y. now apply IH.
Qed.

Lemma m_ext f r : respects_ext (m f r).
Proof.
  induction r; intros x k k' Hk; simpl.
  - apply Hk.
  - destruct (rest x); [reflexivity|]. destruct (char_eq _ _ _); [apply Hk | reflexivity].
  - destruct (rest x); [reflexivity|]. destruct (is_line_terminator _); [reflexivity | apply Hk].
  - destruct (rest x); [reflexivity|]. destruct (cls_match _ _ _ _); [apply Hk | reflexivity].
  - apply IHr1. intros y. now apply IHr2.
  - rewrite (IHr1 x k k' Hk), (IHr2 x k k' Hk). reflexivity.
  - now apply rep_min_ext.
  - apply IHr. intros y. apply Hk.
  - destruct (m f r x Some); [apply Hk | reflexivity].
  - destruct (at_bol f x); [apply Hk | reflexivity].
  - destruct (at_eol f x); [apply Hk | reflexivity].
  - destruct (xorb _ _); [apply Hk | reflexivity].
Qed.

Lemma rep_star_fuel mr g :
  respects_ext mr ->
  forall fuel fuel' hi x k,
  length (rest x) <= fuel -> length (rest x) <= fuel' ->
  rep_star mr g fuel hi x k = rep_star mr g fuel' hi x k.
Proof.
  intros Hmr. induction fuel as [|fuel IH]; intros fuel' hi x k Hf Hf';
    rewrite (rep_star_eq mr g _ hi x k), (rep_star_eq mr g fuel' hi x k);
    destruct (hi_zero hi); auto; cbv zeta.
  - match goal with |- (if g then or_else (mr x ?d1) _ else _)
                       = (if g then or_else (mr x ?d2) _ else _) =>
      rewrite (Hmr x d1 d2); [reflexivity|] end.
    intros y. destruct (Nat.leb_spec (length (rest x)) (length (rest y)));
      [reflexivity | lia].
  - match goal with |- (if g then or_else (mr x ?d1) _ else _)
                       = (if g then or_else (mr x ?d2) _ else _) =>
      rewrite (Hmr x d1 d2); [reflexivity|] end.
    intros y. destruct (Nat.leb_spec (length (rest x)) (length (rest y)));
      [reflexivity|].
    destruct fuel' as [|fuel']; [lia|]. apply IH; lia.
Qed.

Lemma lit_chars_sound f l : forall x k z,
  m f (lit_chars l) x k = Some z ->
  (forall a d, char_eq f a d = char_eq flag_i a d) ->
  iprefix l (rest x) = true.
Proof.
  induction l as [|a l IH]; intros x k z E Hf; [reflexivity|].
  destruct l as [|b l].
  - cbn [lit_chars] in E. rewrite (m_chr_matcher f a) in E.
    destruct (rest x) as [|d tl]; [discriminate|]. simpl.
    rewrite <- Hf. destruct (char_eq f a d); [reflexivity | discriminate].
  - cbn [lit_chars] in E. rewrite m_Seq, (m_chr_matcher f a) in E.
    destruct (rest x) as [|d tl] eqn:R; [discriminate|].
    cbn [iprefix]. rewrite <- Hf.
    destruct (char_eq f a d); [|discriminate].
    apply IH in E; [|exact Hf]. exact E.
Qed.

Lemma lit_chars_complete f l : forall x k,
  (forall a d, char_eq f a d = char_eq flag_i a d) ->
  iprefix l (rest x) = true ->
  exists y, m f (lit_chars l) x k = k y.
Proof.
  induction l as [|a l IH]; intros x k Hf H.
  - exists x. reflexivity.
  - destruct l as [|b l].
    + cbn [lit_chars]. rewrite (m_chr_matcher f a).
      destruct (rest x) as [|d tl]; [discriminate|]. simpl in H.
      rewrite Hf. destruct (char_eq flag_i a d); [|discriminate]. eauto.
    + cbn [lit_chars]. rewrite m_Seq, (m_chr_matcher f a).
      destruct (rest x) as [|d tl] eqn:R; [discriminate|]. cbn [iprefix] in H.
      rewrite Hf. destruct (char_eq flag_i a d); [|discriminate].
      simpl in H. apply (IH (advance x d tl) k Hf). exact H.
Qed.

Lemma cls_any f d : cls_match f false [CSpace; CNotSpace] d = true.
Proof. unfold cls_match. simpl. now destruct (is_space d). Qed.

Lemma greedy_chars_all P k :
  (forall d, P d = true) ->
  (forall y, rest y = [] -> k y <> None) ->
  forall s p i cs, greedy_chars P k p s i cs <> None.
Proof.
  intros HP Hk. induction s as [|d tl IH]; intros p i cs; simpl.
  - now apply Hk.
  - rewrite HP. specialize (IH (Some d) (S i) cs).
    destruct (greedy_chars P k (Some d) tl (S i) cs); [discriminate | congruence].
Qed.

Lemma to_the_end f y : m f (Seq (star any) Eol) y Some <> None.
Proof.
  rewrite m_Seq. unfold star, any. rewrite m_Rep, rep_min_0. cbn [hi_zero].
  rewrite (rep_star_greedy_chars _ _ (m_cls_matcher f false [CSpace; CNotSpace]))
    by lia.
  apply greedy_chars_all; [apply cls_any|].
  intros y0 R. simpl. unfold at_eol. rewrite R. discriminate.
Qed.

Lemma to_the_end_rest f y z : m f (Seq (star any) Eol) y Some = Some z ->
  multiline f = false -> rest z = [].
Proof.
  intros E Hf. rewrite m_Seq in E.
  apply m_forward in E as (y' & E & _). simpl in E. unfold at_eol in E.
  destruct (rest y') eqn:R; [now injection E as <-|].
  rewrite Hf in E. discriminate.
Qed.

Lemma or_else_not_none a b : (a <> None \/ b tt <> None) -> or_else a b <> None.
Proof. destruct a; simpl; [discriminate|]. now intros [H|H]. Qed.

Lemma scan_index_ge f r s : forall p i mt,
  scan f r p s i = Some mt -> i <= m_index mt.
Proof.
  induction s as [|c tl IH]; intros p i mt; cbn [scan]; unfold match_at;
    destruct (m f r _ Some) as [y|]; try discriminate.
  - intros [= <-]. simpl. lia.
  - intros [= <-]. simpl. lia.
  - intros H. apply IH in H. lia.
Qed.

Lemma scan_lengths f r s : forall p i mt,
  scan f r p s i = Some mt ->
  i <= m_index mt /\ m_index mt + min_len r <= m_end mt
  /\ m_end mt + length (m_after mt) = i + length s.
Proof.
  induction s as [|c tl IH]; intros p i mt; cbn [scan]; unfold match_at;
    destruct (m f r _ Some) as [y|] eqn:E; try discriminate.
  - intros [= <-]. simpl.
    apply m_forward in E as (y' & [= ->] & P & L & _). simpl in *. lia.
  - intros [= <-]. simpl.
    apply m_forward in E as (y' & [= ->] & P & L & _). simpl in *. lia.
  - intros H. apply IH in H. simpl. lia.
Qed.

Lemma replace_length f r s :
  length (replace f r [] s) <= length s
  /\ (test f r s = true -> 1 <= min_len r -> length (replace f r [] s) < length s).
Proof.
  unfold replace, test, exec.
  destruct (scan f r None s 0) as [mt|] eqn:E.
  - apply scan_lengths in E as (H1 & H2 & H3).
    rewrite !length_app, length_firstn. simpl. split; intros; lia.
  - split; [lia | discriminate].
Qed.

Lemma replace_no_match f r rep s : test f r s = false -> replace f r rep s = s.
Proof. unfold test, replace. destruct (exec f r s); [discriminate | reflexivity]. Qed.

End RegexFacts.
Import RegexFacts.

(** ** Strings *)

Module StringFacts.

Lemma jeqb_eq (a b : jstring) : jeqb a b = true <-> a = b.
Proof.
  revert b; induction a as [|x a IH]; intros [|y b]; simpl; split;
    try congruence; try reflexivity.
  - intros H. apply andb_true_iff in H as [Hx Hab].
    apply N.eqb_eq in Hx. apply IH in Hab. now subst.
  - intros H. injection H as -> ->. rewrite N.eqb_refl. simpl. now apply IH.
Qed.

Lemma includes_In (l : list jstring) (s : jstring) :
  Index.includes l s = true <-> In s l.
Proof.
  unfold Index.includes. rewrite existsb_exists. split.
  - intros (x & Hx & E). apply jeqb_eq in E. now subst.
  - intros H. exists s. split; [assumption | now apply jeqb_eq].
Qed.

Lemma includes_not_In (l : list jstring) (s : jstring) :
  Index.includes l s = false <-> ~ In s l.
Proof.
  rewrite <- includes_In. destruct (Index.includes l s); split; congruence.
Qed.

Lemma trim_start_head s :
  match trim_start s with
  | c :: _ => is_space c = false
  | [] => True
  end.
Proof.
  induction s as [|c tl IH]; simpl; [exact I|].
  destruct (is_space c) eqn:E; [exact IH | exact E].
Qed.

Lemma trim_start_fixed s :
  match s with c :: _ => is_space c = false | [] => True end ->
  trim_start s = s.
Proof. destruct s as [|c tl]; simpl; [reflexivity|]. now intros ->. Qed.

Lemma trim_start_idem s : trim_start (trim_start s) = trim_start s.
Proof. apply trim_start_fixed, trim_start_head. Qed.

Lemma trim_start_suffix s : exists ws, s = ws ++ trim_start s.
Proof.
  induction s as [|c tl [ws IH]]; simpl; [now exists []|].
  destruct (is_space c); [|now exists []].
  exists (c :: ws). simpl. now rewrite <- IH.
Qed.

Lemma trim_end_prefix s : exists ws, s = trim_end s ++ ws.
Proof.
  unfold trim_end. destruct (trim_start_suffix (rev s)) as [ws E].
  exists (rev ws). rewrite <- rev_app_distr, <- E. now rewrite rev_involutive.
Qed.

Lemma trim_start_keeps_last l c :
  is_space c = false -> exists l', trim_start (l ++ [c]) = l' ++ [c].
Proof.
  intros Hc. induction l as [|d tl [l' IH]]; simpl.
  - rewrite Hc. now exists [].
  - destruct (is_space d); [now exists l'|]. now exists (d :: tl).
Qed.

Lemma trim_end_keeps_head s :
  match s with c :: _ => is_space c = false | [] => True end ->
  match trim_end s with c :: _ => is_space c = false | [] => True end.
Proof.
  destruct s as [|c tl]; [intros _; exact I|]. intros Hc. unfold trim_end.
  simpl rev. destruct (trim_start_keeps_last (rev tl) c Hc) as [l' ->].
  rewrite rev_app_distr. simpl. exact Hc.
Qed.

Lemma trim_end_idem s : trim_end (trim_end s) = trim_end s.
Proof. unfold trim_end. now rewrite rev_involutive, trim_start_idem. Qed.

Lemma trim_idem s : trim (trim s) = trim s.
Proof.
  unfold trim. rewrite (trim_start_fixed (trim_end (trim_start s))).
  - apply trim_end_idem.
  - apply trim_end_keeps_head, trim_start_head.
Qed.

Lemma trim_length s : length (trim s) <= length s.
Proof.
  unfold trim.
  destruct (trim_start_suffix s) as [ws Es].
  destruct (trim_end_prefix (trim_start s)) as [ws' Ee].
  rewrite Es at 2. rewrite Ee at 2. rewrite !length_app. lia.
Qed.

Lemma truthy_nonempty s : truthy s = true -> s <> [].
Proof. destruct s; discriminate. Qed.

Lemma trim_part a b :
  trim (a ++ b) = a ++ b ->
  match b with e :: _ => is_space e = false | [] => True end ->
  trim b = b.
Proof.
  intros Ht Hb. destruct b as [|e b']; [reflexivity|].
  assert (He : trim_end (a ++ e :: b') = a ++ e :: b').
  { rewrite <- Ht at 1. unfold trim. rewrite trim_end_idem. exact Ht. }
  unfold trim. rewrite (trim_start_fixed (e :: b')) by exact Hb.
  unfold trim_end in *. apply (f_equal (@rev char)) in He.
  rewrite rev_involutive in He. rewrite rev_app_distr in He.
  pose proof (trim_start_head (rev (e :: b') ++ rev a)) as Hh.
  rewrite He in Hh.
  rewrite trim_start_fixed; [apply rev_involutive|].
  destruct (rev (e :: b')) as [|x l] eqn:Er; [exact I|]. exact Hh.
Qed.

End StringFacts.
Import StringFacts.

(** ** cleanContent *)

Module CleanFacts.

Import Index.

Lemma greedy_nl_Some s : forall p i cs,
  exists p', greedy_chars (char_eq no_flags NL) Some p s i cs
  = Some {| prev := p'; rest := skipn (lead s) s; pos := i + lead s; caps := cs |}.
Proof.
  induction s as [|d tl IH]; intros p i cs; simpl.
  - exists p. now rewrite Nat.add_0_r.
  - change (char_eq no_flags NL d) with (NL =? d)%N.
    rewrite N.eqb_sym. destruct (d =? NL)%N.
    + destruct (IH (Some d) (S i) cs) as (p' & ->). exists p'. simpl.
      now rewrite Nat.add_succ_r.
    + exists p. simpl. now rewrite Nat.add_0_r.
Qed.

Lemma match_at_newlines p s i :
  match_at no_flags newlinesRe p s i
  = if 3 <=? lead s
    then Some {| m_index := i; m_end := i + lead s;
                 m_text := firstn (lead s) s;
                 m_after := skipn (lead s) s; m_caps := [] |}
    else None.
Proof.
  unfold match_at, newlinesRe, atleast, nl.
  cbn [m rep_min hi_zero hi_pred].
  destruct s as [|c1 [|c2 [|c3 s3]]];
    cbn -[rep_star Nat.leb Nat.sub N.eqb char_eq];
    change (char_eq no_flags NL) with (N.eqb NL);
    rewrite ?(N.eqb_sym NL);
    repeat match goal with
           | |- context [(?c =? NL)%N] => destruct (c =? NL)%N eqn:?
           end; cbn -[rep_star Nat.leb Nat.sub N.eqb char_eq]; try reflexivity.
  rewrite (rep_star_greedy_chars _ _ (m_chr_matcher no_flags NL)) by (simpl; lia).
  cbn -[Nat.leb Nat.sub greedy_chars].
  destruct (greedy_nl_Some s3 (Some c3) (S (S (S i))) []) as (p' & ->).
  cbn -[Nat.sub firstn skipn].
  replace (S (S (S (i + lead s3))) - i) with (S (S (S (lead s3)))) by lia.
  replace (i + S (S (S (lead s3)))) with (S (S (S (i + lead s3)))) by lia.
  reflexivity.
Qed.

Lemma replace_all_collapse s : forall skip p i,
  replace_all_go no_flags newlinesRe [NL; NL] skip p s i = collapse_go skip s.
Proof.
  induction s as [|c tl IH]; intros [|sk] p i;
    cbn -[match_at Nat.leb lead]; try rewrite match_at_newlines;
    cbn -[Nat.leb lead]; try reflexivity.
  - destruct (3 <=? lead (c :: tl)) eqn:H3; cbn -[Nat.leb lead].
    + apply Nat.leb_le in H3.
      replace (i + lead (c :: tl) - i) with (S (lead (c :: tl) - 1)) by lia.
      now rewrite IH.
    + now rewrite IH.
  - apply IH.
Qed.

Lemma scan_newlines s : forall p i,
  scan no_flags newlinesRe p s i = None <-> has_run3 s = false.
Proof.
  induction s as [|c tl IH]; intros p i;
    cbn -[match_at Nat.leb lead]; rewrite match_at_newlines.
  - simpl. tauto.
  - destruct (3 <=? lead (c :: tl)); cbn -[Nat.leb lead].
    + split; discriminate.
    + apply IH.
Qed.

Lemma test_newlines s :
  test no_flags newlinesRe s = false <-> has_run3 s = false.
Proof.
  unfold test, exec. rewrite <- (scan_newlines s None 0).
  destruct (scan _ _ _ _ _); split; congruence.
Qed.

Lemma collapse_go_fixed s : has_run3 s = false -> collapse_go 0 s = s.
Proof.
  induction s as [|c tl IH]; [reflexivity|].
  cbn -[Nat.leb lead]. intros H. apply orb_false_iff in H as [H3 Ht].
  rewrite H3. f_equal. now apply IH.
Qed.

Lemma collapse_go_skip n : forall s,
  n <= lead s -> collapse_go n s = collapse_go 0 (skipn n s).
Proof.
  induction n as [|n IH]; intros s Hn; [reflexivity|].
  destruct s as [|c tl]; [reflexivity|]. simpl in Hn.
  destruct (c =? NL)%N; [|lia]. cbn [collapse_go skipn]. apply IH. lia.
Qed.

Lemma lead_skipn_lead s : lead (skipn (lead s) s) = 0.
Proof.
  induction s as [|c tl IH]; [reflexivity|]. simpl.
  destruct (c =? NL)%N eqn:E; simpl; [exact IH | now rewrite E].
Qed.

Lemma lead_le_length s : lead s <= length s.
Proof.
  induction s as [|c tl IH]; simpl; [lia|]. destruct (c =? NL)%N; lia.
Qed.

Lemma collapse_go_runs n : forall s, length s <= n ->
  has_run3 (collapse_go 0 s) = false
  /\ lead (collapse_go 0 s) = Nat.min (lead s) 2.
Proof.
  induction n as [|n IH]; intros s Hn.
  - destruct s; [split; reflexivity | simpl in Hn; lia].
  - destruct s as [|c tl]; [split; reflexivity|].
    cbn -[Nat.leb lead Nat.min Nat.sub].
    destruct (3 <=? lead (c :: tl)) eqn:H3.
    + apply Nat.leb_le in H3.
      assert (Hl : lead (c :: tl) - 1 <= lead tl).
      { cbn [lead]. destruct (c =? NL)%N; lia. }
      rewrite (collapse_go_skip _ tl Hl).
      assert (E : skipn (lead (c :: tl) - 1) tl = skipn (lead (c :: tl)) (c :: tl)).
      { destruct (lead (c :: tl)) as [|k]; [lia|]. simpl. now rewrite Nat.sub_0_r. }
      rewrite E.
      pose proof (lead_skipn_lead (c :: tl)) as L0.
      pose proof (lead_le_length (c :: tl)) as Ll.
      remember (lead (c :: tl)) as k eqn:Hk.
      destruct (IH (skipn k (c :: tl))) as [R L].
      { rewrite length_skipn. lia. }
      rewrite L0 in L. change (Nat.min 0 2) with 0 in L.
      remember (collapse_go 0 (skipn k (c :: tl))) as out eqn:Hout.
      split.
      * cbn -[Nat.leb]. rewrite L. simpl. exact R.
      * cbn -[Nat.min]. rewrite L. lia.
    + apply Nat.leb_gt in H3.
      destruct (IH tl) as [R L]; [simpl in Hn; lia|].
      set (out := collapse_go 0 tl) in *.
      simpl in H3. cbn -[Nat.leb Nat.min].
      destruct (c =? NL)%N.
      * rewrite L, R. split; [|lia].
        rewrite orb_false_r. apply Nat.leb_gt. lia.
      * rewrite R. split; [reflexivity|lia].
Qed.

Lemma collapse_no_run s : has_run3 (collapse_go 0 s) = false.
Proof. exact (proj1 (collapse_go_runs (length s) s (le_n _))). Qed.

Lemma has_run3_tail c s : has_run3 (c :: s) = false -> has_run3 s = false.
Proof. cbn -[Nat.leb lead]. intros H. now apply orb_false_iff in H. Qed.

Lemma has_run3_suffix a s : has_run3 (a ++ s) = false -> has_run3 s = false.
Proof.
  induction a as [|c a IH]; [auto|]. intros H. apply IH.
  exact (has_run3_tail _ _ H).
Qed.

Lemma lead_app_le a b : lead a <= lead (a ++ b).
Proof.
  induction a as [|c a IH]; simpl; [lia|]. destruct (c =? NL)%N; lia.
Qed.

Lemma has_run3_prefix a b : has_run3 (a ++ b) = false -> has_run3 a = false.
Proof.
  induction a as [|c a IH]; [reflexivity|]. intros H.
  change ((c :: a) ++ b) with (c :: (a ++ b)) in H.
  cbn -[Nat.leb lead] in *. apply orb_false_iff in H as [H3 Ht].
  apply orb_false_iff. split; [|now apply IH].
  apply Nat.leb_gt in H3. apply Nat.leb_gt.
  pose proof (lead_app_le (c :: a) b) as L.
  change ((c :: a) ++ b) with (c :: (a ++ b)) in L. lia.
Qed.

Lemma has_run3_trim s : has_run3 s = false -> has_run3 (trim s) = false.
Proof.
  intros H. unfold trim.
  destruct (trim_start_suffix s) as [ws Es].
  destruct (trim_end_prefix (trim_start s)) as [ws' Ee].
  rewrite Es in H. apply has_run3_suffix in H. rewrite Ee in H.
  now apply has_run3_prefix in H.
Qed.

(** *** The closing-remark pattern *)

Lemma closing_tail_sound y z :
  m flag_i closing_tail y Some = Some z -> phrase_here (rest y) = true.
Proof.
  unfold closing_tail. rewrite m_Seq. cbn [alt]. intros E.
  unfold phrase_here, closing_phrases. cbn [existsb].
  repeat (cbn [m] in E; apply or_else_some in E as [E|[_ E]];
          [apply lit_chars_sound in E; [rewrite E; now rewrite ?orb_true_r | reflexivity]|]).
  apply lit_chars_sound in E; [rewrite E; now rewrite ?orb_true_r | reflexivity].
Qed.

Lemma lit_then_end l y :
  iprefix l (rest y) = true ->
  m flag_i (lit_chars l) y (fun y0 => m flag_i (Seq (star any) Eol) y0 Some) <> None.
Proof.
  intros H.
  destruct (lit_chars_complete flag_i l y
              (fun y0 => m flag_i (Seq (star any) Eol) y0 Some)
              (fun _ _ => eq_refl) H) as (y' & ->).
  apply to_the_end.
Qed.

Lemma closing_tail_complete y :
  phrase_here (rest y) = true -> m flag_i closing_tail y Some <> None.
Proof.
  unfold closing_tail, phrase_here, closing_phrases. rewrite m_Seq.
  cbn [alt existsb]. rewrite orb_false_r. intros H.
  repeat (apply orb_true_iff in H as [H|H];
          [cbn [m]; repeat (apply or_else_not_none; first
             [ left; now apply lit_then_end | right ]);
           now apply lit_then_end |]).
  cbn [m]. repeat (apply or_else_not_none; right). now apply lit_then_end.
Qed.

Lemma trailingRe_parts : trailingRe = Seq (star (Alt nl sp)) closing_tail.
Proof. reflexivity. Qed.

Lemma has_phrase_here s : phrase_here s = true -> has_phrase s = true.
Proof. intros H. destruct s; cbn [has_phrase]; rewrite H; reflexivity. Qed.

Lemma has_phrase_app pre s : has_phrase s = true -> has_phrase (pre ++ s) = true.
Proof.
  intros H. induction pre as [|c pre IH]; [exact H|].
  change ((c :: pre) ++ s) with (c :: (pre ++ s)). cbn [has_phrase].
  rewrite IH. apply orb_true_r.
Qed.

Lemma closing_tail_rest y z :
  m flag_i closing_tail y Some = Some z -> rest z = [].
Proof.
  unfold closing_tail. rewrite m_Seq. intros E.
  apply m_forward in E as (y' & E & _).
  now apply to_the_end_rest in E.
Qed.

Lemma match_at_trailing_sound p s i mt :
  match_at flag_i trailingRe p s i = Some mt ->
  has_phrase s = true /\ m_after mt = [] /\ m_index mt = i.
Proof.
  unfold match_at. rewrite trailingRe_parts.
  destruct (m _ _ _ _) as [z|] eqn:E; [|discriminate]. intros [= <-].
  cbn [m_after m_index]. rewrite m_Seq in E.
  apply m_forward in E as (y & E & _ & _ & pre & R). cbn [rest] in R.
  repeat split.
  - rewrite R. apply has_phrase_app, has_phrase_here.
    now apply closing_tail_sound in E.
  - now apply closing_tail_rest in E.
Qed.

Lemma match_at_trailing_complete p s i :
  phrase_here s = true -> match_at flag_i trailingRe p s i <> None.
Proof.
  intros H. unfold match_at. rewrite trailingRe_parts, m_Seq.
  unfold star at 1. rewrite m_Rep, rep_min_0. cbn [hi_zero].
  rewrite rep_star_eq. cbn [hi_zero]. cbv zeta.
  match goal with |- match or_else ?a ?b with _ => _ end <> None =>
    assert (Hne : or_else a b <> None) end.
  { apply or_else_not_none. right. now apply closing_tail_complete. }
  destruct (or_else _ _); [discriminate | congruence].
Qed.

Lemma has_phrase_tail c s : has_phrase (c :: s) = false -> has_phrase s = false.
Proof. cbn [has_phrase]. intros H. now apply orb_false_iff in H. Qed.

Lemma scan_trailing_none s : forall p i,
  scan flag_i trailingRe p s i = None <-> has_phrase s = false.
Proof.
  induction s as [|c tl IH]; intros p i; cbn [scan].
  - destruct (match_at flag_i trailingRe p [] i) as [mt|] eqn:E.
    + apply match_at_trailing_sound in E as (E & _). split; congruence.
    + split; [reflexivity|reflexivity].
  - destruct (match_at flag_i trailingRe p (c :: tl) i) as [mt|] eqn:E.
    + apply match_at_trailing_sound in E as (E & _). split; congruence.
    + rewrite IH. cbn [has_phrase].
      destruct (phrase_here (c :: tl)) eqn:Hp; [|reflexivity].
      now apply (match_at_trailing_complete p _ i) in Hp.
Qed.

Lemma iprefix_firstn l : forall n s, iprefix l (firstn n s) = true -> iprefix l s = true.
Proof.
  induction l as [|a l IH]; intros n s H; [reflexivity|].
  destruct n, s as [|d s]; try discriminate. simpl in *.
  apply andb_true_iff in H as [H1 H2]. rewrite H1. simpl. now apply (IH n).
Qed.

Lemma phrase_here_firstn n s : phrase_here (firstn n s) = true -> phrase_here s = true.
Proof.
  unfold phrase_here. rewrite !existsb_exists. intros (ph & Hin & H).
  exists ph. split; [exact Hin|]. now apply (iprefix_firstn ph n).
Qed.

Lemma scan_trailing_leftmost s : forall p i mt,
  scan flag_i trailingRe p s i = Some mt ->
  has_phrase (firstn (m_index mt - i) s) = false /\ m_after mt = [].
Proof.
  induction s as [|c tl IH]; intros p i mt; cbn [scan].
  - destruct (match_at flag_i trailingRe p [] i) as [mt'|] eqn:E; [|discriminate].
    intros [= <-]. apply match_at_trailing_sound in E as (_ & Ha & Hi).
    split; [|exact Ha]. now rewrite firstn_nil.
  - destruct (match_at flag_i trailingRe p (c :: tl) i) as [mt'|] eqn:E.
    + intros [= <-]. apply match_at_trailing_sound in E as (_ & Ha & Hi).
      split; [|exact Ha]. rewrite Hi, Nat.sub_diag. reflexivity.
    + intros H. pose proof (scan_index_ge _ _ _ _ _ _ H) as Hge.
      apply IH in H as (H & Ha). split; [|exact Ha].
      replace (m_index mt - i) with (S (m_index mt - S i)) by lia.
      cbn [firstn has_phrase]. rewrite H, orb_false_r.
      destruct (phrase_here (c :: firstn (m_index mt - S i) tl)) eqn:Hp;
        [|reflexivity].
      apply (phrase_here_firstn (S (m_index mt - S i)) (c :: tl)) in Hp.
      now apply (match_at_trailing_complete p _ i) in Hp.
Qed.

Lemma replace_trailing_clean s :
  has_phrase (replace flag_i trailingRe [] s) = false.
Proof.
  unfold replace, exec. destruct (scan flag_i trailingRe None s 0) as [mt|] eqn:E.
  - apply scan_trailing_leftmost in E as (H & ->).
    rewrite Nat.sub_0_r in H. now rewrite app_nil_r.
  - now apply scan_trailing_none in E.
Qed.

Lemma has_phrase_suffix a s : has_phrase (a ++ s) = false -> has_phrase s = false.
Proof.
  induction a as [|c a IH]; [auto|]. intros H. apply IH.
  exact (has_phrase_tail _ _ H).
Qed.

Lemma iprefix_app l : forall a b, iprefix l a = true -> iprefix l (a ++ b) = true.
Proof.
  induction l as [|x l IH]; intros a b H; [reflexivity|].
  destruct a as [|d a]; [discriminate|]. simpl in *.
  apply andb_true_iff in H as [H1 H2]. rewrite H1. simpl. now apply IH.
Qed.

Lemma phrase_here_app a b : phrase_here a = true -> phrase_here (a ++ b) = true.
Proof.
  unfold phrase_here. rewrite !existsb_exists. intros (ph & Hin & H).
  exists ph. split; [exact Hin|]. now apply iprefix_app.
Qed.

Lemma has_phrase_prefix a b : has_phrase (a ++ b) = false -> has_phrase a = false.
Proof.
  induction a as [|c a IH]; intros H.
  - cbn [has_phrase]. rewrite orb_false_r.
    destruct (phrase_here []) eqn:Hp; [|reflexivity].
    apply (phrase_here_app [] b) in Hp. apply has_phrase_here in Hp.
    congruence.
  - change ((c :: a) ++ b) with (c :: (a ++ b)) in H.
    cbn [has_phrase] in *. apply orb_false_iff in H as [Hp Ht].
    rewrite (IH Ht), orb_false_r.
    destruct (phrase_here (c :: a)) eqn:Hq; [|reflexivity].
    apply (phrase_here_app (c :: a) b) in Hq.
    change ((c :: a) ++ b) with (c :: (a ++ b)) in Hq. congruence.
Qed.

Lemma has_phrase_trim s : has_phrase s = false -> has_phrase (trim s) = false.
Proof.
  intros H. unfold trim.
  destruct (trim_start_suffix s) as [ws Es].
  destruct (trim_end_prefix (trim_start s)) as [ws' Ee].
  rewrite Es in H. apply has_phrase_suffix in H. rewrite Ee in H.
  now apply has_phrase_prefix in H.
Qed.

Lemma closing_phrases_newline_free : Forall newline_free closing_phrases.
Proof. repeat constructor. Qed.

Lemma iprefix_collapse l : newline_free l ->
  forall s, iprefix l (collapse_go 0 s) = true -> iprefix l s = true.
Proof.
  induction 1 as [|a l Ha _ IH]; intros s H; [reflexivity|].
  destruct s as [|c tl]; [discriminate|].
  cbn [collapse_go] in H.
  destruct (3 <=? lead (c :: tl)).
  - cbn [iprefix] in H. rewrite Ha in H. discriminate.
  - cbn [iprefix] in *. apply andb_true_iff in H as [H1 H2].
    rewrite H1. simpl. now apply IH.
Qed.

Lemma phrase_here_collapse s :
  phrase_here (collapse_go 0 s) = true -> phrase_here s = true.
Proof.
  unfold phrase_here. rewrite !existsb_exists. intros (ph & Hin & H).
  exists ph. split; [exact Hin|]. apply iprefix_collapse; [|exact H].
  pose proof closing_phrases_newline_free as F.
  rewrite Forall_forall in F. now apply F.
Qed.

Lemma phrase_here_newline s : phrase_here (NL :: s) = false.
Proof. reflexivity. Qed.

Lemma has_phrase_skipn n : forall s, has_phrase s = false -> has_phrase (skipn n s) = false.
Proof.
  induction n as [|n IH]; intros s H; [exact H|].
  destruct s as [|c tl]; [exact H|]. simpl. apply IH.
  exact (has_phrase_tail _ _ H).
Qed.

Lemma has_phrase_collapse n : forall s, length s <= n ->
  has_phrase s = false -> has_phrase (collapse_go 0 s) = false.
Proof.
  induction n as [|n IH]; intros s Hn H.
  - destruct s; [exact H | simpl in Hn; lia].
  - destruct s as [|c tl]; [exact H|].
    cbn [collapse_go].
    destruct (3 <=? lead (c :: tl)) eqn:H3.
    + apply Nat.leb_le in H3.
      assert (Hl : lead (c :: tl) - 1 <= lead tl).
      { cbn [lead]. destruct (c =? NL)%N; lia. }
      rewrite (collapse_go_skip _ tl Hl).
      pose proof (lead_le_length (c :: tl)) as Ll.
      cbn [has_phrase]. rewrite !phrase_here_newline. cbn [orb].
      apply IH.
      * rewrite length_skipn. simpl in *. lia.
      * apply has_phrase_skipn. exact (has_phrase_tail _ _ H).
    + cbn [has_phrase] in *. apply orb_false_iff in H as [Hp Ht].
      rewrite (IH tl) by (simpl in Hn; auto; lia). rewrite orb_false_r.
      destruct (phrase_here (c :: collapse_go 0 tl)) eqn:Hq; [|reflexivity].
      assert (Hc : phrase_here (collapse_go 0 (c :: tl)) = true).
      { cbn [collapse_go]. now rewrite H3. }
      apply phrase_here_collapse in Hc. congruence.
Qed.

Lemma test_trailing s : test flag_i trailingRe s = false <-> has_phrase s = false.
Proof.
  unfold test, exec. rewrite <- (scan_trailing_none s None 0).
  destruct (scan _ _ _ _ _); split; congruence.
Qed.

Lemma strip_preambles_no_match s : no_preamble s -> strip_preambles s = s.
Proof.
  unfold strip_preambles, no_preamble. generalize preamblePatterns as ps.
  induction ps as [|rx ps IH]; intros H; simpl; [reflexivity|].
  rewrite replace_no_match by (apply H; now left).
  apply IH. intros rx' Hin. apply H. now right.
Qed.

Lemma cut_at_marker_no_cut t s : (marker_index t s <= 0)%Z -> cut_at_marker t s = s.
Proof.
  unfold cut_at_marker. intros H.
  destruct (Z.ltb_spec 0 (marker_index t s)); [lia | reflexivity].
Qed.

Lemma replace_all_newlines s :
  replace_all no_flags newlinesRe [NL; NL] s = collapse_go 0 s.
Proof. apply replace_all_collapse. Qed.

Lemma cleanContent_shape x t :
  x <> [] ->
  cleanContent x t
  = trim (collapse_go 0
      (trim (replace flag_i trailingRe [] (cut_at_marker t (strip_preambles x))))).
Proof.
  intros Hx. unfold cleanContent. destruct x; [congruence|]. simpl negb. cbv iota.
  now rewrite replace_all_newlines.
Qed.

Lemma cleanContent_no_match x t :
  no_preamble x -> (marker_index t x <= 0)%Z ->
  test flag_i trailingRe x = false -> has_run3 x = false ->
  cleanContent x t = trim x.
Proof.
  intros Hp Hm Ht Hn. destruct x as [|c x]; [reflexivity|].
  rewrite cleanContent_shape by discriminate.
  rewrite strip_preambles_no_match by exact Hp.
  rewrite cut_at_marker_no_cut by exact Hm.
  rewrite replace_no_match by exact Ht.
  rewrite collapse_go_fixed by (now apply has_run3_trim).
  apply trim_idem.
Qed.

Lemma cleanContent_trimmed x t :
  trim (cleanContent x t) = cleanContent x t
  /\ has_run3 (cleanContent x t) = false.
Proof.
  destruct x as [|c x]; [split; reflexivity|].
  rewrite cleanContent_shape by discriminate. split.
  - apply trim_idem.
  - apply has_run3_trim, collapse_no_run.
Qed.

Lemma cleanContent_no_closing x t : test flag_i trailingRe (cleanContent x t) = false.
Proof.
  apply test_trailing. destruct x as [|c x]; [reflexivity|].
  rewrite cleanContent_shape by discriminate.
  apply has_phrase_trim. apply (has_phrase_collapse _ _ (le_n _)).
  apply has_phrase_trim. apply replace_trailing_clean.
Qed.

Lemma no_preamble_check s :
  forallb (fun rx => negb (test flag_i rx s)) preamblePatterns = true ->
  no_preamble s.
Proof.
  intros H rx Hin. rewrite forallb_forall in H. specialize (H rx Hin).
  now destruct (test flag_i rx s).
Qed.

Lemma collapse_go_length s : forall skip,
  length (collapse_go skip s) <= length s - skip.
Proof.
  induction s as [|c tl IH]; intros skip; [simpl; lia|].
  cbn [collapse_go]. destruct skip as [|sk].
  - destruct (3 <=? lead (c :: tl)) eqn:H3.
    + apply Nat.leb_le in H3. pose proof (lead_le_length (c :: tl)) as Ll.
      specialize (IH (lead (c :: tl) - 1)). cbn [length] in *. lia.
    + specialize (IH 0). cbn [length]. lia.
  - specialize (IH sk). cbn [length]. lia.
Qed.

Lemma strip_preambles_length ps : forall s,
  length (fold_left (fun cleaned rx => replace flag_i rx [] cleaned) ps s)
  <= length s.
Proof.
  induction ps as [|rx ps IH]; intros s; simpl; [lia|].
  specialize (IH (replace flag_i rx [] s)).
  pose proof (proj1 (replace_length flag_i rx s)). lia.
Qed.

Lemma strip_preambles_shorter ps : forall s,
  Forall (fun rx => 1 <= min_len rx) ps ->
  existsb (fun rx => test flag_i rx s) ps = true ->
  length (fold_left (fun cleaned rx => replace flag_i rx [] cleaned) ps s)
  < length s.
Proof.
  induction ps as [|rx ps IH]; intros s Hps H; [discriminate|].
  inversion Hps as [|? ? Hrx Hps']; subst. simpl in *.
  destruct (test flag_i rx s) eqn:T.
  - pose proof (strip_preambles_length ps (replace flag_i rx [] s)).
    pose proof (proj2 (replace_length flag_i rx s) T Hrx). lia.
  - rewrite (replace_no_match _ _ _ _ T). now apply IH.
Qed.

Lemma preamblePatterns_consume : Forall (fun rx => 1 <= min_len rx) preamblePatterns.
Proof. repeat constructor; vm_compute; lia. Qed.

Lemma no_preamble_dec s :
  existsb (fun rx => test flag_i rx s) preamblePatterns = false <-> no_preamble s.
Proof.
  unfold no_preamble. split.
  - intros H rx Hin. destruct (test flag_i rx s) eqn:T; [|reflexivity].
    assert (existsb (fun rx => test flag_i rx s) preamblePatterns = true)
      by (apply existsb_exists; eauto). congruence.
  - intros H. destruct (existsb _ _) eqn:E; [|reflexivity].
    apply existsb_exists in E as (rx & Hin & T). rewrite (H rx Hin) in T.
    discriminate.
Qed.

Lemma cut_at_marker_length t s :
  length (cut_at_marker t s) <= length s
  /\ ((0 < marker_index t s)%Z -> length (cut_at_marker t s) < length s).
Proof.
  unfold cut_at_marker, slice_from.
  destruct (Z.ltb_spec 0 (marker_index t s)) as [H|H].
  - rewrite length_skipn.
    assert (Hs : s <> []).
    { intros ->. revert H. unfold marker_index.
      destruct (is_flashcards t); vm_compute; discriminate. }
    destruct s; [congruence|]. simpl length. split; intros; lia.
  - split; [lia | intros; lia].
Qed.

Lemma cleanContent_length x t :
  length (cleanContent x t) <= length x
  /\ (no_preamble x /\ (marker_index t x <= 0)%Z
      \/ length (cleanContent x t) < length x).
Proof.
  destruct x as [|c x]; [split; [reflexivity|]|].
  { left. split; [now apply no_preamble_dec|].
    unfold marker_index. destruct (is_flashcards t); vm_compute; discriminate. }
  rewrite cleanContent_shape by discriminate.
  set (s := c :: x).
  pose proof (strip_preambles_length preamblePatterns s) as L1.
  fold (strip_preambles s) in L1.
  pose proof (cut_at_marker_length t (strip_preambles s)) as [L2 L2'].
  pose proof (proj1 (replace_length flag_i trailingRe
                       (cut_at_marker t (strip_preambles s)))) as L3.
  pose proof (trim_length (replace flag_i trailingRe []
                             (cut_at_marker t (strip_preambles s)))) as L4.
  pose proof (collapse_go_length (trim (replace flag_i trailingRe []
                             (cut_at_marker t (strip_preambles s)))) 0) as L5.
  pose proof (trim_length (collapse_go 0 (trim (replace flag_i trailingRe []
                             (cut_at_marker t (strip_preambles s)))))) as L6.
  split; [lia|].
  destruct (existsb (fun rx => test flag_i rx s) preamblePatterns) eqn:Ep.
  - right.
    pose proof (strip_preambles_shorter _ _ preamblePatterns_consume Ep) as S1.
    fold (strip_preambles s) in S1. lia.
  - apply no_preamble_dec in Ep.
    destruct (Z.ltb_spec 0 (marker_index t s)) as [Hm|Hm].
    + right. rewrite (strip_preambles_no_match _ Ep) in *.
      specialize (L2' Hm). lia.
    + left. split; assumption.
Qed.

(** C4.  The normalizer is a total function: it gives a text for every
    input and kind, never longer than the input.  On a text where no
    preamble pattern matches, the marker search cuts nothing (its index is
    0 or -1), the closing-remark pattern does not match and there is no run
    of three newlines, it returns the trimmed text. *)
Theorem cleanContent_total_unchanged x t :
  (exists y, cleanContent x t = y /\ length y <= length x)
  /\ (no_preamble x -> (marker_index t x <= 0)%Z ->
      test flag_i trailingRe x = false ->
      test no_flags newlinesRe x = false ->
      cleanContent x t = trim x).
Proof.
  split.
  - eexists; split; [reflexivity | apply cleanContent_length].
  - intros Hp Hm Ht Hn.
    apply cleanContent_no_match; auto. now apply test_newlines.
Qed.

Lemma cleanContent_total_unchanged_witness :
  cleanContent (str "  Plain text, nothing to strip.  ") Summary
  = trim (str "  Plain text, nothing to strip.  ").
Proof.
  apply (proj2 (cleanContent_total_unchanged
                  (str "  Plain text, nothing to strip.  ") Summary)).
  - apply no_preamble_check. vm_compute. reflexivity.
  - apply Z.leb_le. vm_compute. reflexivity.
  - vm_compute. reflexivity.
  - vm_compute. reflexivity.
Defined.

(** C1, as the code has it.  Cleaning a cleaned text again changes
    nothing exactly when the cleaned text gives the stripping rules nothing
    more to do: no preamble pattern matches it and the marker search cuts
    nothing of it (its first marker is at position 0, or it has none).  The
    closing-remark pattern never matches a cleaned text, and trimming and
    the newline rule are idempotent. *)
Theorem cleanContent_idempotent_iff x t :
  cleanContent (cleanContent x t) t = cleanContent x t
  <-> no_preamble (cleanContent x t)
      /\ (marker_index t (cleanContent x t) <= 0)%Z.
Proof.
  split.
  - intros E. destruct (cleanContent_length (cleanContent x t) t) as [_ [H|H]];
      [exact H|]. rewrite E in H. lia.
  - intros [Hp Hm]. destruct (cleanContent_trimmed x t) as [Tr Ru].
    rewrite cleanContent_no_match; auto. apply cleanContent_no_closing.
Qed.

Lemma cleanContent_idempotent_iff_witness :
  cleanContent
    (cleanContent (text_lines ["Here is your summary:"; "# Title"; "Body text"]%string)
                  Summary) Summary
  = cleanContent (text_lines ["Here is your summary:"; "# Title"; "Body text"]%string)
                 Summary.
Proof.
  apply (proj2 (cleanContent_idempotent_iff
    (text_lines ["Here is your summary:"; "# Title"; "Body text"]%string) Summary)).
  split.
  - apply no_preamble_check. vm_compute. reflexivity.
  - apply Z.leb_le. vm_compute. reflexivity.
Defined.

(** C1 as stated fails.  Each preamble pattern is applied once, so a
    second preamble line survives the first cleaning and falls to the
    second; and for flashcards a bullet found after a word character is no
    longer found once it starts the text, so the second cleaning cuts at a
    later marker. *)
Lemma cleanContent_not_idempotent :
  cleanContent two_preambles Summary = text_lines ["Here is b"; "foo"]%string
  /\ cleanContent (cleanContent two_preambles Summary) Summary = str "foo"
  /\ cleanContent (cleanContent two_preambles Summary) Summary
     <> cleanContent two_preambles Summary
  /\ cleanContent bullet_after_word Flashcards = str "* b Q: x"
  /\ cleanContent (cleanContent bullet_after_word Flashcards) Flashcards
     = str "Q: x"
  /\ cleanContent (cleanContent bullet_after_word Flashcards) Flashcards
     <> cleanContent bullet_after_word Flashcards.
Proof. vm_compute. repeat split; discriminate. Qed.

End CleanFacts.

(** ** Flashcards *)

Module FlashcardFacts.

Import Index.

Lemma patterns_consume : Forall (fun rx => 1 <= min_len rx) patterns.
Proof. repeat constructor. Qed.

Lemma pattern_cards_total cleaned ps :
  Forall (fun rx => 1 <= min_len rx) ps ->
  exists found, pattern_cards ps cleaned = Some found.
Proof.
  induction 1 as [|rx tl Hrx _ IH]; simpl; [eauto|].
  destruct (exec_loop_total flag_i rx Hrx cleaned 0 None 0) as (ms & E).
  unfold exec_all. rewrite E. destruct IH as (found & ->). simpl. eauto.
Qed.

Lemma candidate_accepted mt :
  Forall (fun c => well_formed c /\ long_enough c) (candidate mt).
Proof.
  unfold candidate.
  destruct (accepted _ _) eqn:A; constructor; [|constructor].
  unfold accepted in A. apply andb_true_iff in A as [A L2].
  apply andb_true_iff in A as [A L1]. apply andb_true_iff in A as [Q A].
  apply Nat.ltb_lt in L1, L2.
  repeat split; simpl; auto using truthy_nonempty.
Qed.

Lemma pattern_cards_accepted cleaned ps found :
  pattern_cards ps cleaned = Some found ->
  Forall (fun c => well_formed c /\ long_enough c) found.
Proof.
  revert found. induction ps as [|rx tl IH]; simpl; intros found E.
  - injection E as <-. constructor.
  - destruct (exec_all flag_i rx cleaned) as [ms|]; [|discriminate].
    destruct (pattern_cards tl cleaned) as [more|]; [|discriminate].
    injection E as <-. apply Forall_app. split; [|now apply IH].
    apply Forall_flat_map. apply Forall_forall. intros mt _.
    apply candidate_accepted.
Qed.

Lemma fallback_cards_well_formed cleaned :
  Forall well_formed (fallback_cards cleaned).
Proof.
  unfold fallback_cards. apply Forall_flat_map. apply Forall_forall.
  intros section _. unfold fallback_card.
  destruct (exec flag_i inlineQARe section) as [mt|]; [|constructor].
  destruct (truthy _ && truthy _) eqn:T; constructor; [|constructor].
  apply andb_true_iff in T as [Q A].
  split; simpl; auto using truthy_nonempty.
Qed.

(** C2, as the code has it.  The extractor ends on every text, and every
    card it gives has a non-empty question and a non-empty answer.  The
    cards of the three pattern families also have a question longer than 2
    and an answer longer than 1; when the families give no card, the cards
    are those of the blank-line-block fallback, which are only tested for
    being non-empty. *)
Theorem flashcards_well_formed cleaned :
  exists cards,
    extractFlashcards cleaned = Some cards
    /\ Forall well_formed cards
    /\ (forall found, pattern_cards patterns cleaned = Some found ->
        (found <> [] -> cards = found /\ Forall long_enough cards)
        /\ (found = [] -> cards = fallback_cards cleaned)).
Proof.
  unfold extractFlashcards.
  destruct (pattern_cards_total cleaned patterns patterns_consume) as (found & E).
  rewrite E. pose proof (pattern_cards_accepted _ _ _ E) as A.
  destruct found as [|c found].
  - eexists; split; [reflexivity|]. split; [apply fallback_cards_well_formed|].
    intros f [= <-]. split; [congruence | reflexivity].
  - eexists; split; [reflexivity|]. split.
    + eapply Forall_impl; [|exact A]. now intros ? [? ?].
    + intros f [= <-]. split; [|discriminate]. intros _. split; [reflexivity|].
      eapply Forall_impl; [|exact A]. now intros ? [? ?].
Qed.

(** C2 as stated fails: a card of the fallback with a question of two
    characters, which the pattern loop had turned down. *)
Lemma fallback_card_short_question :
  cleanContent short_question Flashcards = short_question
  /\ pattern_cards patterns short_question = Some []
  /\ extractFlashcards short_question
     = Some [ {| question := str "ab"; answer := str "cd" |} ]
  /\ ~ Forall long_enough [ {| question := str "ab"; answer := str "cd" |} ].
Proof.
  split; [vm_compute; reflexivity|]. split; [vm_compute; reflexivity|].
  split; [vm_compute; reflexivity|].
  intros H. inversion H as [|? ? [Hq _] _]. vm_compute in Hq. lia.
Qed.

End FlashcardFacts.

(** ** parseOutline *)

Module OutlineFacts.

Import Index.

Lemma letter_match_shape line letter :
  exec no_flags letterRe line = Some letter ->
  exists c dot ws text tail,
    line = c :: dot ++ ws ++ text ++ tail
    /\ group 2 letter = Some text
    /\ in_range (ch "A") (ch "Z") c = true
    /\ (dot = [] \/ dot = [ch "."])
    /\ ws <> [] /\ forallb is_space ws = true
    /\ forallb not_lt text = true
    /\ match text with e :: _ => is_space e = false | [] => True end
    /\ match tail with e :: _ => is_line_terminator e = true | [] => True end.
Proof.
  change letterRe with
    (Seq Bol (Seq (Grp 1 (Cls false [CRange (ch "A") (ch "Z")]))
                  (Seq (opt (Chr (ch "."))) (rest_of_line 2)))).
  rewrite exec_bol by reflexivity. unfold match_at.
  destruct (m _ _ _ _) as [z|] eqn:E; [|discriminate]. intros [= <-].
  rewrite m_Seq, m_Bol in E. cbn [at_bol prev] in E.
  rewrite m_Seq, m_Grp, (m_cls_matcher no_flags) in E. cbn [rest] in E.
  destruct line as [|c r0]; [discriminate|].
  rewrite cls_range in E. destruct (in_range _ _ c) eqn:Hc; [|discriminate].
  rewrite m_Seq in E.
  assert (Shape : forall y dot,
    (dot = [] \/ dot = [ch "."]) -> r0 = dot ++ rest y ->
    m no_flags (rest_of_line 2) y Some = Some z ->
    exists ws text tail,
      r0 = dot ++ ws ++ text ++ tail
      /\ get_cap 2 (caps z) = Some text
      /\ ws <> [] /\ forallb is_space ws = true
      /\ forallb not_lt text = true
      /\ match text with e :: _ => is_space e = false | [] => True end
      /\ match tail with e :: _ => is_line_terminator e = true | [] => True end).
  { intros y dot Hdot Hr0 Hy.
    apply rest_of_line_shape in Hy as (d & tl & Ry & Sd & Hcaps & Hrest).
    set (r2 := skipn (span is_space tl) tl) in *.
    exists (d :: firstn (span is_space tl) tl), (firstn (span not_lt r2) r2),
           (skipn (span not_lt r2) r2).
    repeat split.
    - rewrite Hr0, Ry. f_equal. simpl. f_equal.
      rewrite (firstn_skipn (span not_lt r2) r2). subst r2.
      now rewrite firstn_skipn.
    - rewrite Hcaps. reflexivity.
    - discriminate.
    - simpl. rewrite Sd. apply span_firstn.
    - apply span_firstn.
    - pose proof (span_skipn is_space tl) as Hs. fold r2 in Hs.
      destruct r2 as [|e r3]; [exact I|]. simpl.
      destruct (not_lt e); [exact Hs | exact I].
    - pose proof (span_skipn not_lt r2) as Hs.
      destruct (skipn (span not_lt r2) r2) as [|e r3]; [exact I|].
      unfold not_lt in Hs. now destruct (is_line_terminator e). }
  apply opt_char_shape in E as [(r1 & Hr & E)|E].
  - cbn [set_cap advance rest] in Hr. subst r0.
    eapply (Shape _ [ch "."]) in E; [|now right|reflexivity].
    destruct E as (ws & text & tail & H1 & H2 & H3 & H4 & H5 & H6 & H7).
    exists c, [ch "."], ws, text, tail. unfold group. cbn [m_caps].
    repeat split; auto. now rewrite H1.
  - eapply (Shape _ []) in E; [|now left|reflexivity].
    destruct E as (ws & text & tail & H1 & H2 & H3 & H4 & H5 & H6 & H7).
    exists c, [], ws, text, tail. unfold group. cbn [m_caps].
    repeat split; auto. now rewrite H1.
Qed.

(** C3, as the code has it.  A line that matches the letter pattern (one
    capital letter, an optional dot, white space) and matches neither the
    roman-numeral pattern nor the heading pattern opens a subtopic at the
    end of the open section; with no section open it first opens one, whose
    title is the text after the marker.  The subtopic's title is the text
    after the marker, up to a line terminator if the line holds one,
    trimmed: for a trimmed line without line terminator, the line less its
    marker.  No section is closed or started. *)
Theorem letter_line_starts_subtopic (st : outline_state) (line : jstring)
    (letter : rmatch) :
  test flag_i romanRe line = false ->
  test no_flags headingRe line = false ->
  exec no_flags letterRe line = Some letter ->
  exists c dot ws text tail,
    line = c :: dot ++ ws ++ text ++ tail
    /\ in_range (ch "A") (ch "Z") c = true
    /\ (dot = [] \/ dot = [ch "."])
    /\ ws <> [] /\ forallb is_space ws = true
    /\ forallb not_lt text = true
    /\ match tail with e :: _ => is_line_terminator e = true | [] => True end
    /\ (trim line = line -> tail = [] -> trim text = text)
    /\ let sub := {| op_title := trim text; op_points := [] |} in
       let cur := match current st with
                  | Some c => c
                  | None => {| os_title := text; os_subtopics := [] |}
                  end in
       outline_step st line
       = {| sections := sections st;
            current := Some {| os_title := os_title cur;
                               os_subtopics := os_subtopics cur ++ [sub] |};
            currentSub := Some (length (os_subtopics cur)) |}
       /\ starts_subtopic st (trim text) (outline_step st line).
Proof.
  intros Hr Hh Hl.
  destruct (letter_match_shape line letter Hl)
    as (c & dot & ws & text & tail & E & G & Hc & Hd & Hw & Hs & Ht & Hx & Hy).
  exists c, dot, ws, text, tail. repeat (split; [assumption|]). split.
  { intros Htrim ->. rewrite app_nil_r in E.
    apply (trim_part (c :: dot ++ ws) text); [|exact Hx].
    change ((c :: dot ++ ws) ++ text) with (c :: (dot ++ ws) ++ text).
    rewrite <- app_assoc, <- E. exact Htrim. }
  intros sub cur.
  assert (Es : outline_step st line
    = {| sections := sections st;
         current := Some {| os_title := os_title cur;
                            os_subtopics := os_subtopics cur ++ [sub] |};
         currentSub := Some (length (os_subtopics cur)) |}).
  { unfold outline_step. rewrite Hr, Hh, Hl, G. reflexivity. }
  split; [exact Es|]. rewrite Es. split; [reflexivity|].
  eexists; exists (os_subtopics cur). repeat split.
  subst cur. destruct (current st); simpl; auto.
Qed.

Lemma letter_line_starts_subtopic_witness :
  exists c dot ws text tail,
    str "A. Background" = c :: dot ++ ws ++ text ++ tail
    /\ in_range (ch "A") (ch "Z") c = true
    /\ (dot = [] \/ dot = [ch "."])
    /\ ws <> [] /\ forallb is_space ws = true
    /\ forallb not_lt text = true
    /\ match tail with e :: _ => is_line_terminator e = true | [] => True end
    /\ (trim (str "A. Background") = str "A. Background" -> tail = [] ->
        trim text = text)
    /\ let sub := {| op_title := trim text; op_points := [] |} in
       let cur := {| os_title := text; os_subtopics := [] |} in
       outline_step outline_init (str "A. Background")
       = {| sections := [];
            current := Some {| os_title := os_title cur;
                               os_subtopics := os_subtopics cur ++ [sub] |};
            currentSub := Some (length (os_subtopics cur)) |}
       /\ starts_subtopic outline_init (trim text)
            (outline_step outline_init (str "A. Background")).
Proof.
  refine (letter_line_starts_subtopic outline_init (str "A. Background")
    {| m_index := 0; m_end := 13; m_text := str "A. Background"; m_after := [];
       m_caps := [(2, str "Background"); (1, str "A")] |} _ _ _).
  - vm_compute. reflexivity.
  - vm_compute. reflexivity.
  - vm_compute. reflexivity.
Defined.

(** C3 as stated fails.  A line with a capital letter and a dot that is a
    roman numeral starts a section and no subtopic; and the letter pattern
    asks for white space after the marker, so a line without it starts
    nothing. *)
Lemma letter_line_starts_section :
  roman_line <> [] /\ trim roman_line = roman_line
  /\ letter_dot_prefix roman_line = true
  /\ starts_section outline_init (str "Intro")
       (outline_step outline_init roman_line)
  /\ ~ (exists title,
         starts_subtopic outline_init title
           (outline_step outline_init roman_line))
  /\ trim tight_line = tight_line /\ letter_dot_prefix tight_line = true
  /\ outline_step outline_init tight_line = outline_init.
Proof.
  split; [discriminate|]. split; [vm_compute; reflexivity|].
  split; [vm_compute; reflexivity|]. split; [|split].
  - vm_compute. repeat split.
  - intros (title & _ & cur & before & Hc & Hs & _).
    vm_compute in Hc. injection Hc as <-. simpl in Hs.
    destruct before; discriminate.
  - vm_compute. repeat split.
Qed.

End OutlineFacts.
(** ** The server route *)

Module ServerFacts.

Import Index Server.

Lemma upstreamPrompt_shape (type content : jstring) :
  upstreamPrompt type content
  = promptHead type ++ truncate content ++ [NL; NL] ++ promptTail type.
Proof.
  unfold upstreamPrompt, getPromptForType, basePrompt, promptHead.
  now rewrite <- !app_assoc.
Qed.

(** C6.  Extracted text longer than 12,000 code units goes upstream as its
    first 12,000 code units followed by the truncation marker; text of at
    most 12,000 code units goes upstream unchanged.  Either way it sits in
    the prompt between the fixed head and the instructions of the kind. *)
Theorem truncation_spec (type content : jstring) :
  (12000 < length content ->
     truncate content = firstn 12000 content ++ truncationMarker
     /\ length (firstn 12000 content) = 12000
     /\ upstreamPrompt type content
        = promptHead type ++ (firstn 12000 content ++ truncationMarker)
          ++ [NL; NL] ++ promptTail type)
  /\ (length content <= 12000 ->
     truncate content = content
     /\ upstreamPrompt type content
        = promptHead type ++ content ++ [NL; NL] ++ promptTail type).
Proof.
  rewrite upstreamPrompt_shape. unfold truncate, substring0, maxLength.
  split; intros H.
  - apply Nat.ltb_lt in H as H'. rewrite H'. repeat split.
    apply firstn_length_le. apply Nat.lt_le_incl. exact H.
  - apply Nat.ltb_ge in H. rewrite H. split; reflexivity.
Qed.

Lemma truncation_spec_witness :
  truncate (repeat (ch "a") 12001)
  = firstn 12000 (repeat (ch "a") 12001) ++ truncationMarker
  /\ truncate (str "short text") = str "short text".
Proof.
  split.
  - apply (proj1 (truncation_spec [] (repeat (ch "a") 12001))).
    apply Nat.ltb_lt. vm_compute. reflexivity.
  - apply (proj2 (truncation_spec [] (str "short text"))).
    apply Nat.leb_le. vm_compute. reflexivity.
Defined.

Section LoopFacts.

Variable C : Type.
Variable create : jstring -> attempt C.

Lemma try_models_trace (ms : list jstring) :
  ms <> [] -> forall lastError,
  let r := try_models create ms lastError in
  exists pre model post,
    ms = pre ++ model :: post
    /\ tried r = pre ++ [model]
    /\ Forall (access_failure create) pre
    /\ match ending r with
       | Success c => create model = Completed c
       | Thrown e =>
           create model = Failed e
           /\ (access_error e = false \/ post = [])
       end.
Proof.
  induction ms as [|model tl IH]; [congruence|]. intros _ lastError. simpl.
  destruct (create model) as [c|e] eqn:Hc.
  - exists [], model, tl. simpl. repeat split; auto.
  - destruct (access_error e) eqn:Ha; simpl.
    + destruct tl as [|m2 tl].
      * exists [], model, []. simpl. rewrite Hc. repeat split; auto.
      * destruct (IH ltac:(discriminate) (Some e)) as (pre & m' & post & E & T & F & M).
        exists (model :: pre), m', post.
        change ((model :: pre) ++ [m']) with (model :: (pre ++ [m'])).
        rewrite <- T. repeat split; auto.
        -- simpl. now rewrite <- E.
        -- constructor; [exists e; auto | exact F].
    + exists [], model, tl. simpl. rewrite Hc. repeat split; auto.
Qed.

(** C5.  The generation call goes through the fixed model list in order and
    stops at the first success.  Every model tried before the last one
    failed with an access error (status 403 or code model_not_found); the
    last one tried either succeeded, or failed with another error, which is
    thrown at once, or was the last of the list, whose access error is
    thrown once the list is used up. *)
Theorem generate_fallback_policy :
  let r := generate create in
  exists pre model post,
    models = pre ++ model :: post
    /\ tried r = pre ++ [model]
    /\ Forall (access_failure create) pre
    /\ match ending r with
       | Success c => create model = Completed c
       | Thrown e =>
           create model = Failed e
           /\ (access_error e = false \/ post = [])
       end.
Proof.
  apply try_models_trace. discriminate.
Qed.

End LoopFacts.

End ServerFacts.

(** ** The worked examples of the specification *)

Module Examples.

Import Index.

(** C7.  Cleanup then extraction on the two-card text gives exactly two
    flashcards, in the order of the input, each question and answer free of
    its label and of surrounding white space. *)
Theorem flashcards_example :
  formatFlashcards
    (text_lines ["Question: What is X?"; "Answer: X is Y."; "";
                 "Question: What is Z?"; "Answer: Z is W."]%string)
  = Some [ {| question := str "What is X?"; answer := str "X is Y." |};
           {| question := str "What is Z?"; answer := str "Z is W." |} ].
Proof. vm_compute. reflexivity. Qed.

(** C8.  The outline parser on the five-line outline gives exactly two
    sections: the first with one subtopic holding two points, the second
    with no subtopic. *)
Theorem outline_example :
  parseOutline
    (text_lines ["I. Intro"; "A. Background"; "1. Point one"; "2. Point two";
                 "II. Body"]%string)
  = [ {| os_title := str "Intro";
         os_subtopics :=
           [ {| op_title := str "Background";
                op_points := [str "Point one"; str "Point two"] |} ] |};
      {| os_title := str "Body"; os_subtopics := [] |} ].
Proof. vm_compute. reflexivity. Qed.

(** C9.  The key-points extractor on the four-line text gives the first line
    as intro and exactly two bullets, the second one continued by the last
    line after a single space. *)
Theorem keypoints_example :
  extractKeyPoints
    (text_lines ["Some intro text."; "- First point";
                 "- Second point continues"; "  here."]%string)
  = {| intro := str "Some intro text.";
       bullets := [str "First point"; str "Second point continues here."] |}.
Proof. vm_compute. reflexivity. Qed.

End Examples.
(** ** cleanContent: what is left of the text *)

Module CleanMore.

Import Index CleanFacts.

Lemma subseq_refl s : subseq s s.
Proof. induction s; [apply sub_nil | now apply sub_keep]. Qed.

Lemma subseq_nil t : subseq [] t.
Proof. induction t; [apply sub_nil | now apply sub_skip]. Qed.

Lemma subseq_trans s t u : subseq s t -> subseq t u -> subseq s u.
Proof.
  intros H1 H2. revert s H1. induction H2; intros s' H1.
  - exact H1.
  - apply sub_skip. now apply IHsubseq.
  - inversion H1; subst.
    + apply sub_skip. now apply IHsubseq.
    + apply sub_keep. now apply IHsubseq.
Qed.

Lemma subseq_app s1 t1 s2 t2 :
  subseq s1 t1 -> subseq s2 t2 -> subseq (s1 ++ s2) (t1 ++ t2).
Proof.
  intros H1 H2. induction H1; simpl; [exact H2 | now apply sub_skip | now apply sub_keep].
Qed.

Lemma subseq_suffix pre s : subseq s (pre ++ s).
Proof. induction pre; simpl; [apply subseq_refl | now apply sub_skip]. Qed.

Lemma subseq_prefix s post : subseq s (s ++ post).
Proof.
  rewrite <- (app_nil_r s) at 1. apply subseq_app; [apply subseq_refl | apply subseq_nil].
Qed.

Lemma subseq_length s t : subseq s t -> length s <= length t.
Proof. induction 1; simpl; lia. Qed.

Lemma match_at_parts f r p s i mt :
  match_at f r p s i = Some mt ->
  exists b, s = b ++ m_after mt /\ m_index mt = i /\ length b = m_end mt - i.
Proof.
  unfold match_at. destruct (m f r _ Some) as [y|] eqn:E; [|discriminate].
  intros [= <-]. cbn [m_after m_index m_end].
  apply m_forward in E as (y' & [= ->] & P & L & pre & R). cbn [rest pos] in *.
  exists pre. repeat split; [exact R|].
  apply (f_equal (@length char)) in R. rewrite length_app in R. lia.
Qed.

Lemma scan_parts f r s : forall p i mt,
  scan f r p s i = Some mt ->
  exists a b, s = a ++ b ++ m_after mt /\ length a = m_index mt - i
              /\ length b = m_end mt - m_index mt.
Proof.
  induction s as [|c tl IH]; intros p i mt; cbn [scan];
    destruct (match_at f r p _ i) as [mt'|] eqn:E; try discriminate.
  - intros [= <-]. apply match_at_parts in E as (b & E1 & E2 & E3).
    exists [], b. rewrite E2, Nat.sub_diag. repeat split; auto.
  - intros [= <-]. apply match_at_parts in E as (b & E1 & E2 & E3).
    exists [], b. rewrite E2, Nat.sub_diag. repeat split; auto.
  - intros H. pose proof (scan_index_ge _ _ _ _ _ _ H) as Hge.
    apply IH in H as (a & b & E1 & E2 & E3).
    exists (c :: a), b. rewrite E1 at 1. repeat split; auto. simpl. lia.
Qed.

Lemma replace_parts f r rep s :
  replace f r rep s = s
  \/ exists a b after, s = a ++ b ++ after /\ replace f r rep s = a ++ rep ++ after.
Proof.
  unfold replace, exec. destruct (scan f r None s 0) as [mt|] eqn:E; [|now left].
  right. apply scan_parts in E as (a & b & E1 & E2 & E3).
  exists a, b, (m_after mt). split; [exact E1|].
  rewrite Nat.sub_0_r in E2. rewrite <- E2, E1 at 1.
  now rewrite firstn_app, firstn_all, Nat.sub_diag, firstn_O, app_nil_r.
Qed.

Lemma replace_subseq f r s : subseq (replace f r [] s) s.
Proof.
  destruct (replace_parts f r [] s) as [->|(a & b & after & E1 & ->)];
    [apply subseq_refl|].
  rewrite E1. apply subseq_app; [apply subseq_refl|]. simpl. apply subseq_suffix.
Qed.

Lemma skipn_subseq n s : subseq (skipn n s) s.
Proof.
  rewrite <- (firstn_skipn n s) at 2. apply subseq_suffix.
Qed.

Lemma trim_subseq s : subseq (trim s) s.
Proof.
  unfold trim.
  destruct (trim_start_suffix s) as [ws Es].
  destruct (trim_end_prefix (trim_start s)) as [ws' Ee].
  apply (subseq_trans _ (trim_start s)).
  - rewrite Ee at 2. apply subseq_prefix.
  - rewrite Es at 2. apply subseq_suffix.
Qed.

Lemma collapse_go_subseq_upto n : forall s, length s <= n ->
  forall skip, subseq (collapse_go skip s) s.
Proof.
  induction n as [|n IH]; intros s Hn skip.
  - destruct s; [apply sub_nil | simpl in Hn; lia].
  - destruct s as [|c tl]; [apply sub_nil|]. simpl in Hn.
    cbn [collapse_go]. destruct skip as [|sk]; [|apply sub_skip, IH; lia].
    destruct (3 <=? lead (c :: tl)) eqn:H3; [|apply sub_keep, IH; lia].
    apply Nat.leb_le in H3. cbn [lead] in *.
    destruct (N.eqb_spec c NL) as [->|]; [|lia].
    destruct tl as [|d tl]; [simpl in H3; lia|]. cbn [lead] in *.
    destruct (N.eqb_spec d NL) as [->|]; [|lia].
    apply sub_keep, sub_keep.
    replace (S (S (lead tl)) - 1) with (S (lead tl)) by lia.
    cbn [collapse_go]. apply IH. simpl in Hn. lia.
Qed.

Lemma collapse_go_subseq s skip : subseq (collapse_go skip s) s.
Proof. exact (collapse_go_subseq_upto (length s) s (le_n _) skip). Qed.

Lemma strip_preambles_subseq ps : forall s,
  subseq (fold_left (fun cleaned rx => replace flag_i rx [] cleaned) ps s) s.
Proof.
  induction ps as [|rx ps IH]; intros s; simpl; [apply subseq_refl|].
  eapply subseq_trans; [apply IH | apply replace_subseq].
Qed.

(** X1. cleanContent only deletes: the cleaned text is the content with some
    of its characters taken out, none added, none changed, none moved. *)
Theorem cleanContent_only_deletes x t : subseq (cleanContent x t) x.
Proof.
  destruct x as [|c x]; [apply sub_nil|].
  rewrite cleanContent_shape by discriminate.
  eapply subseq_trans; [apply trim_subseq|].
  eapply subseq_trans; [apply collapse_go_subseq|].
  eapply subseq_trans; [apply trim_subseq|].
  eapply subseq_trans; [apply replace_subseq|].
  eapply subseq_trans; [|apply strip_preambles_subseq].
  unfold cut_at_marker. destruct (_ <? _)%Z; [apply skipn_subseq | apply subseq_refl].
Qed.

(** X2. cleanContent gives a text in normal form: trimmed, and without a run
    of three newlines, so that the newline rule has nothing left to do. *)
Theorem cleanContent_normal_form x t :
  trim (cleanContent x t) = cleanContent x t
  /\ has_run3 (cleanContent x t) = false
  /\ test no_flags newlinesRe (cleanContent x t) = false.
Proof.
  destruct (cleanContent_trimmed x t) as [T R]. repeat split; auto.
  now apply test_newlines.
Qed.

(** X3. cleanContent leaves no closing remark: the closing-remark pattern
    does not match the cleaned text, which contains none of its phrases. *)
Theorem cleanContent_drops_closing x t :
  test flag_i trailingRe (cleanContent x t) = false
  /\ has_phrase (cleanContent x t) = false.
Proof.
  pose proof (cleanContent_no_closing x t) as H. split; [exact H|].
  now apply test_trailing.
Qed.

End CleanMore.

(** ** parseOutline: counting and order *)

Module OutlineMore.

Import Index.

Lemma list_sum_app' a b : list_sum (a ++ b) = list_sum a + list_sum b.
Proof. induction a; simpl; lia. Qed.

Lemma points_in_app a b : points_in (a ++ b) = points_in a + points_in b.
Proof. unfold points_in. now rewrite map_app, list_sum_app'. Qed.

Lemma points_of_push_subtopic sub c :
  points_of (push_subtopic sub c) = points_of c + length (op_points sub).
Proof. unfold points_of, push_subtopic. simpl. rewrite map_app, list_sum_app'. simpl. lia. Qed.

Lemma alter_nth_points p : forall subs i, i < length subs ->
  list_sum (map (fun q => length (op_points q)) (alter_nth (push_point p) i subs))
  = S (list_sum (map (fun q => length (op_points q)) subs)).
Proof.
  induction subs as [|a subs IH]; intros i Hi; [simpl in Hi; lia|].
  destruct i as [|i]; simpl.
  - rewrite length_app. simpl. lia.
  - rewrite IH by (simpl in Hi; lia). lia.
Qed.

Lemma alter_nth_length {A} (g : A -> A) : forall l i, length (alter_nth g i l) = length l.
Proof. induction l as [|a l IH]; intros [|i]; simpl; auto. Qed.

Lemma points_in_single c : points_in [c] = points_of c.
Proof. unfold points_in. simpl. lia. Qed.

Lemma points_of_alter p i c : i < length (os_subtopics c) ->
  points_of {| os_title := os_title c;
               os_subtopics := alter_nth (push_point p) i (os_subtopics c) |}
  = S (points_of c).
Proof. intros H. unfold points_of. simpl. now apply alter_nth_points. Qed.

Lemma outline_step_counts st line :
  aliased st ->
  aliased (outline_step st line)
  /\ pts (outline_step st line)
     = pts st + (if is_kind PointLine line then 1 else 0)
  /\ secs (outline_step st line)
     = secs st + match kind_of line with
                 | SectionLine => 1
                 | OtherLine => 0
                 | _ => match current st with None => 1 | Some _ => 0 end
                 end
  /\ (kind_of line <> OtherLine -> current (outline_step st line) <> None)
  /\ (kind_of line = OtherLine -> outline_step st line = st).
Proof.
  intros Hal. unfold is_kind, kind_of, outline_step, pts, secs, close_current.
  destruct (test flag_i romanRe line || test no_flags headingRe line).
  { cbn [current sections currentSub aliased]. unfold aliased in Hal.
    destruct (current st) as [c|]; repeat split; try discriminate; auto;
      rewrite ?points_in_app, ?length_app; simpl; try lia; try congruence.
    all: unfold points_in; simpl; try lia. }
  destruct (exec no_flags letterRe line) as [letter|].
  { cbn [current sections currentSub aliased]. unfold aliased in Hal.
    destruct (current st) as [c|]; repeat split; try discriminate;
      rewrite ?points_in_app, ?length_app; cbn [os_subtopics push_subtopic];
      rewrite ?length_app; simpl; try lia; try congruence.
    all: unfold points_in; simpl; rewrite ?points_of_push_subtopic; simpl; lia. }
  assert (Hpoint :
    let cur := match current st with
               | Some c => c
               | None => {| os_title := str "Outline"; os_subtopics := [] |}
               end in
    forall cur' i,
    (cur', i) = match currentSub st with
                | Some i => (cur, i)
                | None => (push_subtopic {| op_title := str "Details"; op_points := [] |} cur,
                           length (os_subtopics cur))
                end ->
    S i = length (os_subtopics cur') /\ points_of cur' = points_of cur).
  { intros cur cur' i E. unfold aliased in Hal. subst cur.
    destruct (current st) as [c|], (currentSub st) as [j|]; injection E as -> ->;
      try (split; [assumption | reflexivity]);
      try (destruct Hal; discriminate);
      (split; [cbn [push_subtopic os_subtopics]; rewrite length_app; simpl; lia|]);
      rewrite ?points_of_push_subtopic; simpl; try lia; reflexivity. }
  destruct (exec no_flags numberedRe line) as [n|] eqn:En;
    [|destruct (exec no_flags bulletRe line) as [n|] eqn:Eb].
  3: { repeat split; auto; try lia. }
  all: cbv zeta in Hpoint;
    destruct (match currentSub st with Some i => _ | None => _ end) as [cur' i] eqn:Ec;
    destruct (Hpoint cur' i eq_refl) as [Hi Hp];
    cbn [current sections currentSub aliased os_subtopics];
    repeat split; try discriminate; try congruence.
  all: try (rewrite alter_nth_length; exact Hi).
  all: try (rewrite points_in_app, points_in_single, points_of_alter by lia;
            rewrite Hp; unfold aliased in Hal;
            destruct (current st) as [c|];
            [rewrite points_in_app, points_in_single; lia
            |destruct Hal as [_ ->]; unfold points_of; simpl; lia]).
  all: rewrite length_app; unfold aliased in Hal; destruct (current st);
       [rewrite length_app; simpl; lia | simpl; lia].
Qed.

Lemma fold_aliased lines : forall st, aliased st ->
  aliased (fold_left outline_step lines st).
Proof.
  induction lines as [|l lines IH]; intros st H; simpl; auto.
  apply IH. now apply outline_step_counts.
Qed.

Lemma aliased_init : aliased outline_init.
Proof. split; reflexivity. Qed.

Lemma count_kind_cons k l lines :
  count_kind k (l :: lines) = (if is_kind k l then 1 else 0) + count_kind k lines.
Proof. unfold count_kind. simpl. now destruct (is_kind k l). Qed.

Lemma fold_pts lines : forall st, aliased st ->
  pts (fold_left outline_step lines st) = pts st + count_kind PointLine lines.
Proof.
  induction lines as [|l lines IH]; intros st H.
  - simpl. unfold count_kind. simpl. lia.
  - destruct (outline_step_counts st l H) as (Ha & Hp & _).
    simpl. rewrite (IH _ Ha), Hp, count_kind_cons. lia.
Qed.

Lemma fold_secs_open lines : forall st, aliased st -> current st <> None ->
  secs (fold_left outline_step lines st) = secs st + count_kind SectionLine lines.
Proof.
  induction lines as [|l lines IH]; intros st H Hc.
  - simpl. unfold count_kind. simpl. lia.
  - destruct (outline_step_counts st l H) as (Ha & _ & Hs & Hn & Ho).
    simpl. rewrite count_kind_cons. unfold is_kind.
    destruct (kind_of l) eqn:K.
    4: { rewrite (Ho eq_refl). rewrite (IH st H Hc). lia. }
    all: rewrite (IH _ Ha) by (apply Hn; discriminate); rewrite Hs;
      destruct (current st); try congruence; lia.
Qed.

Lemma fold_secs lines : forall st, aliased st -> current st = None ->
  secs (fold_left outline_step lines st)
  = secs st + count_kind SectionLine lines + opens_default lines.
Proof.
  induction lines as [|l lines IH]; intros st H Hc.
  - simpl. unfold count_kind. simpl. lia.
  - destruct (outline_step_counts st l H) as (Ha & _ & Hs & Hn & Ho).
    simpl. rewrite count_kind_cons. unfold is_kind.
    destruct (kind_of l) eqn:K.
    4: { rewrite (Ho eq_refl). rewrite (IH st H Hc). lia. }
    all: rewrite (fold_secs_open _ _ Ha) by (apply Hn; discriminate); rewrite Hs;
      rewrite ?Hc; lia.
Qed.

(** X4. parseOutline: every point line gives one point and nothing else
    does; every section line gives one section, and one more section is
    opened when the first line that is not ignored is a letter or a point
    line. *)
Theorem parseOutline_counts text :
  points_in (parseOutline text) = count_kind PointLine (outline_lines text)
  /\ length (parseOutline text)
     = count_kind SectionLine (outline_lines text) + opens_default (outline_lines text).
Proof.
  unfold parseOutline. split.
  - exact (fold_pts _ _ aliased_init).
  - exact (fold_secs _ _ aliased_init eq_refl).
Qed.

Lemma fold_ignores lines : forall st, aliased st ->
  fold_left outline_step lines st
  = fold_left outline_step (filter (fun l => negb (is_kind OtherLine l)) lines) st.
Proof.
  induction lines as [|l lines IH]; intros st H; [reflexivity|].
  destruct (outline_step_counts st l H) as (Ha & _ & _ & _ & Ho).
  cbn [filter fold_left]. unfold is_kind.
  destruct (kind_of l) eqn:K; cbn [negb fold_left]; auto.
  rewrite (Ho eq_refl). now apply IH.
Qed.

(** X5. parseOutline: the lines that are no section, letter or point line
    leave no trace: the outline is that of the text without them. *)
Theorem parseOutline_ignores_other_lines lines :
  sections_of lines
  = sections_of (filter (fun l => negb (is_kind OtherLine l)) lines).
Proof.
  unfold sections_of. now rewrite <- (fold_ignores lines _ aliased_init).
Qed.

Lemma alter_nth_last {A} (g : A -> A) : forall l a,
  alter_nth g (length l) (l ++ [a]) = l ++ [g a].
Proof. induction l as [|b l IH]; intros a; simpl; auto. now rewrite IH. Qed.

Lemma last_split {A} (l : list A) n : S n = length l ->
  exists l' a, l = l' ++ [a] /\ length l' = n.
Proof.
  intros H. destruct (exists_last (l:=l)) as (l' & a & ->).
  - intros ->. discriminate.
  - exists l', a. split; auto. rewrite length_app in H. simpl in H. lia.
Qed.

Lemma outline_step_fresh st line : fresh st -> fresh (outline_step st line).
Proof.
  intros H. unfold fresh, outline_step.
  destruct (test flag_i romanRe line || test no_flags headingRe line); [reflexivity|].
  destruct (exec no_flags letterRe line); [discriminate|].
  destruct (match exec no_flags numberedRe line with
            | Some n => Some n | None => exec no_flags bulletRe line end);
    [|exact H].
  destruct (currentSub st); discriminate.
Qed.

Lemma fold_fresh lines : forall st, fresh st ->
  fresh (fold_left outline_step lines st).
Proof.
  induction lines as [|l lines IH]; intros st H; simpl; auto.
  apply IH. now apply outline_step_fresh.
Qed.

Lemma on_last_snoc {A} (g : A -> A) dflt l a : on_last g dflt (l ++ [a]) = l ++ [g a].
Proof. unfold on_last. rewrite rev_app_distr. simpl. now rewrite rev_involutive. Qed.

(** X6. parseOutline: a point line adds its text at the end of the last
    subtopic of the last section read so far and changes nothing else: all
    the sections, subtopics and points read before are kept as they were.
    When the last section has no subtopic yet the point opens the subtopic
    "Details" in it, and when no section was read it opens the section
    "Outline". *)
Theorem point_line_appends lines line :
  kind_of line = PointLine ->
  sections_of (lines ++ [line])
  = append_point (point_text line) (sections_of lines).
Proof.
  intros K. unfold sections_of. rewrite fold_left_app. cbn [fold_left].
  pose proof (fold_aliased lines _ aliased_init) as Hal.
  pose proof (fold_fresh lines outline_init (fun _ => I)) as Hfr.
  set (st := fold_left outline_step lines outline_init) in *.
  unfold kind_of in K. unfold outline_step, point_text.
  destruct (test flag_i romanRe line || test no_flags headingRe line); [discriminate|].
  destruct (exec no_flags letterRe line); [discriminate|].
  set (n := match exec no_flags numberedRe line with
            | Some n => Some n | None => exec no_flags bulletRe line end) in *.
  assert (Hn : n <> None).
  { subst n. destruct (exec no_flags numberedRe line); [discriminate|].
    destruct (exec no_flags bulletRe line); [discriminate|]. discriminate. }
  destruct n as [n|]; [clear Hn K|congruence].
  set (p := if truthy (a_string (group 2 n)) then _ else _).
  unfold aliased in Hal. unfold fresh in Hfr. unfold close_current, append_point.
  destruct (current st) as [c|], (currentSub st) as [i|]; cbn [current sections].
  - destruct (last_split _ _ Hal) as (subs & sub & E & L).
    rewrite on_last_snoc. f_equal. f_equal. f_equal.
    rewrite E, <- L, alter_nth_last, on_last_snoc. reflexivity.
  - rewrite on_last_snoc. f_equal. f_equal.
    cbn [push_subtopic os_subtopics os_title]. rewrite (Hfr eq_refl). reflexivity.
  - destruct Hal; discriminate.
  - destruct Hal as [_ ->]. reflexivity.
Qed.

Lemma point_line_appends_witness :
  kind_of (str "- first") = PointLine
  /\ sections_of ([str "I. Intro"; str "A. Part"; str "1. zero"] ++ [str "- first"])
     = append_point (point_text (str "- first"))
         (sections_of [str "I. Intro"; str "A. Part"; str "1. zero"]).
Proof.
  split; [vm_compute; reflexivity|].
  apply (point_line_appends [str "I. Intro"; str "A. Part"; str "1. zero"] (str "- first")).
  vm_compute. reflexivity.
Defined.

End OutlineMore.

(** ** extractKeyPoints *)

Module KeyPointsFacts.

Import Index.

Lemma flush_trimmed buf out : Forall trimmed out -> Forall trimmed (flush buf out).
Proof.
  intros H. destruct buf; simpl; auto.
  apply Forall_app. split; auto. constructor; [|constructor]. apply trim_idem.
Qed.

Lemma flush_length buf out :
  length (flush buf out) = length out + match buf with [] => 0 | _ => 1 end.
Proof. destruct buf; simpl; rewrite ?length_app; simpl; lia. Qed.

Lemma keypoints_fold_trimmed lines : forall out buf, Forall trimmed out ->
  Forall trimmed (fst (fold_left keypoints_step lines (out, buf))).
Proof.
  induction lines as [|l lines IH]; intros out buf H; simpl; auto.
  destruct (test no_flags bulletMarkerRe l).
  - apply IH. now apply flush_trimmed.
  - destruct (truthy (trim l)); now apply IH.
Qed.

Lemma keypoints_fold_count lines : forall out buf, buf <> [] ->
  let st := fold_left keypoints_step lines (out, buf) in
  length (flush (snd st) (fst st)) = length out + 1 + markers lines.
Proof.
  induction lines as [|l lines IH]; intros out buf H; cbv zeta.
  - simpl. rewrite flush_length. destruct buf; [congruence|]. unfold markers. simpl. lia.
  - cbn [fold_left keypoints_step]. unfold markers. cbn [filter]. unfold is_marker at 1.
    destruct (test no_flags bulletMarkerRe l).
    + rewrite IH by discriminate. rewrite flush_length.
      destruct buf; [congruence|]. unfold markers. simpl. lia.
    + destruct (truthy (trim l)).
      * rewrite IH by (destruct buf; discriminate). reflexivity.
      * now rewrite IH.
Qed.

Lemma keypoints_fold_count_start lines : forall out,
  match lines with l :: _ => is_marker l = true | [] => True end ->
  let st := fold_left keypoints_step lines (out, []) in
  length (flush (snd st) (fst st)) = length out + markers lines.
Proof.
  intros out. destruct lines as [|l lines]; intros H; cbv zeta.
  - simpl. unfold markers. simpl. lia.
  - cbn [fold_left keypoints_step]. unfold markers. cbn [filter].
    unfold is_marker in H. unfold is_marker at 1. rewrite H.
    rewrite keypoints_fold_count by discriminate. simpl. unfold markers. lia.
Qed.

Lemma keypoints_fold_plain lines : forall out buf,
  markers lines = 0 ->
  fst (fold_left keypoints_step lines (out, buf)) = out.
Proof.
  induction lines as [|l lines IH]; intros out buf H; [reflexivity|].
  cbn [fold_left keypoints_step]. unfold markers in H. cbn [filter] in H.
  unfold is_marker at 1 in H.
  destruct (test no_flags bulletMarkerRe l); [discriminate H|].
  destruct (truthy (trim l)); now apply IH.
Qed.

Lemma findIndex_none {A} (pred : A -> bool) l :
  findIndex pred l = None -> filter pred l = [].
Proof.
  induction l as [|a l IH]; simpl; auto.
  destruct (pred a); [discriminate|].
  destruct (findIndex pred l); [discriminate|]. auto.
Qed.

Lemma findIndex_some {A} (pred : A -> bool) l : forall i,
  findIndex pred l = Some i ->
  filter pred (firstn i l) = []
  /\ match skipn i l with a :: _ => pred a = true | [] => False end.
Proof.
  induction l as [|a l IH]; simpl; intros i E; [discriminate|].
  destruct (pred a) eqn:Pa.
  - injection E as <-. simpl. now rewrite Pa.
  - destruct (findIndex pred l) as [j|]; [|discriminate].
    injection E as <-. simpl. rewrite Pa. now apply IH.
Qed.

Lemma markers_skipn i lines :
  filter is_marker (firstn i lines) = [] -> markers (skipn i lines) = markers lines.
Proof.
  intros H. unfold markers.
  rewrite <- (firstn_skipn i lines) at 2. now rewrite filter_app, H.
Qed.

(** X7. extractKeyPoints: the intro and every bullet are trimmed. *)
Theorem extractKeyPoints_trimmed text :
  trimmed (intro (extractKeyPoints text))
  /\ Forall trimmed (bullets (extractKeyPoints text)).
Proof.
  unfold extractKeyPoints. cbv zeta.
  set (lines := split no_flags lineBreakRe text).
  set (bl := match findIndex _ lines with Some i => skipn i lines | None => lines end).
  pose proof (keypoints_fold_trimmed bl [] [] (Forall_nil _)) as H.
  destruct (fold_left keypoints_step bl ([], [])) as [out buf]. simpl in *.
  split.
  - destruct (findIndex _ lines) as [[|i]|]; try reflexivity. apply trim_idem.
  - now apply flush_trimmed.
Qed.

(** X8. extractKeyPoints: when some line starts with a bullet marker, there
    is one bullet for each such line; when none does, there is no intro and
    at most one bullet, made of all the lines that are not blank. *)
Theorem extractKeyPoints_count text :
  let lines := split no_flags lineBreakRe text in
  let kp := extractKeyPoints text in
  match markers lines with
  | S _ => length (bullets kp) = markers lines
  | 0 => intro kp = []
         /\ bullets kp
            = match filter truthy (map trim lines) with
              | [] => []
              | ls => [trim (join (str " ") ls)]
              end
  end.
Proof.
  cbv zeta. unfold extractKeyPoints. cbv zeta.
  set (lines := split no_flags lineBreakRe text).
  change (test no_flags bulletMarkerRe) with is_marker.
  destruct (findIndex is_marker lines) as [i|] eqn:F.
  - apply findIndex_some in F as [Hpre Hfirst].
    pose proof (markers_skipn _ _ Hpre) as Hm.
    pose proof (keypoints_fold_count_start (skipn i lines) []) as Hc. cbv zeta in Hc.
    destruct (skipn i lines) as [|l bl] eqn:Sk; [contradiction|].
    specialize (Hc Hfirst).
    destruct (fold_left keypoints_step (l :: bl) ([], [])) as [out buf].
    cbn [fst snd length Nat.add] in Hc. rewrite <- Hm.
    unfold markers in *. cbn [filter] in *. rewrite Hfirst in *.
    cbn [length bullets] in *. exact Hc.
  - apply findIndex_none in F. unfold markers. rewrite F. cbn [length].
    assert (G : forall ls buf,
      filter is_marker ls = [] ->
      fold_left keypoints_step ls ([], buf)
      = ([], buf ++ filter truthy (map trim ls))).
    { induction ls as [|l ls IH]; intros buf Hf.
      - simpl. now rewrite app_nil_r.
      - cbn [fold_left keypoints_step map filter]. cbn [filter] in Hf.
        unfold is_marker at 1 in Hf.
        destruct (test no_flags bulletMarkerRe l); [discriminate|].
        destruct (truthy (trim l)).
        + rewrite IH by assumption. now rewrite <- app_assoc.
        + now apply IH. }
    rewrite (G lines [] F). simpl. split; [reflexivity|].
    now destruct (filter truthy (map trim lines)).
Qed.

End KeyPointsFacts.

(** ** Flashcards: white space and colons *)

Module FlashcardMore.

Import Index FlashcardFacts.

Lemma char_eq_caseless f c d :
  caseless c = true -> char_eq f c d = true -> d = c.
Proof.
  unfold caseless, char_eq, canon, in_range. intros Hc H.
  apply negb_true_iff, orb_false_iff in Hc as [U L].
  change (ch "A") with 65%N in U. change (ch "Z") with 90%N in U.
  change (ch "a") with 97%N in L. change (ch "z") with 122%N in L.
  rewrite L in H.
  destruct (icase f); [|apply N.eqb_eq in H; auto].
  destruct ((97 <=? d)%N && (d <=? 122)%N) eqn:D; apply N.eqb_eq in H; auto.
  apply andb_true_iff in D as [D1 D2]. apply N.leb_le in D1, D2.
  subst c. apply andb_false_iff in U as [U|U]; apply N.leb_gt in U; lia.
Qed.

Lemma forward_pre mr n x k z :
  forward mr n -> mr x k = Some z ->
  exists y pre, k y = Some z /\ rest x = pre ++ rest y.
Proof.
  intros H E. apply H in E as (y & E & _ & _ & pre & R). now exists y, pre.
Qed.

Lemma m_passes f c : caseless c = true ->
  forall r, needs c r = true -> passes c (m f r).
Proof.
  intros Hc. induction r; intros N x k z E; simpl in N; try discriminate.
  - simpl in E. destruct (rest x) as [|d tl] eqn:R; [discriminate|].
    destruct (char_eq f c0 d) eqn:Q; [|discriminate].
    apply N.eqb_eq in N. subst c0. apply (char_eq_caseless f c d Hc) in Q. subst d.
    exists (advance x c tl), [c]. repeat split; simpl; auto.
  - rewrite m_Seq in E. apply orb_true_iff in N as [N|N].
    + apply (IHr1 N) in E as (y1 & pre1 & E & R1 & I1).
      apply (forward_pre _ _ _ _ _ (m_forward f r2)) in E as (y & pre2 & E & R2).
      exists y, (pre1 ++ pre2). repeat split; auto.
      * now rewrite R1, R2, app_assoc.
      * apply in_or_app. now left.
    + apply (forward_pre _ _ _ _ _ (m_forward f r1)) in E as (y1 & pre1 & E & R1).
      apply (IHr2 N) in E as (y & pre2 & E & R2 & I2).
      exists y, (pre1 ++ pre2). repeat split; auto.
      * now rewrite R1, R2, app_assoc.
      * apply in_or_app. now right.
  - apply andb_true_iff in N as [N1 N2]. simpl in E.
    apply or_else_some in E as [E|[_ E]]; [now apply (IHr1 N1) | now apply (IHr2 N2)].
  - destruct lo as [|lo]; [discriminate|]. destruct hi; [discriminate|].
    rewrite m_Rep, rep_min_S in E. simpl in E.
    apply (IHr N) in E as (y1 & pre1 & E & R1 & I1).
    apply (forward_pre _ _ _ _ _ (rep_min_forward _ greedy _ (m_forward f r) lo None))
      in E as (y & pre2 & E & R2).
    exists y, (pre1 ++ pre2). repeat split; auto.
    + now rewrite R1, R2, app_assoc.
    + apply in_or_app. now left.
  - rewrite m_Grp in E. apply (IHr N) in E as (y & pre & E & R & I).
    eexists; exists pre. split; [exact E|]. split; auto.
Qed.

Lemma match_at_needs f c r p s i :
  caseless c = true -> needs c r = true -> ~ In c s -> match_at f r p s i = None.
Proof.
  intros Hc N Hs. unfold match_at.
  destruct (m f r _ Some) as [y|] eqn:E; [|reflexivity].
  apply (m_passes f c Hc r N) in E as (y' & pre & _ & R & I). simpl in R.
  exfalso. apply Hs. rewrite R. apply in_or_app. now left.
Qed.

Lemma scan_needs f c r :
  caseless c = true -> needs c r = true ->
  forall s p i, ~ In c s -> scan f r p s i = None.
Proof.
  intros Hc N. induction s as [|d tl IH]; intros p i Hs; simpl;
    rewrite (match_at_needs f c r _ _ _ Hc N Hs); auto.
  apply IH. intros H. apply Hs. now right.
Qed.

Lemma exec_loop_needs f c r :
  caseless c = true -> needs c r = true ->
  forall s p i, ~ In c s -> exec_loop f r 0 p s i = Some [].
Proof.
  intros Hc N. induction s as [|d tl IH]; intros p i Hs; simpl;
    rewrite (match_at_needs f c r _ _ _ Hc N Hs); auto.
  apply IH. intros H. apply Hs. now right.
Qed.

Lemma split_go_chars f r c : forall s skip cur p i piece,
  In piece (split_go f r skip cur p s i) -> In c piece -> In c cur \/ In c s.
Proof.
  induction s as [|d tl IH]; intros skip cur p i piece Hp Hc; simpl in Hp.
  - destruct Hp as [<-|[]]. left. now apply in_rev.
  - assert (Hnil : forall sk p' i',
      In piece (split_go f r sk [] p' tl i') -> In c cur \/ In c (d :: tl)).
    { intros sk p' i' H. destruct (IH _ _ _ _ _ H Hc) as [[]|H']. right. now right. }
    assert (Hone : forall p' i',
      In piece (split_go f r 0 [d] p' tl i') -> In c cur \/ In c (d :: tl)).
    { intros p' i' H. destruct (IH _ _ _ _ _ H Hc) as [[<-|[]]|H']; right; [now left|now right]. }
    assert (Hcur : piece = rev cur -> In c cur \/ In c (d :: tl)).
    { intros ->. left. now apply in_rev. }
    destruct skip as [|sk]; [|eauto].
    destruct (match_at f r p (d :: tl) i) as [mt|].
    + destruct (m_end mt - i) as [|n].
      * destruct cur as [|e cur]; [eauto|]. destruct Hp as [Hp|Hp]; eauto.
      * destruct Hp as [Hp|Hp]; eauto.
    + destruct (IH _ _ _ _ _ Hp Hc) as [[<-|H]|H]; auto.
      * right. now left.
      * right. now right.
Qed.

Lemma split_chars f r c s piece :
  In piece (split f r s) -> In c piece -> In c s.
Proof.
  unfold split. destruct s as [|d tl].
  - destruct (match_at f r None [] 0); intros []; [subst; auto | contradiction].
  - intros Hp Hc. destruct (split_go_chars f r c _ _ _ _ _ _ Hp Hc) as [[]|H]. exact H.
Qed.

Lemma patterns_need_colon : Forall (fun rx => needs (ch ":") rx = true) patterns.
Proof. repeat constructor. Qed.

Lemma pattern_cards_needs c cleaned : caseless c = true -> ~ In c cleaned ->
  forall ps, Forall (fun rx => needs c rx = true) ps ->
  pattern_cards ps cleaned = Some [].
Proof.
  intros Hc Hs. induction 1 as [|rx tl Hrx _ IH]; simpl; [reflexivity|].
  unfold exec_all. rewrite (exec_loop_needs flag_i c rx Hc Hrx _ _ _ Hs).
  now rewrite IH.
Qed.

(** X9. Flashcards: a text without a colon gives no card at all. *)
Theorem no_colon_no_flashcards cleaned :
  ~ In (ch ":") cleaned -> extractFlashcards cleaned = Some [].
Proof.
  intros Hs. unfold extractFlashcards.
  rewrite (pattern_cards_needs (ch ":") cleaned eq_refl Hs _ patterns_need_colon).
  f_equal. unfold fallback_cards.
  assert (H : forall section, In section (split no_flags blankLineRe cleaned) ->
                              fallback_card section = []).
  { intros section Hin. unfold fallback_card, exec.
    rewrite (scan_needs flag_i (ch ":") inlineQARe eq_refl eq_refl); [reflexivity|].
    intros Hc. apply Hs. exact (split_chars _ _ _ _ _ Hin Hc). }
  induction (split no_flags blankLineRe cleaned) as [|a l' IH]; [reflexivity|].
  simpl. rewrite (H a) by now left. apply IH. intros; apply H; now right.
Qed.

Lemma no_colon_no_flashcards_witness :
  extractFlashcards (str "Photosynthesis turns light into sugar") = Some [].
Proof.
  apply (no_colon_no_flashcards (str "Photosynthesis turns light into sugar")).
  vm_compute. intros H.
  repeat (destruct H as [H|H]; [discriminate H|]). exact H.
Defined.

Lemma candidate_trimmed mt : Forall trimmed_card (candidate mt).
Proof.
  unfold candidate. destruct (accepted _ _); constructor; [|constructor].
  split; apply trim_idem.
Qed.

Lemma pattern_cards_trimmed cleaned : forall ps found,
  pattern_cards ps cleaned = Some found -> Forall trimmed_card found.
Proof.
  induction ps as [|rx tl IH]; simpl; intros found E.
  - injection E as <-. constructor.
  - destruct (exec_all flag_i rx cleaned) as [ms|]; [|discriminate].
    destruct (pattern_cards tl cleaned) as [more|]; [|discriminate].
    injection E as <-. apply Forall_app. split; [|now apply IH].
    apply Forall_flat_map. apply Forall_forall. intros mt _. apply candidate_trimmed.
Qed.

Lemma fallback_cards_trimmed cleaned : Forall trimmed_card (fallback_cards cleaned).
Proof.
  unfold fallback_cards. apply Forall_flat_map. apply Forall_forall.
  intros section _. unfold fallback_card.
  destruct (exec flag_i inlineQARe section) as [mt|]; [|constructor].
  destruct (truthy _ && truthy _); constructor; [|constructor].
  split; apply trim_idem.
Qed.

(** X10. Flashcards: no question and no answer starts or ends with white
    space. *)
Theorem flashcards_trimmed content :
  exists cards, formatFlashcards content = Some cards /\ Forall trimmed_card cards.
Proof.
  unfold formatFlashcards, extractFlashcards.
  set (cleaned := cleanContent content Flashcards).
  destruct (pattern_cards_total cleaned patterns patterns_consume) as (found & E).
  rewrite E. pose proof (pattern_cards_trimmed _ _ _ E) as T.
  destruct found as [|c found]; eexists; (split; [reflexivity|]); auto.
  apply fallback_cards_trimmed.
Qed.

End FlashcardMore.

(** ** emphasizeKeywords *)

Module EmphasizeFacts.

Import Index IndexMore.

Lemma match_at_shape f r p s i mt :
  match_at f r p s i = Some mt ->
  m_index mt = i /\ m_text mt = firstn (m_end mt - i) s
  /\ i <= m_end mt <= i + length s.
Proof.
  intros E. pose proof (match_at_forward _ _ _ _ _ _ E) as [H1 H2].
  unfold match_at in E. destruct (m f r _ Some) as [y|]; [|discriminate].
  injection E as <-. simpl in *. repeat split; lia.
Qed.

Lemma skipn_slice a b (l : jstring) : a <= b -> b <= length l ->
  skipn a l = firstn (b - a) (skipn a l) ++ skipn b l.
Proof.
  intros H1 H2. rewrite <- (firstn_skipn (b - a) (skipn a l)) at 1.
  f_equal. rewrite skipn_skipn. f_equal. lia.
Qed.

Lemma emphasize_loop f r whole : forall s skip p i ms pre last,
  exec_loop f r skip p s i = Some ms ->
  whole = pre ++ s -> length pre = i -> last <= i + skip ->
  shown (emphasize_matches whole last ms) = skipn last whole
  /\ Forall (fun q => part_text q <> []) (emphasize_matches whole last ms).
Proof.
  assert (Hend : forall last,
    shown (emphasize_matches whole last []) = skipn last whole
    /\ Forall (fun q => part_text q <> []) (emphasize_matches whole last [])).
  { intros last. cbn [emphasize_matches].
    destruct (Nat.ltb_spec last (length whole)) as [H|H].
    - unfold shown, slice_from. simpl. rewrite app_nil_r. split; [reflexivity|].
      constructor; [|constructor]. simpl. intros E.
      apply (f_equal (@length _)) in E. rewrite length_skipn in E. simpl in E. lia.
    - split; [|constructor]. simpl. symmetry. now apply skipn_all2. }
  induction s as [|c tl IH]; intros skip p i ms pre last E W L Hl.
  - destruct skip as [|sk]; simpl in E.
    + destruct (match_at f r p [] i) as [mt|] eqn:M.
      * destruct (m_end mt - i); discriminate.
      * injection E as <-. apply Hend.
    + injection E as <-. apply Hend.
  - assert (W' : whole = (pre ++ [c]) ++ tl) by now rewrite <- app_assoc.
    assert (L' : length (pre ++ [c]) = S i) by (rewrite length_app; simpl; lia).
    destruct skip as [|sk]; cbn [exec_loop] in E.
    + destruct (match_at f r p (c :: tl) i) as [mt|] eqn:M.
      * destruct (match_at_shape _ _ _ _ _ _ M) as (Hi & Ht & Hlo & Hhi).
        destruct (m_end mt - i) as [|n] eqn:D; [discriminate|].
        destruct (exec_loop f r n (Some c) tl (S i)) as [ms'|] eqn:E'; [|discriminate].
        injection E as <-. cbn [emphasize_matches].
        assert (Hlen : length (m_text mt) = S n).
        { rewrite Ht. apply firstn_length_le. simpl in *. lia. }
        rewrite Hlen, Hi.
        destruct (IH n (Some c) (S i) ms' (pre ++ [c]) (i + S n) E' W' L'
                    ltac:(lia)) as [Sh Ne].
        assert (Hs : skipn i whole = c :: tl).
        { rewrite W, <- L. rewrite skipn_app, Nat.sub_diag, skipn_all. reflexivity. }
        assert (Hw : length whole = i + S (length tl)).
        { rewrite W, length_app. simpl. lia. }
        split.
        -- unfold shown in *. rewrite flat_map_app. cbn [flat_map part_text].
           rewrite Sh, Ht.
           replace (skipn (i + S n) whole) with (skipn (S n) (c :: tl))
             by (rewrite <- Hs, skipn_skipn; f_equal; lia).
           rewrite firstn_skipn.
           destruct (Nat.ltb_spec last i) as [H|H].
           ++ cbn [flat_map part_text]. rewrite app_nil_r. unfold slice.
              rewrite <- Hs. symmetry. apply skipn_slice; lia.
           ++ simpl. rewrite <- Hs. f_equal. lia.
        -- apply Forall_app. split.
           ++ destruct (Nat.ltb_spec last i) as [H|H]; [|constructor].
              constructor; [|constructor]. simpl. unfold slice. intros Z.
              apply (f_equal (@length _)) in Z.
              rewrite length_firstn, length_skipn in Z. simpl in Z. lia.
           ++ constructor; [|exact Ne]. simpl. intros Z.
              rewrite Z in Hlen. discriminate.
      * apply (IH 0 (Some c) (S i) ms (pre ++ [c]) last E W' L'). lia.
    + apply (IH sk (Some c) (S i) ms (pre ++ [c]) last E W' L'). lia.
Qed.

Lemma emphasize_part_shown rx : 1 <= min_len rx -> forall p,
  part_text p <> [] ->
  exists parts, emphasize_part rx p = Some parts
    /\ shown parts = part_text p
    /\ Forall (fun q => part_text q <> []) parts.
Proof.
  intros Hrx [s|s] Hp; simpl.
  - unfold exec_all.
    destruct (exec_loop_total flag_i rx Hrx s 0 None 0) as (ms & E). rewrite E.
    eexists. split; [reflexivity|].
    exact (emphasize_loop flag_i rx s s 0 None 0 ms [] 0 E eq_refl eq_refl (le_n _)).
  - eexists. split; [reflexivity|]. split; [unfold shown; simpl; apply app_nil_r|].
    constructor; [exact Hp | constructor].
Qed.

Lemma emphasize_parts_shown rx : 1 <= min_len rx -> forall parts,
  Forall (fun q => part_text q <> []) parts ->
  exists next, emphasize_parts rx parts = Some next
    /\ shown next = shown parts
    /\ Forall (fun q => part_text q <> []) next.
Proof.
  intros Hrx. induction 1 as [|p tl Hp _ IH]; simpl.
  - exists []. repeat split. constructor.
  - destruct (emphasize_part_shown rx Hrx p Hp) as (a & -> & Sa & Fa).
    destruct IH as (b & -> & Sb & Fb).
    exists (a ++ b). split; [reflexivity|]. split.
    + unfold shown in *. rewrite flat_map_app, Sa, Sb. reflexivity.
    + apply Forall_app. now split.
Qed.

Lemma emphasize_patterns_shown rxs :
  Forall (fun rx => 1 <= min_len rx) rxs -> forall parts,
  Forall (fun q => part_text q <> []) parts ->
  exists next, emphasize_patterns rxs parts = Some next
    /\ shown next = shown parts
    /\ Forall (fun q => part_text q <> []) next.
Proof.
  induction 1 as [|rx tl Hrx _ IH]; intros parts Hp; simpl.
  - exists parts. auto.
  - destruct (emphasize_parts_shown rx Hrx parts Hp) as (next & -> & S1 & F1).
    destruct (IH next F1) as (last & E & S2 & F2).
    exists last. rewrite E, S2, S1. auto.
Qed.

(** X11. emphasizeKeywords: the loop over the matches ends, the parts put
    end to end are the text, and no part is empty. *)
Theorem emphasizeKeywords_keeps_text text :
  exists parts, emphasizeKeywords text = Some parts
    /\ shown parts = text
    /\ Forall (fun q => part_text q <> []) parts.
Proof.
  unfold emphasizeKeywords, keywordPatterns.
  assert (Hk : Forall (fun rx => 1 <= min_len rx) [keywordRe]).
  { constructor; [|constructor]. vm_compute. lia. }
  destruct text as [|c text].
  - exists []. vm_compute. repeat split. constructor.
  - destruct (emphasize_patterns_shown [keywordRe] Hk [Plain (c :: text)]) as (parts & E & S & F).
    { constructor; [discriminate | constructor]. }
    exists parts. rewrite E. split; [reflexivity|]. split; [|exact F].
    rewrite S. unfold shown. simpl. now rewrite app_nil_r.
Qed.

End EmphasizeFacts.

(** ** The exports: escaping, file names, headings *)

Module ExportFacts.

Import Index IndexMore.

Lemma match_at_chr c p s i :
  match_at no_flags (Chr c) p s i
  = match s with
    | d :: tl =>
        if (c =? d)%N
        then Some {| m_index := i; m_end := S i; m_text := firstn (S i - i) s;
                     m_after := tl; m_caps := [] |}
        else None
    | [] => None
    end.
Proof.
  unfold match_at. cbn [m rest]. destruct s as [|d tl]; [reflexivity|].
  unfold char_eq. cbn [icase no_flags]. now destruct (c =? d)%N.
Qed.

Lemma replace_all_chr c rep : forall s p i,
  replace_all_go no_flags (Chr c) rep 0 p s i
  = flat_map (fun d => if (c =? d)%N then rep else [d]) s.
Proof.
  induction s as [|d tl IH]; intros p i; cbn [replace_all_go flat_map];
    rewrite match_at_chr; [reflexivity|].
  destruct (c =? d)%N; cbn [m_end].
  - replace (S i - i) with 1 by lia. now rewrite IH.
  - now rewrite IH.
Qed.

Lemma flat_map_flat_map {A B C} (g : A -> list B) (h : B -> list C) l :
  flat_map h (flat_map g l) = flat_map (fun a => flat_map h (g a)) l.
Proof. induction l as [|a l IH]; simpl; [reflexivity|]. now rewrite flat_map_app, IH. Qed.

Lemma escape_char_steps d :
  flat_map (fun d => if (ch ">" =? d)%N then str "&gt;" else [d])
    (flat_map (fun d => if (ch "<" =? d)%N then str "&lt;" else [d])
       (if (ch "&" =? d)%N then str "&amp;" else [d]))
  = escape_char d.
Proof.
  unfold escape_char. rewrite !(N.eqb_sym d).
  destruct (ch "&" =? d)%N eqn:A; [reflexivity|].
  cbn [flat_map app].
  destruct (ch "<" =? d)%N eqn:L; [reflexivity|].
  cbn [flat_map app].
  destruct (ch ">" =? d)%N eqn:G; reflexivity.
Qed.

Lemma escape_char_safe d c : In c (escape_char d) ->
  c <> ch "<" /\ c <> ch ">".
Proof.
  unfold escape_char.
  destruct (d =? ch "&")%N eqn:A;
    [|destruct (d =? ch "<")%N eqn:L; [|destruct (d =? ch ">")%N eqn:G]].
  4: { intros [<-|[]]. apply N.eqb_neq in L, G. auto. }
  all: cbn; intros H; repeat (destruct H as [<-|H]; [split; discriminate|]);
    contradiction.
Qed.

(** X12. escapeHtml: the three replacements in a row are one pass that
    turns each of the three characters into its entity, and leave no angle
    bracket. *)
Theorem escapeHtml_single_pass s :
  escapeHtml s = flat_map escape_char s
  /\ ~ In (ch "<") (escapeHtml s) /\ ~ In (ch ">") (escapeHtml s).
Proof.
  assert (E : escapeHtml s = flat_map escape_char s).
  { unfold escapeHtml, replace_all. rewrite !replace_all_chr.
    rewrite !flat_map_flat_map. apply flat_map_ext. intros d.
    rewrite <- escape_char_steps. now rewrite flat_map_flat_map. }
  rewrite E. split; [reflexivity|].
  split; intros H; apply in_flat_map in H as (d & _ & H);
    apply escape_char_safe in H; tauto.
Qed.

(* ---- baseName ---- *)

Lemma plus_chars f r P x k :
  char_matcher P (m f r) ->
  m f (plus r) x k
  = match rest x with
    | d :: tl => if P d then greedy_chars P k (Some d) tl (S (pos x)) (caps x)
                 else None
    | [] => None
    end.
Proof.
  intros Hm. unfold plus. rewrite m_Rep, rep_min_S. cbn [hi_zero hi_pred].
  rewrite Hm. destruct (rest x) as [|d tl]; [reflexivity|].
  destruct (P d); [|reflexivity].
  rewrite rep_min_0. cbn [hi_zero].
  now rewrite (rep_star_greedy_chars P _ Hm) by (simpl; lia).
Qed.

Lemma greedy_chars_eol P : forall s p i cs,
  greedy_chars P (fun y => m no_flags Eol y Some) p s i cs
  = if forallb P s
    then Some {| prev := fold_left (fun _ d => Some d) s p; rest := [];
                 pos := i + length s; caps := cs |}
    else None.
Proof.
  induction s as [|d tl IH]; intros p i cs.
  - simpl. now rewrite Nat.add_0_r.
  - cbn [greedy_chars forallb]. destruct (P d); cbn [andb].
    + rewrite IH. cbn [m at_eol rest multiline no_flags andb or_else].
      destruct (forallb P tl); cbn [or_else].
      * f_equal. f_equal. simpl. lia.
      * reflexivity.
    + reflexivity.
Qed.

Lemma cls_not_dot d : cls_match no_flags true [CChar (ch ".")] d = not_dot d.
Proof.
  unfold cls_match, not_dot. cbn [existsb item_match]. unfold char_eq.
  cbn [icase no_flags]. rewrite orb_false_r, N.eqb_sym. now destruct (d =? ch ".")%N.
Qed.

Lemma forallb_eq {A} (P Q : A -> bool) l :
  (forall a, P a = Q a) -> forallb P l = forallb Q l.
Proof. intros H. induction l as [|a l IH]; simpl; [reflexivity|]. now rewrite H, IH. Qed.

Lemma match_at_extension p s i :
  match_at no_flags extensionRe p s i
  = match s with
    | d :: e :: tl =>
        if (d =? ch ".")%N && forallb not_dot (e :: tl)
        then Some {| m_index := i; m_end := i + length s;
                     m_text := firstn (i + length s - i) s;
                     m_after := []; m_caps := [] |}
        else None
    | _ => None
    end.
Proof.
  unfold match_at, extensionRe. cbn [seq]. rewrite m_Seq, (m_chr_matcher no_flags).
  cbn [rest]. destruct s as [|d s]; [reflexivity|].
  unfold char_eq. cbn [icase no_flags]. rewrite N.eqb_sym.
  destruct (d =? ch ".")%N; [|now destruct s].
  rewrite m_Seq.
  rewrite (plus_chars no_flags _ (cls_match no_flags true [CChar (ch ".")]))
    by apply m_cls_matcher.
  cbn [advance rest pos caps]. destruct s as [|e tl]; [reflexivity|].
  rewrite cls_not_dot. cbn [andb forallb]. destruct (not_dot e); [|reflexivity].
  rewrite greedy_chars_eol.
  rewrite (forallb_eq _ not_dot tl cls_not_dot).
  destruct (forallb not_dot tl); [|reflexivity].
  cbn [andb pos rest caps length].
  replace (S (S i) + length tl) with (i + S (S (length tl))) by lia. reflexivity.
Qed.

Lemma match_at_extension_none p d t i :
  forallb not_dot t = false -> match_at no_flags extensionRe p (d :: t) i = None.
Proof.
  intros H. rewrite match_at_extension. destruct t; [reflexivity|].
  now rewrite H, andb_false_r.
Qed.

Lemma scan_extension ext : ext <> [] -> forallb not_dot ext = true ->
  forall base p i, exists mt,
  scan no_flags extensionRe p (base ++ ch "." :: ext) i = Some mt
  /\ m_index mt = i + length base /\ m_after mt = [].
Proof.
  intros He Hd. induction base as [|d base IH]; intros p i.
  - cbn [app scan]. rewrite match_at_extension. destruct ext as [|e tl]; [congruence|].
    rewrite N.eqb_refl, Hd. cbn [andb]. eexists. split; [reflexivity|].
    simpl. split; [lia | reflexivity].
  - cbn [app scan]. rewrite match_at_extension.
    assert (Hn : forallb not_dot (base ++ ch "." :: ext) = false).
    { rewrite forallb_app. cbn [forallb]. unfold not_dot at 2. rewrite N.eqb_refl.
      cbn. apply andb_false_r. }
    destruct (base ++ ch "." :: ext) as [|e tl] eqn:B.
    { destruct base; discriminate. }
    rewrite Hn, andb_false_r.
    destruct (IH (Some d) (S i)) as (mt & E & I & A).
    exists mt. rewrite E. repeat split; auto. simpl. lia.
Qed.

Lemma not_In_not_dot s : ~ In (ch ".") s <-> forallb not_dot s = true.
Proof.
  rewrite forallb_forall. unfold not_dot. split.
  - intros H d Hd. apply negb_true_iff, N.eqb_neq. intros ->. contradiction.
  - intros H Hd. apply H in Hd. now rewrite N.eqb_refl in Hd.
Qed.

Lemma scan_no_dot : forall s p i,
  forallb not_dot s = true -> scan no_flags extensionRe p s i = None.
Proof.
  induction s as [|d s IH]; intros p i Hs; cbn [scan]; rewrite match_at_extension;
    [reflexivity|].
  cbn [forallb] in Hs. apply andb_true_iff in Hs as [Hd Hs].
  unfold not_dot in Hd. apply negb_true_iff in Hd. rewrite Hd.
  destruct s; cbn [andb]; now apply IH.
Qed.

(** X13. The name of a download: the pattern takes off the last extension
    of the uploaded file's name, the dot included; a name that ends with a
    dot and a name without a dot are kept whole. *)
Theorem baseName_strips_last_extension base ext :
  ~ In (ch ".") ext ->
  baseName (base ++ ch "." :: ext)
  = match ext with [] => base ++ [ch "."] | _ => base end
  /\ baseName ext = ext.
Proof.
  intros Hd. apply not_In_not_dot in Hd. unfold baseName, replace, exec. split.
  - destruct ext as [|e tl].
    + assert (forall b p i, scan no_flags extensionRe p (b ++ [ch "."]) i = None) as ->;
        [|reflexivity].
      induction b as [|d b IH]; intros p i; cbn [app scan].
      * rewrite !match_at_extension. reflexivity.
      * rewrite match_at_extension_none; [apply IH|].
        rewrite forallb_app. cbn. now rewrite andb_false_r.
    + destruct (scan_extension (e :: tl) ltac:(discriminate) Hd base None 0)
        as (mt & -> & I & A).
      rewrite I, A. simpl. rewrite app_nil_r.
      rewrite firstn_app, Nat.sub_diag, firstn_all. simpl. apply app_nil_r.
  - now rewrite scan_no_dot.
Qed.


Lemma baseName_strips_last_extension_witness :
  baseName (str "lecture.notes" ++ ch "." :: str "pdf") = str "lecture.notes"
  /\ baseName (str "pdf") = str "pdf".
Proof.
  apply (baseName_strips_last_extension (str "lecture.notes") (str "pdf")).
  vm_compute. intros H.
  repeat (destruct H as [H|H]; [discriminate H|]). exact H.
Defined.

Lemma m_hashes n : forall x k,
  m no_flags (lit_chars (repeat (ch "#") (S n))) x k
  = if starts_with (repeat (ch "#") (S n)) (rest x)
    then k {| prev := Some (ch "#"); rest := skipn (S n) (rest x);
              pos := pos x + S n; caps := caps x |}
    else None.
Proof.
  induction n as [|n IH]; intros x k.
  - cbn [repeat lit_chars]. rewrite (m_chr_matcher no_flags).
    destruct (rest x) as [|d tl]; [reflexivity|].
    unfold char_eq. cbn [icase no_flags starts_with].
    destruct (ch "#" =? d)%N eqn:E; [|reflexivity].
    apply N.eqb_eq in E. subst d. cbn [andb]. unfold advance.
    destruct tl; cbn [skipn]; now rewrite Nat.add_1_r.
  - change (repeat (ch "#") (S (S n))) with (ch "#" :: repeat (ch "#") (S n)).
    change (lit_chars (ch "#" :: repeat (ch "#") (S n)))
      with (Seq (Chr (ch "#")) (lit_chars (repeat (ch "#") (S n)))).
    rewrite m_Seq, (m_chr_matcher no_flags).
    destruct (rest x) as [|d tl] eqn:R; [reflexivity|].
    unfold char_eq. cbn [icase no_flags starts_with].
    destruct (ch "#" =? d)%N eqn:E; [|reflexivity].
    rewrite IH. cbn [andb advance rest pos caps].
    destruct (starts_with (repeat (ch "#") (S n)) tl); [|reflexivity].
    f_equal. f_equal. lia.
Qed.

Lemma trim_start_span s : trim_start s = skipn (span is_space s) s.
Proof. induction s as [|d tl IH]; simpl; [reflexivity|]. now destruct (is_space d). Qed.

Lemma exec_hashRe n line :
  if starts_with (repeat (ch "#") (S n)) line && next_space (skipn (S n) line)
  then exists mt, exec no_flags (hashRe (S n)) line = Some mt
         /\ m_index mt = 0 /\ m_after mt = trim_start (skipn (S n) line)
  else exec no_flags (hashRe (S n)) line = None.
Proof.
  unfold hashRe. rewrite exec_bol by reflexivity.
  unfold match_at. cbn [m at_bol prev]. rewrite m_hashes. cbn [rest pos caps].
  destruct (starts_with (repeat (ch "#") (S n)) line); cbn [andb]; [|reflexivity].
  rewrite (plus_chars no_flags _ (cls_match no_flags false [CSpace]))
    by apply m_cls_matcher.
  cbn [rest pos caps]. unfold next_space.
  destruct (skipn (S n) line) as [|d tl]; [reflexivity|].
  rewrite cls_space. destruct (is_space d) eqn:Sd; [|reflexivity].
  destruct (greedy_chars_total (cls_match no_flags false [CSpace]) Some
              ltac:(discriminate) tl (Some d) (S (0 + S n)) []) as (p' & ->).
  eexists. split; [reflexivity|]. split; [reflexivity|]. cbn [m_after rest].
  rewrite (span_ext _ is_space tl cls_space).
  cbn [trim_start]. rewrite Sd. apply eq_sym, trim_start_span.
Qed.

Lemma is_space_hash d : is_space d = true -> (d =? ch "#")%N = false.
Proof.
  intros H. apply N.eqb_neq. intros ->. vm_compute in H. discriminate.
Qed.

Lemma hashes_test : forall n line,
  starts_with (repeat (ch "#") n) line && next_space (skipn n line)
  = (hashes line =? n) && next_space (skipn n line).
Proof.
  unfold hashes. induction n as [|n IH]; intros line.
  - cbn [repeat starts_with skipn andb]. destruct line as [|d tl]; [reflexivity|].
    cbn [next_space span]. destruct (is_space d) eqn:Sd; [|now rewrite andb_false_r].
    now rewrite (is_space_hash d Sd).
  - destruct line as [|d tl]; [reflexivity|].
    cbn [repeat starts_with skipn span]. rewrite (N.eqb_sym (ch "#") d).
    destruct (d =? ch "#")%N; cbn [andb]; [|reflexivity].
    rewrite IH. reflexivity.
Qed.

Lemma test_hashRe n line :
  test no_flags (hashRe (S n)) line
  = (hashes line =? S n) && next_space (skipn (S n) line).
Proof.
  rewrite <- hashes_test. unfold test. pose proof (exec_hashRe n line) as H.
  destruct (starts_with _ _ && next_space _).
  - now destruct H as (mt & -> & _).
  - now rewrite H.
Qed.

Lemma replace_hashRe n line :
  test no_flags (hashRe (S n)) line = true ->
  replace no_flags (hashRe (S n)) [] line = trim_start (skipn (S n) line).
Proof.
  intros T. pose proof (exec_hashRe n line) as H. unfold test in T. unfold replace.
  destruct (starts_with _ _ && next_space _).
  - destruct H as (mt & -> & I & A). now rewrite I, A.
  - rewrite H in T. discriminate.
Qed.

(** X14. exportDocx: a line is a heading exactly when it starts with one,
    two or three hashes followed by white space, which give the levels
    TITLE, HEADING_1 and HEADING_2; the text of a heading is the line after
    the hashes and the white space; from four hashes on a line is an
    ordinary paragraph. *)
Theorem docxParagraph_headings line :
  p_heading (docxParagraph line) = heading_of line
  /\ p_text (docxParagraph line)
     = match heading_of line with
       | Some _ => trim_start (skipn (hashes line) line)
       | None => replace no_flags numberPrefixRe []
                   (replace no_flags bulletPrefixRe [] line)
       end.
Proof.
  unfold docxParagraph, heading_of.
  change headingRe with (hashRe 1). change heading2Re with (hashRe 2).
  change heading3Re with (hashRe 3).
  pose proof (replace_hashRe 0 line) as R1.
  pose proof (replace_hashRe 1 line) as R2.
  pose proof (replace_hashRe 2 line) as R3.
  rewrite !test_hashRe in *.
  destruct (hashes line) as [|[|[|[|h]]]]; cbn [Nat.eqb andb] in *.
  - now destruct (next_space _).
  - destruct (next_space _); cbn [p_heading p_text]; [rewrite R1|]; auto.
  - destruct (next_space _); cbn [p_heading p_text]; [rewrite R2|]; auto.
  - destruct (next_space _); cbn [p_heading p_text]; [rewrite R3|]; auto.
  - now destruct (next_space _).
Qed.

End ExportFacts.

(** ** The request handler and the browser *)

Module HandlerFacts.

Import Index IndexMore Server ServerMore ServerFacts.

Lemma jeqb_sym a : forall b, jeqb a b = jeqb b a.
Proof.
  induction a as [|x a IH]; intros [|y b]; simpl; auto.
  now rewrite N.eqb_sym, IH.
Qed.

Lemma truncate_length content :
  length (truncate content) <= maxLength + length truncationMarker.
Proof.
  unfold truncate, substring0.
  destruct (Nat.ltb_spec maxLength (length content)) as [H|H].
  - rewrite length_app, length_firstn. lia.
  - lia.
Qed.

(** X15. The text sent upstream is bounded: the file's text takes at most
    maxLength + 38 code units of the prompt, whatever the size of the file,
    and its first maxLength code units are those of the file. *)
Theorem upstream_prompt_bounded type content :
  length (truncate content) <= maxLength + 38
  /\ firstn maxLength (truncate content) = firstn maxLength content
  /\ length (upstreamPrompt type content)
     <= length (promptHead type) + (maxLength + 40) + length (promptTail type).
Proof.
  pose proof (truncate_length content) as L.
  change (length truncationMarker) with 38 in L.
  split; [exact L|]. split.
  - unfold truncate, substring0.
    destruct (Nat.ltb_spec maxLength (length content)) as [H|H]; [|reflexivity].
    rewrite firstn_app, firstn_firstn, length_firstn.
    replace (maxLength - Nat.min maxLength (length content)) with 0 by lia.
    rewrite Nat.min_id. simpl. apply app_nil_r.
  - rewrite upstreamPrompt_shape, !length_app.
    change (length [NL; NL]) with 2. lia.
Qed.

Lemma try_models_all_refused (C : Type) (cr : jstring -> attempt C) :
  (forall model, exists e, cr model = Failed e /\ status e = Some 403%Z) ->
  forall ms lastError, ms <> [] ->
  exists e, try_models cr ms lastError = {| tried := ms; ending := Thrown e |}
            /\ status e = Some 403%Z.
Proof.
  intros Hc. induction ms as [|model tl IH]; intros lastError Hn; [congruence|].
  cbn [try_models]. destruct (Hc model) as (e & -> & S).
  assert (A : access_error e = true) by (unfold access_error; now rewrite S).
  rewrite A. cbn [negb]. destruct tl as [|m2 tl].
  - cbn. exists e. now split.
  - destruct (IH (Some e) ltac:(discriminate)) as (e' & -> & S').
    exists e'. now split.
Qed.

Lemma trim_fixed s :
  match s with c :: _ => is_space c = false | [] => True end ->
  match rev s with d :: _ => is_space d = false | [] => True end ->
  trim s = s.
Proof.
  intros Hh Hl. unfold trim, trim_end.
  rewrite (trim_start_fixed s Hh), (trim_start_fixed (rev s) Hl). apply rev_involutive.
Qed.

Lemma ends_app (a b : jstring) :
  match rev b with d :: _ => is_space d = false | [] => False end ->
  match rev (a ++ b) with d :: _ => is_space d = false | [] => False end.
Proof. rewrite rev_app_distr. now destruct (rev b). Qed.


Section WithHandler.

Variable toLowerCase : jstring -> jstring.
Variable decodeURIComponent : jstring -> option jstring.
Variable pdfStart : UploadedFile -> option ApiError.
Variable pdfReport : UploadedFile -> option pdf_event.
Variable unlinked : UploadedFile -> bool.
Variable sizeKB : UploadedFile -> jstring.
Variable readPng readText : UploadedFile -> attempt jstring.
Variable envApiKey : option jstring.
Variable C : Type.
Variable generatedContent : C -> option jstring.
Variable create : jstring -> jstring -> jstring -> attempt C.

Local Abbreviation pdf := (readPdf decodeURIComponent pdfStart pdfReport unlinked sizeKB).
Local Abbreviation parse :=
  (parseFileContent toLowerCase decodeURIComponent pdfStart pdfReport unlinked sizeKB
     readPng readText).
Local Abbreviation handle :=
  (handleStudyGuideGeneration toLowerCase decodeURIComponent pdfStart pdfReport
     unlinked sizeKB readPng readText envApiKey generatedContent create).

Lemma catch_response_shape e :
  In (res_status (catch_response e)) [400; 401; 403; 413; 429; 500]%Z
  /\ exists c err, res_body (catch_response e) = ErrorBody (c :: err).
Proof.
  unfold catch_response. destruct (message e) as [|c msg]; cbn [truthy andb];
  repeat match goal with
  | |- context [if ?b then _ else _] => destruct b
  end; cbn; split; try tauto; eexists; eexists; reflexivity.
Qed.

Lemma generate_tried (cr : jstring -> attempt C) :
  exists rest, tried (generate cr) = str "gpt-4.1-nano-2025-04-14" :: rest.
Proof.
  unfold generate, models. cbn [try_models].
  destruct (cr _); [eexists; reflexivity|].
  destruct (negb _); eexists; reflexivity.
Qed.

Lemma parse_pending file :
  parse file = Pending ->
  fileExtension toLowerCase (originalname file) = str ".pdf" /\ pdf file = Pending.
Proof.
  unfold parseFileContent.
  destruct (jeqb _ (str ".pdf")) eqn:E.
  - intros H. apply jeqb_eq in E. now split.
  - destruct (jeqb _ (str ".png")); [now destruct (readPng file)|].
    destruct (_ || _); [now destruct (readText file) | discriminate].
Qed.

(** X16. The handler: a model is called only for a request with a file, a
    kind, a key (the form's or the environment's) and a file that parses to
    a text that is not blank, and such a request is answered.  A request
    for which no model is called is answered 400, or not at all: that is
    the request, a file, a kind and a key given, whose file has the
    extension .pdf and whose PDF promise never settles.  The first model
    called is always the first of the list. *)
Theorem handler_calls_after_validation req :
  match called (handle req) with
  | [] =>
      match response (handle req) with
      | Some r => res_status r = 400%Z
      | None =>
          present (req_type req) = true
          /\ present (if present (req_apiKey req) then req_apiKey req else envApiKey) = true
          /\ exists file,
               req_file req = Some file
               /\ fileExtension toLowerCase (originalname file) = str ".pdf"
               /\ pdf file = Pending
      end
  | first :: _ =>
      first = str "gpt-4.1-nano-2025-04-14"
      /\ present (req_type req) = true
      /\ present (if present (req_apiKey req) then req_apiKey req else envApiKey) = true
      /\ response (handle req) <> None
      /\ exists file content,
           req_file req = Some file
           /\ parse file = Fulfilled content
           /\ trim content <> []
  end.
Proof.
  unfold handleStudyGuideGeneration.
  destruct (req_file req) as [file|]; [|reflexivity].
  destruct (present (req_type req)); [|reflexivity]. cbn [negb].
  destruct (present (if present (req_apiKey req) then _ else _)); [|reflexivity].
  cbn [negb].
  destruct (parseFileContent _ _ _ _ _ _ _ _ file) as [content|e|] eqn:P; [|reflexivity|].
  2: { cbn [called response]. repeat split. exists file. split; [reflexivity|].
       now apply parse_pending. }
  destruct (negb (truthy content) || (length (trim content) =? 0)) eqn:B; [reflexivity|].
  apply orb_false_iff in B as [_ B]. apply Nat.eqb_neq in B.
  match goal with |- context [generate ?cr] =>
    destruct (generate_tried cr) as (rest & T);
    destruct (generate cr) as [tr en] end.
  cbn [tried ending] in *. subst tr.
  assert (G : forall r : Response,
              str "gpt-4.1-nano-2025-04-14" = str "gpt-4.1-nano-2025-04-14"
              /\ true = true /\ true = true /\ Some r <> None
              /\ exists f c, Some file = Some f
                   /\ parse f = Fulfilled c
                   /\ trim c <> []).
  { intros r. repeat split; [discriminate|]. exists file, content. repeat split; auto.
    intros Z. rewrite Z in B. now apply B. }
  destruct en as [completion|e]; [destruct (generatedContent completion) as [[|c g]|]|];
    apply G.
Qed.

(** X17. The handler and the browser: an answer is 200 with a content that
    is not empty, the kind asked for and the name of the file, and the
    browser stores that content; or it is an error answer with one of six
    statuses and a sentence that is not empty, and the browser shows the
    toast of that sentence, never the HTTP status line.  When the handler
    gives no answer, no model was called. *)
Theorem handler_answer_read_by_client req statusLine :
  match response (handle req) with
  | Some r =>
      match res_body r with
      | ContentBody content type filename =>
          res_status r = 200%Z
          /\ content <> []
          /\ req_type req = Some type
          /\ option_map originalname (req_file req) = Some filename
          /\ clientOutcome statusLine r = Stored content
      | ErrorBody error =>
          In (res_status r) [400; 401; 403; 413; 429; 500]%Z
          /\ error <> []
          /\ clientOutcome statusLine r = Shown (failureToast error)
      end
  | None => called (handle req) = []
  end.
Proof.
  assert (Herr : forall r, In (res_status r) [400; 401; 403; 413; 429; 500]%Z ->
    (exists c err, res_body r = ErrorBody (c :: err)) ->
    match res_body r with
    | ContentBody content type filename =>
        res_status r = 200%Z /\ content <> [] /\ req_type req = Some type
        /\ option_map originalname (req_file req) = Some filename
        /\ clientOutcome statusLine r = Stored content
    | ErrorBody error =>
        In (res_status r) [400; 401; 403; 413; 429; 500]%Z /\ error <> []
        /\ clientOutcome statusLine r = Shown (failureToast error)
    end).
  { intros r Hs (c & err & Hb). unfold clientOutcome. rewrite Hb.
    split; [exact Hs|]. split; [discriminate|].
    cbn in Hs. destruct Hs as [<-|[<-|[<-|[<-|[<-|[<-|[]]]]]]]; reflexivity. }
  unfold handleStudyGuideGeneration, answer.
  destruct (req_file req) as [file|]; cbn [response];
    [|apply Herr; cbn; [tauto | eexists; eexists; reflexivity]].
  destruct (present (req_type req)) eqn:Pt; cbn [negb response];
    [|apply Herr; cbn; [tauto | eexists; eexists; reflexivity]].
  destruct (present (if present (req_apiKey req) then _ else _)); cbn [negb response];
    [|apply Herr; cbn; [tauto | eexists; eexists; reflexivity]].
  destruct (parseFileContent _ _ _ _ _ _ _ _ file) as [content|e|]; cbn [response called];
    [|apply Herr; cbn; [tauto | eexists; eexists; reflexivity]|reflexivity].
  destruct (negb (truthy content) || (length (trim content) =? 0)); cbn [response];
    [apply Herr; cbn; [tauto | eexists; eexists; reflexivity]|].
  match goal with |- context [generate ?cr] => destruct (generate cr) as [tr en] end.
  cbn [tried ending].
  destruct en as [completion|e].
  - destruct (generatedContent completion) as [[|c g]|]; cbn [response];
      try (apply Herr; cbn; [tauto | eexists; eexists; reflexivity]).
    cbn. repeat split; try discriminate.
    unfold present in Pt. destruct (req_type req) as [t|]; [reflexivity | discriminate].
  - cbn [response]. apply Herr; apply catch_response_shape.
Qed.

(** X18. The upload filter and the parser do not agree: a file let in on
    its MIME type alone, with an extension outside the four, passes the
    filter and is then refused by the parser, so that the request is
    answered 400 without any model being called. *)
Theorem accepted_on_mime_fails_parsing file type key :
  includes allowedTypes (mimetype file) = true ->
  includes allowedExtensions (fileExtension toLowerCase (originalname file)) = false ->
  fileFilter toLowerCase file = Accept
  /\ parse file = Rejected unsupportedFileType
  /\ option_map res_status
       (response (handle {| req_file := Some file; req_type := type;
                            req_apiKey := key |})) = Some 400%Z
  /\ called (handle {| req_file := Some file; req_type := type;
                       req_apiKey := key |}) = [].
Proof.
  intros Hm He.
  assert (P : parse file = Rejected unsupportedFileType).
  { unfold parseFileContent. unfold includes, allowedExtensions in He.
    cbn [existsb] in He.
    set (ext := fileExtension toLowerCase (originalname file)) in *.
    repeat (apply orb_false_iff in He as [? He]).
    rewrite !(jeqb_sym ext) in *.
    repeat match goal with H : jeqb _ _ = false |- _ => rewrite H; clear H end.
    reflexivity. }
  split; [unfold fileFilter; now rewrite Hm|]. split; [exact P|].
  unfold handleStudyGuideGeneration. cbn [req_file req_type req_apiKey].
  rewrite P.
  destruct (present type); cbn [negb]; [|split; reflexivity].
  destruct (present (if present key then key else envApiKey)); split; reflexivity.
Qed.

(** X19. When every call is refused with status 403, a request that passes
    the checks has all four models called in the order of the list and is
    answered 403, which the browser shows as an access issue. *)
Theorem all_models_refused req statusLine :
  (forall k model prompt, exists e,
     create k model prompt = Failed e /\ status e = Some 403%Z) ->
  called (handle req) <> [] ->
  called (handle req) = models
  /\ exists r, response (handle req) = Some r
       /\ res_status r = 403%Z
       /\ exists t, clientOutcome statusLine r = Shown t
            /\ toast_title t = str "API Key Access Issue".
Proof.
  intros Hc. unfold handleStudyGuideGeneration.
  destruct (req_file req) as [file|]; [|intros H; now contradiction H].
  destruct (present (req_type req)); [|intros H; now contradiction H]. cbn [negb].
  destruct (present (if present (req_apiKey req) then _ else _));
    [|intros H; now contradiction H].
  cbn [negb].
  destruct (parseFileContent _ _ _ _ _ _ _ _ file) as [content|e|];
    [|intros H; now contradiction H|intros H; now contradiction H].
  destruct (negb (truthy content) || (length (trim content) =? 0));
    [intros H; now contradiction H|].
  intros _.
  match goal with |- context [generate ?cr] => set (cr0 := cr) end.
  assert (G : exists e, generate cr0 = {| tried := models; ending := Thrown e |}
                        /\ status e = Some 403%Z).
  { apply try_models_all_refused; [|discriminate].
    intros model. subst cr0. apply Hc. }
  destruct G as (e & -> & S). cbn [tried ending response called].
  split; [reflexivity|].
  assert (R : catch_response e = error_response 403 (str "Your OpenAI API key does not have access to the required models. Please ensure your API key has access to GPT models or upgrade your OpenAI plan.")).
  { unfold catch_response, access_error. rewrite S. reflexivity. }
  rewrite R. eexists. split; [reflexivity|]. split; [reflexivity|].
  eexists. split; reflexivity.
Qed.

Lemma pdf_message_trimmed s :
  match rev s with d :: _ => is_space d = false | [] => False end ->
  trim (str "PDF file: " ++ s) = str "PDF file: " ++ s
  /\ str "PDF file: " ++ s <> [].
Proof.
  intros Hs. split; [|discriminate]. apply trim_fixed; [reflexivity|].
  apply (ends_app (str "PDF file: ")) in Hs.
  now destruct (rev (str "PDF file: " ++ s)).
Qed.

(** X21. The PDF branch of parseFileContent.  When its promise is
    fulfilled, the text is trimmed and not empty, so that the handler's test
    for a file without readable content never holds for it.  It is rejected
    only by what the import, the constructor or loadPDF throw.  It never
    settles when the parser reports nothing, and when the parser reports an
    error once the upload is unlinked: the listener's statSync then throws
    before anything is resolved. *)
Theorem pdf_text_never_blank file :
  match pdf file with
  | Fulfilled content =>
      trim content = content
      /\ content <> []
      /\ negb (truthy content) || (length (trim content) =? 0) = false
  | Rejected e => pdfStart file = Some e
  | Pending =>
      pdfStart file = None
      /\ (pdfReport file = None
          \/ pdfReport file = Some DataError /\ unlinked file = true)
  end.
Proof.
  assert (F : forall content, trim content = content -> content <> [] ->
    trim content = content /\ content <> []
    /\ negb (truthy content) || (length (trim content) =? 0) = false).
  { intros content T N. split; [exact T|]. split; [exact N|].
    rewrite T. destruct content; [congruence | reflexivity]. }
  unfold readPdf. destruct (pdfStart file) as [e|]; [reflexivity|].
  destruct (pdfReport file) as [[|data]|]; [| |now split; [|left]].
  - destruct (unlinked file) eqn:U; [split; [reflexivity|right; now split]|].
    apply F; apply pdf_message_trimmed; do 3 apply ends_app; reflexivity.
  - unfold pdfDataReady. destruct (pdfText decodeURIComponent data) as [text|].
    + destruct (Nat.eqb_spec (length (trim text)) 0) as [Z|Z].
      * apply F; apply pdf_message_trimmed; apply ends_app; reflexivity.
      * apply F; [apply trim_idem|]. intros E. rewrite E in Z. now apply Z.
    + apply F; apply pdf_message_trimmed; apply ends_app; reflexivity.
Qed.

(** X22. A PDF the parser cannot read gets no answer: for a file with the
    extension .pdf, when pdf2json starts, reports an error and the upload
    has been unlinked by then, a request with a kind and a key is never
    answered and no model is called. *)
Theorem broken_pdf_gets_no_answer file type key :
  fileExtension toLowerCase (originalname file) = str ".pdf" ->
  pdfStart file = None ->
  pdfReport file = Some DataError ->
  unlinked file = true ->
  present type = true ->
  present (if present key then key else envApiKey) = true ->
  parse file = Pending
  /\ response (handle {| req_file := Some file; req_type := type;
                         req_apiKey := key |}) = None
  /\ called (handle {| req_file := Some file; req_type := type;
                       req_apiKey := key |}) = [].
Proof.
  intros He Hs Hr Hu Ht Hk.
  assert (P : parse file = Pending).
  { unfold parseFileContent, readPdf. rewrite He, Hs, Hr, Hu. reflexivity. }
  split; [exact P|].
  unfold handleStudyGuideGeneration. cbn [req_file req_type req_apiKey].
  rewrite Ht, Hk, P. split; reflexivity.
Qed.

End WithHandler.

Lemma accepted_on_mime_fails_parsing_witness :
  let file := {| originalname := str "notes.docx"; mimetype := str "text/plain" |} in
  let handled :=
    handleStudyGuideGeneration ascii_toLowerCase Some
      (fun _ => None) (fun _ => None) (fun _ => true) (fun _ => [])
      (fun _ => Completed []) (fun _ => Completed [])
      None (fun _ : unit => None) (fun _ _ _ => Completed tt)
      {| req_file := Some file; req_type := Some (str "summary");
         req_apiKey := Some (str "key") |} in
  fileFilter ascii_toLowerCase file = Accept
  /\ parseFileContent ascii_toLowerCase Some
       (fun _ => None) (fun _ => None) (fun _ => true) (fun _ => [])
       (fun _ => Completed []) (fun _ => Completed []) file
     = Rejected unsupportedFileType
  /\ option_map res_status (response handled) = Some 400%Z
  /\ called handled = [].
Proof.
  cbv zeta.
  apply (accepted_on_mime_fails_parsing ascii_toLowerCase Some
           (fun _ => None) (fun _ => None) (fun _ => true) (fun _ => [])
           (fun _ => Completed []) (fun _ => Completed [])
           None unit (fun _ => None) (fun _ _ _ => Completed tt)
           {| originalname := str "notes.docx"; mimetype := str "text/plain" |}
           (Some (str "summary")) (Some (str "key")));
    vm_compute; reflexivity.
Defined.

Lemma all_models_refused_witness :
  let refused : ApiError := {| status := Some 403%Z; code := None; message := [] |} in
  let handled :=
    handleStudyGuideGeneration ascii_toLowerCase Some
      (fun _ => None) (fun _ => None) (fun _ => true) (fun _ => [])
      (fun _ => Completed []) (fun _ => Completed (str "notes"))
      None (fun _ : unit => None) (fun _ _ _ => Failed refused)
      {| req_file := Some {| originalname := str "notes.txt"; mimetype := str "text/plain" |};
         req_type := Some (str "summary"); req_apiKey := Some (str "key") |} in
  called handled = models
  /\ exists r, response handled = Some r
       /\ res_status r = 403%Z
       /\ exists t, clientOutcome (str "HTTP 403: Forbidden") r = Shown t
            /\ toast_title t = str "API Key Access Issue".
Proof.
  cbv zeta.
  apply (all_models_refused ascii_toLowerCase Some
           (fun _ => None) (fun _ => None) (fun _ => true) (fun _ => [])
           (fun _ => Completed []) (fun _ => Completed (str "notes"))
           None unit (fun _ => None)
           (fun _ _ _ => Failed {| status := Some 403%Z; code := None; message := [] |})).
  - intros k model prompt. eexists. split; reflexivity.
  - vm_compute. discriminate.
Defined.

Lemma broken_pdf_gets_no_answer_witness :
  let handled :=
    handleStudyGuideGeneration ascii_toLowerCase Some
      (fun _ => None) (fun _ => Some DataError) (fun _ => true) (fun _ => str "12")
      (fun _ => Completed []) (fun _ => Completed [])
      None (fun _ : unit => None) (fun _ _ _ => Completed tt)
      {| req_file := Some {| originalname := str "scan.PDF";
                             mimetype := str "application/pdf" |};
         req_type := Some (str "summary"); req_apiKey := Some (str "key") |} in
  response handled = None /\ called handled = [].
Proof.
  cbv zeta.
  apply (broken_pdf_gets_no_answer ascii_toLowerCase Some
           (fun _ => None) (fun _ => Some DataError) (fun _ => true) (fun _ => str "12")
           (fun _ => Completed []) (fun _ => Completed [])
           None unit (fun _ => None) (fun _ _ _ => Completed tt)
           {| originalname := str "scan.PDF"; mimetype := str "application/pdf" |}
           (Some (str "summary")) (Some (str "key")));
    vm_compute; reflexivity.
Defined.

(** X20. The catch block and the toasts: the sentences the handler sends
    for a 401 status, for 403, for 429 and for 413 are read by the browser
    as the toast of an invalid key, of an access issue, of the rate limit,
    and as a plain failure with the server's sentence. *)
Theorem catch_response_toasts e :
  let t := failureToast (error_of (catch_response e)) in
  (if status_is e 401 then toast_title t = str "Invalid API Key" else True)
  /\ match res_status (catch_response e) with
     | 403%Z => toast_title t = str "API Key Access Issue"
     | 429%Z => toast_title t = str "Rate Limit Exceeded"
     | 413%Z => toast_title t = str "Generation failed"
                /\ toast_description t = error_of (catch_response e)
     | _ => True
     end.
Proof.
  unfold catch_response, status_is.
  destruct (match status e with Some s => (s =? 401)%Z | None => false end);
    [split; [reflexivity | exact I]|].
  split; [exact I|].
  destruct (access_error e); [reflexivity|].
  destruct (match status e with Some s => (s =? 429)%Z | None => false end);
    [reflexivity|].
  destruct (match status e with Some s => (s =? 413)%Z | None => false end);
    [split; reflexivity|].
  destruct (truthy (message e) && includes_sub (str "API key") (message e)); [exact I|].
  destruct (truthy (message e) && includes_sub (str "parsing") (message e)); exact I.
Qed.

End HandlerFacts.

(** ** The extension check of the upload filters *)

Module UploadFacts.

Import Index Server.

Lemma lastIndexOf_from_app c a : forall b i found,
  lastIndexOf_from c (a ++ b) i found
  = lastIndexOf_from c b (i + length a) (lastIndexOf_from c a i found).
Proof.
  induction a as [|d a IH]; intros b i found; simpl.
  - now rewrite Nat.add_0_r.
  - rewrite IH. f_equal. lia.
Qed.

Lemma lastIndexOf_from_absent c s : ~ In c s -> forall i found,
  lastIndexOf_from c s i found = found.
Proof.
  induction s as [|d s IH]; intros H i found; simpl; [reflexivity|].
  destruct (N.eqb_spec d c) as [->|_]; [exfalso; apply H; now left|].
  apply IH. intros Hi. apply H. now right.
Qed.

Lemma lastIndexOf_last_dot base ext : ~ In (ch ".") ext ->
  lastIndexOf (ch ".") (base ++ ch "." :: ext) = Z.of_nat (length base).
Proof.
  intros H. unfold lastIndexOf. rewrite lastIndexOf_from_app. cbn [lastIndexOf_from].
  rewrite N.eqb_refl. now rewrite lastIndexOf_from_absent.
Qed.

Lemma fileExtension_computed toLowerCase base ext lbase lext :
  ~ In (ch ".") ext ->
  toLowerCase (base ++ ch "." :: ext) = lbase ++ ch "." :: lext ->
  length lbase = length base ->
  fileExtension toLowerCase (base ++ ch "." :: ext) = ch "." :: lext.
Proof.
  intros Hd Hl Hn. unfold fileExtension, substring.
  rewrite (lastIndexOf_last_dot base ext Hd), Hl.
  rewrite Z.max_r by lia. rewrite Nat2Z.id, <- Hn.
  rewrite skipn_app, Nat.sub_diag, skipn_all. reflexivity.
Qed.

(** X23. The extension check is right on the names whose lower case keeps
    the length of the part before the last dot (all names of ASCII
    characters are such): for a name base.ext, ext without a dot, whose
    lower case is lbase.lext with lbase as long as base, the extension the
    code computes is .lext, the upload filter accepts the file exactly when
    its MIME type or .lext is in the allow-lists, and the browser turns it
    away for its type exactly when both are outside. *)
Theorem extension_check_sound toLowerCase base ext lbase lext mime size :
  ~ In (ch ".") ext ->
  toLowerCase (base ++ ch "." :: ext) = lbase ++ ch "." :: lext ->
  length lbase = length base ->
  let name := base ++ ch "." :: ext in
  fileExtension toLowerCase name = ch "." :: lext
  /\ (fileFilter toLowerCase {| originalname := name; mimetype := mime |} = Accept
      <-> In mime allowedTypes \/ In (ch "." :: lext) allowedExtensions)
  /\ (handleFileUpload toLowerCase {| f_name := name; f_type := mime; f_size := size |}
        = InvalidFileType
      <-> ~ In mime allowedTypes /\ ~ In (ch "." :: lext) allowedExtensions).
Proof.
  intros Hd Hl Hn name.
  pose proof (fileExtension_computed toLowerCase base ext lbase lext Hd Hl Hn) as E.
  fold name in E. split; [exact E|]. split.
  - unfold fileFilter. cbn [originalname mimetype]. rewrite E, <- !includes_In.
    destruct (includes allowedTypes mime), (includes allowedExtensions _); simpl;
      split; intros H; try reflexivity; try discriminate; auto.
    destruct H; discriminate.
  - unfold handleFileUpload. cbn [f_name f_type f_size]. rewrite E, <- !includes_not_In.
    destruct (includes allowedTypes mime), (includes allowedExtensions _); simpl;
      try destruct (_ <? _)%Z; split; intros H; try reflexivity;
      try discriminate; auto; destruct H; discriminate.
Qed.

Lemma extension_check_sound_witness :
  fileExtension ascii_toLowerCase (str "Lecture.Notes.PDF") = str ".pdf"
  /\ (fileFilter ascii_toLowerCase
        {| originalname := str "Lecture.Notes.PDF";
           mimetype := str "application/octet-stream" |} = Accept
      <-> In (str "application/octet-stream") allowedTypes
          \/ In (str ".pdf") allowedExtensions)
  /\ (handleFileUpload ascii_toLowerCase
        {| f_name := str "Lecture.Notes.PDF"; f_type := str "application/octet-stream";
           f_size := 10 |} = InvalidFileType
      <-> ~ In (str "application/octet-stream") allowedTypes
          /\ ~ In (str ".pdf") allowedExtensions).
Proof.
  apply (extension_check_sound ascii_toLowerCase
           (str "Lecture.Notes") (str "PDF") (str "lecture.notes") (str "pdf")
           (str "application/octet-stream") 10%Z).
  - vm_compute. intros H. repeat (destruct H as [H|H]; [discriminate H|]). exact H.
  - vm_compute. reflexivity.
  - vm_compute. reflexivity.
Defined.

(** C10, where the code misses it.  The extension is cut out of the
    lower-cased name at the index the last dot has in the original name.
    Lower-casing the capital I with a dot above gives two code units, so for
    the name made of that letter and .txt the index falls one short: the
    name has the extension .txt, in the allow-list, the code computes the
    combining dot followed by .txt, and with a MIME type outside the
    allow-list the file is refused by the upload filter and by the browser
    alike. *)
Theorem file_type_validation_dotted_I :
  let name := dotted_I :: str ".txt" in
  extension_of name = str ".txt"
  /\ toLowerCase_latin (extension_of name) = str ".txt"
  /\ In (str ".txt") allowedExtensions
  /\ toLowerCase_latin name = [105%N; 775%N] ++ str ".txt"
  /\ fileExtension toLowerCase_latin name = 775%N :: str ".txt"
  /\ fileFilter toLowerCase_latin
       {| originalname := name; mimetype := str "application/octet-stream" |} = Reject
  /\ handleFileUpload toLowerCase_latin
       {| f_name := name; f_type := str "application/octet-stream"; f_size := 10 |}
     = InvalidFileType.
Proof.
  cbv zeta. repeat split; try (vm_compute; reflexivity).
  vm_compute. tauto.
Qed.

End UploadFacts.

